(** * mint-amazon-tagger: the matching engine and the update loop of tagger.py

    A shallow embedding of [tagger.py].  Python objects that the code mutates
    in place (the [matched] flag of an Order or Refund, the [orders] list of a
    Mint transaction) are modelled by identity-keyed stores: every object
    carries its identity, and the mutable attributes live in a state record
    keyed by that identity, so two references to the same object see the same
    flag.  Exceptions and [exit] are modelled by an explicit result type. *)

From Stdlib Require Import ZArith String Ascii List Bool Lia.
From stdpp Require Import gmap strings list fin_maps.

Local Open Scope Z_scope.
#[local] Set Warnings "-clear-no-such-hyp".

(** ** Python control effects *)

Inductive exn := StopIteration | AssertionError | IndexError.

Inductive result (A : Type) :=
  | Ok (a : A)
  | Raise (e : exn)
  | Exit (code : Z).
Arguments Ok {A} a.
Arguments Raise {A} e.
Arguments Exit {A} code.

Definition bind {A B} (k : A -> result B) (r : result A) : result B :=
  match r with
  | Ok a => k a
  | Raise e => Raise e
  | Exit c => Exit c
  end.

#[global] Instance result_ret : MRet result := fun _ a => Ok a.
#[global] Instance result_bind : MBind result := fun _ _ k r => bind k r.

(** ** Records of the amazon and mint modules *)

(** Modelled from the spec: [amazon.Order] and [amazon.Refund] are not among
    the sources.  The matcher is duck-typed ("also works with Refund
    objects") and reads only [order_id], [transact_amount()],
    [transact_date()] and the [matched] flag.  [obj_ref] is the identity of
    the Python object; [matched] is mutable and lives in [MatchState]. *)
Record AmazonObj := {
  obj_ref : nat;
  order_id : string;
  transact_amount : Z;           (* micro-USD *)
  transact_date : option Z       (* day number; None when never shipped *)
}.

(** Modelled from the spec: [mint.Transaction] is not among the sources.
    [trans_ref] is the identity of the object; the mutable [orders] attribute
    lives in [MatchState]. *)
Record Transaction := {
  trans_ref : nat;
  trans_id : Z;                  (* the Mint identifier *)
  odate : Z;                     (* day number of the original date *)
  amount : Z;                    (* micro-USD *)
  merchant : string;
  omerchant : string;
  category : string;
  category_id : Z;
  note : string;
  is_pending : bool;
  is_debit : bool
}.

Record MatchState := {
  matched_refs : gset nat;                       (* objects with o.matched *)
  trans_orders : gmap nat (list AmazonObj)       (* t.orders, [] if absent *)
}.

Definition fresh_state : MatchState :=
  {| matched_refs := ∅; trans_orders := ∅ |}.

Definition matched (st : MatchState) (o : AmazonObj) : bool :=
  bool_decide (obj_ref o ∈ matched_refs st).

Definition orders_of (st : MatchState) (t : Transaction) : list AmazonObj :=
  default [] (trans_orders st !! trans_ref t).

(** Modelled from the spec: [o.match(t)] ("mark both sides matched") sets the
    object's [matched] flag. *)
Definition obj_match (st : MatchState) (o : AmazonObj) : MatchState :=
  {| matched_refs := {[obj_ref o]} ∪ matched_refs st;
     trans_orders := trans_orders st |}.

(** Modelled from the spec: [t.match(orders)] populates [t.orders]. *)
Definition trans_match (t : Transaction) (g : list AmazonObj) (st : MatchState)
  : MatchState :=
  {| matched_refs := matched_refs st;
     trans_orders := <[trans_ref t := g]> (trans_orders st) |}.

Definition sum_transact_amounts (g : list AmazonObj) : Z :=
  foldr (fun o acc => transact_amount o + acc) 0 g.

(** ** mark_best_as_matched *)

(** [next(o for o in orders if o.transact_date())]: the first member with a
    date, together with that date; [None] stands for the exhausted generator,
    on which [next] raises StopIteration. *)
Fixpoint next_with_date (orders : list AmazonObj) : option (AmazonObj * Z) :=
  match orders with
  | [] => None
  | o :: rest =>
      match transact_date o with
      | Some d => Some (o, d)
      | None => next_with_date rest
      end
  end.

Definition already_matched (st : MatchState) (orders : list AmazonObj) : bool :=
  existsb (matched st) orders.

(** The pair [(closest_match, closest_match_num_days)] of the loop. *)
Definition best := (option (list AmazonObj) * Z)%type.

Definition best0 : best := (None, 365).

(** Modelled from the spec: truthiness of an Order or Refund object.  The
    spec gives them as plain records, and a Python object whose class
    defines neither [__bool__] nor [__len__] is truthy. *)
Definition obj_truthy (o : AmazonObj) : bool := true.

(** One iteration of the loop over the candidate groups. *)
Definition consider (t : Transaction) (st : MatchState) (b : best)
    (orders : list AmazonObj) : result best :=
  match next_with_date orders with
  | None => Raise StopIteration
  | Some (an_order, d) =>
      if negb (obj_truthy an_order) then Ok b      (* [continue] *)
      else
        let num_days := odate t - d in
        if (Z.abs num_days <? 4) && (Z.abs num_days <? snd b)
           && negb (already_matched st orders)
        then Ok (Some orders, Z.abs num_days)
        else Ok b
  end.

Fixpoint scan (t : Transaction) (st : MatchState) (b : best)
    (groups : list (list AmazonObj)) : result best :=
  match groups with
  | [] => Ok b
  | orders :: rest => b' ← consider t st b orders; scan t st b' rest
  end.

Definition apply_match (t : Transaction) (g : list AmazonObj) (st : MatchState)
  : MatchState :=
  trans_match t g (fold_left obj_match g st).

(** The group the loop settles on, if any; [if closest_match:] is false for
    [None] and for an empty sequence. *)
Definition chosen (b : best) : option (list AmazonObj) :=
  match fst b with
  | Some (o :: os) => Some (o :: os)
  | _ => None
  end.

Definition mark_best_as_matched (t : Transaction)
    (list_of_orders_or_refunds : list (list AmazonObj)) (st : MatchState)
  : result MatchState :=
  match list_of_orders_or_refunds with
  | [] => Ok st
  | _ =>
      b ← scan t st best0 list_of_orders_or_refunds;
      match chosen b with
      | Some g => Ok (apply_match t g st)
      | None => Ok st
      end
  end.

(** ** match_transactions *)

(** [defaultdict(list)] keyed by amount: a missing key reads as []. *)
Definition bucket (m : gmap Z (list (list AmazonObj))) (k : Z)
  : list (list AmazonObj) :=
  default [] (m !! k).

Definition bucket_append (m : gmap Z (list (list AmazonObj))) (k : Z)
    (g : list AmazonObj) : gmap Z (list (list AmazonObj)) :=
  <[k := bucket m k ++ [g]]> m.

(** The loops [amount_to_orders[key].append(group)] over a list of keyed
    groups. *)
Definition index_groups (entries : list (Z * list AmazonObj))
  : gmap Z (list (list AmazonObj)) :=
  fold_left (fun m e => bucket_append m (fst e) (snd e)) entries ∅.

(** [oid_to_orders]: a dict iterated through [.values()], so insertion order
    of the keys matters; an association list in first-insertion order. *)
Fixpoint oid_append (d : list (string * list AmazonObj)) (k : string)
    (o : AmazonObj) : list (string * list AmazonObj) :=
  match d with
  | [] => [(k, [o])]
  | (k', l) :: rest =>
      if String.eqb k' k then (k', l ++ [o]) :: rest
      else (k', l) :: oid_append rest k o
  end.

Definition oid_to_orders (unmatched_orders : list AmazonObj)
  : list (string * list AmazonObj) :=
  fold_left (fun d o => oid_append d (order_id o) o) unmatched_orders [].

(** Reading [oid_to_orders[k]]; a missing key reads as []. *)
Definition oid_get (d : list (string * list AmazonObj)) (k : string)
  : list AmazonObj :=
  match List.find (λ kv, String.eqb (fst kv) k) d with
  | Some kv => snd kv
  | None => []
  end.

(** [itertools.combinations(l, r)]: the r-length subsequences of [l], in
    lexicographic order of positions. *)
Fixpoint combinations {A} (l : list A) (r : nat) : list (list A) :=
  match r, l with
  | O, _ => [[]]
  | S _, [] => []
  | S r', x :: rest =>
      map (cons x) (combinations rest r') ++ combinations rest r
  end.

(** [for r in range(2, len(orders_same_id) + 1): combos.extend(...)]. *)
Definition combos (orders_same_id : list AmazonObj) : list (list AmazonObj) :=
  flat_map (combinations orders_same_id)
           (seq 2 (length orders_same_id - 1)).

Definition all_combos (unmatched_orders : list AmazonObj)
  : list (list AmazonObj) :=
  flat_map (fun kv => combos (snd kv)) (oid_to_orders unmatched_orders).

Fixpoint match_each (amount_to_orders : gmap Z (list (list AmazonObj)))
    (ts : list Transaction) (st : MatchState) : result MatchState :=
  match ts with
  | [] => Ok st
  | t :: rest =>
      st' ← mark_best_as_matched t (bucket amount_to_orders (amount t)) st;
      match_each amount_to_orders rest st'
  end.

Definition pass_a_buckets (unmatched_orders : list AmazonObj)
  : gmap Z (list (list AmazonObj)) :=
  index_groups (map (fun o => (transact_amount o, [o])) unmatched_orders).

Definition still_unmatched_orders (st : MatchState) (os : list AmazonObj)
  : list AmazonObj :=
  List.filter (fun o => negb (matched st o)) os.

Definition has_orders (st : MatchState) (t : Transaction) : bool :=
  match orders_of st t with [] => false | _ => true end.

Definition still_unmatched_trans (st : MatchState) (ts : list Transaction)
  : list Transaction :=
  List.filter (fun t => negb (has_orders st t)) ts.

Definition pass_b_buckets (unmatched_orders : list AmazonObj)
  : gmap Z (list (list AmazonObj)) :=
  index_groups (map (fun c => (sum_transact_amounts c, c))
                   (all_combos unmatched_orders)).

Definition match_transactions (unmatched_trans : list Transaction)
    (unmatched_orders : list AmazonObj) (st : MatchState) : result MatchState :=
  st1 ← match_each (pass_a_buckets unmatched_orders) unmatched_trans st;
  let unmatched_orders' := still_unmatched_orders st1 unmatched_orders in
  let unmatched_trans' := still_unmatched_trans st1 unmatched_trans in
  match_each (pass_b_buckets unmatched_orders') unmatched_trans' st1.

(** The two calls of [get_mint_updates]: orders against all transactions,
    then refunds against the transactions still without orders. *)
Definition match_all (trans : list Transaction)
    (orders refunds : list AmazonObj) (st : MatchState) : result MatchState :=
  st1 ← match_transactions trans orders st;
  match_transactions (still_unmatched_trans st1 trans) refunds st1.

(** ** Candidate selection: what the loop of mark_best_as_matched computes *)

(** Absolute day gap between the transaction and the representative member
    of a group (its first member with a date). *)
Definition day_gap (t : Transaction) (g : list AmazonObj) : option Z :=
  match next_with_date g with
  | Some (_, d) => Some (Z.abs (odate t - d))
  | None => None
  end.

(** A candidate the loop may select: dated, strictly less than 4 days away,
    and with no member already matched. *)
Definition eligible (t : Transaction) (st : MatchState) (g : list AmazonObj)
  : bool :=
  match day_gap t g with
  | Some n => (n <? 4) && negb (already_matched st g)
  | None => false
  end.

Definition gap_or_far (t : Transaction) (g : list AmazonObj) : Z :=
  default 365 (day_gap t g).

(** State of the scan after a prefix [pre] of the candidate list. *)
Definition scan_inv (t : Transaction) (st : MatchState)
    (pre : list (list AmazonObj)) (b : best) : Prop :=
  match fst b with
  | None => snd b = 365 ∧ ∀ g, g ∈ pre → eligible t st g = false
  | Some g =>
      ∃ i, pre !! i = Some g ∧ eligible t st g = true ∧
           day_gap t g = Some (snd b) ∧
           ∀ j g', pre !! j = Some g' → eligible t st g' = true →
                   snd b ≤ gap_or_far t g' ∧
                   (gap_or_far t g' = snd b → (i ≤ j)%nat)
  end.


(** ** Soundness of a matching state *)

(** A transaction and the group matched to it agree: equal amounts, and the
    representative of the group at most 3 days away. *)
Definition group_sound (t : Transaction) (g : list AmazonObj) : Prop :=
  sum_transact_amounts g = amount t ∧
  ∃ n, day_gap t g = Some n ∧ n ≤ 3.

(** Objects are told apart by identity: two transactions of the list with
    the same identity are the same object. *)
Definition distinct_objects (ts : list Transaction) : Prop :=
  ∀ t1 t2, t1 ∈ ts → t2 ∈ ts → trans_ref t1 = trans_ref t2 → t1 = t2.

Record sound (ts : list Transaction) (st : MatchState) : Prop := {
  sound_groups :
    ∀ t, t ∈ ts → orders_of st t ≠ [] → group_sound t (orders_of st t);
  sound_flags :
    ∀ r g o, trans_orders st !! r = Some g → o ∈ g →
             obj_ref o ∈ matched_refs st;
  sound_disjoint :
    ∀ r1 r2 g1 g2 o1 o2,
      trans_orders st !! r1 = Some g1 → trans_orders st !! r2 = Some g2 →
      r1 ≠ r2 → o1 ∈ g1 → o2 ∈ g2 → obj_ref o1 ≠ obj_ref o2
}.

(** ** Sample data (the scenarios of the specification) *)

Definition sample_o1 : AmazonObj :=
  {| obj_ref := 10; order_id := "111-1"; transact_amount := 42000000;
     transact_date := Some 2 |}.
Definition sample_o2 : AmazonObj :=
  {| obj_ref := 11; order_id := "222-2"; transact_amount := 15000000;
     transact_date := Some 20 |}.
Definition sample_o3 : AmazonObj :=
  {| obj_ref := 12; order_id := "222-2"; transact_amount := 27000000;
     transact_date := Some 21 |}.
Definition sample_o4 : AmazonObj :=
  {| obj_ref := 13; order_id := "444-4"; transact_amount := 42000000;
     transact_date := Some 5 |}.
Definition sample_r1 : AmazonObj :=
  {| obj_ref := 20; order_id := "333-3"; transact_amount := -5000000;
     transact_date := Some 30 |}.

Definition sample_t1 : Transaction :=
  {| trans_ref := 0; trans_id := 1000; odate := 4; amount := 42000000;
     merchant := "AMZN Mktp"; omerchant := "AMZN Mktp";
     category := "Shopping"; category_id := 2; note := "";
     is_pending := false; is_debit := true |}.
Definition sample_t2 : Transaction :=
  {| trans_ref := 1; trans_id := 1001; odate := 22; amount := 42000000;
     merchant := "Amazon"; omerchant := "Amazon";
     category := "Shopping"; category_id := 2; note := "";
     is_pending := false; is_debit := true |}.
Definition sample_t3 : Transaction :=
  {| trans_ref := 2; trans_id := 1002; odate := 31; amount := -5000000;
     merchant := "Amazon"; omerchant := "Amazon";
     category := "Shopping"; category_id := 2; note := "";
     is_pending := false; is_debit := false |}.

Definition sample_trans : list Transaction := [sample_t1; sample_t2; sample_t3].
Definition sample_orders : list AmazonObj := [sample_o1; sample_o2; sample_o3].
Definition sample_refunds : list AmazonObj := [sample_r1].

Definition sample_matched : MatchState :=
  apply_match sample_t3 [sample_r1]
    (apply_match sample_t2 [sample_o2; sample_o3]
       (apply_match sample_t1 [sample_o1] fresh_state)).

(** ** Python string operations used by get_mint_updates *)

(** [str.lower()] on ASCII text.  Strings are byte strings here: the
    capital letters outside ASCII, which Python also lowers, are left as
    they are. *)
Definition lower_ascii (c : ascii) : ascii :=
  let n := nat_of_ascii c in
  if ((65 <=? n) && (n <=? 90))%nat then ascii_of_nat (n + 32) else c.

Fixpoint lower (s : string) : string :=
  match s with
  | EmptyString => EmptyString
  | String c rest => String (lower_ascii c) (lower rest)
  end.

(** [s.split(',')]: always at least one piece; [''.split(',') == ['']]. *)
Fixpoint split_comma (s : string) : list string :=
  match s with
  | EmptyString => [EmptyString]
  | String c rest =>
      if Ascii.eqb c "," then EmptyString :: split_comma rest
      else match split_comma rest with
           | piece :: pieces => String c piece :: pieces
           | [] => [String c EmptyString]
           end
  end.

(** [s.startswith(pre)]. *)
Definition startswith (s pre : string) : bool := String.prefix pre s.

(** [needle in hay] on strings: substring test; the empty string is in
    every string. *)
Fixpoint contains (hay needle : string) : bool :=
  String.prefix needle hay ||
  match hay with
  | EmptyString => false
  | String _ rest => contains rest needle
  end.

(** Truthiness of an optional string argument: [None] and [''] are false. *)
Definition truthy (o : option string) : option string :=
  match o with
  | Some EmptyString => None
  | Some s => Some s
  | None => None
  end.

(** ** Command-line arguments and statistics *)

Record Args := {
  mint_input_merchant_filter : string;
  mint_input_categories_filter : option string;
  description_prefix_override : option string;
  description_return_prefix_override : option string;
  amazon_domains : string;
  verbose_itemize : bool;
  no_itemize : bool;
  no_tag_categories : bool;
  prompt_retag : bool;
  retag_changed : bool;
  num_updates : Z
}.

(** The counters of [stats] that the update loop accumulates. *)
Record Stats := {
  misc_charge : Z;
  adjust_itemized_tax : Z;
  personal_cat : Z;
  already_up_to_date : Z;
  new_tag : Z;
  no_retag : Z;
  retag : Z;
  user_skipped_retag : Z
}.

Definition stats0 : Stats :=
  {| misc_charge := 0; adjust_itemized_tax := 0; personal_cat := 0;
     already_up_to_date := 0; new_tag := 0; no_retag := 0; retag := 0;
     user_skipped_retag := 0 |}.

Definition count_misc_charge (b : bool) (s : Stats) : Stats :=
  if b then {| misc_charge := misc_charge s + 1;
     adjust_itemized_tax := adjust_itemized_tax s;
     personal_cat := personal_cat s;
     already_up_to_date := already_up_to_date s; new_tag := new_tag s;
     no_retag := no_retag s; retag := retag s;
     user_skipped_retag := user_skipped_retag s |} else s.

Definition count_adjust_itemized_tax (b : bool) (s : Stats) : Stats :=
  if b then {| misc_charge := misc_charge s;
     adjust_itemized_tax := adjust_itemized_tax s + 1;
     personal_cat := personal_cat s;
     already_up_to_date := already_up_to_date s; new_tag := new_tag s;
     no_retag := no_retag s; retag := retag s;
     user_skipped_retag := user_skipped_retag s |} else s.

Definition count_personal_cat (s : Stats) : Stats :=
  {| misc_charge := misc_charge s;
     adjust_itemized_tax := adjust_itemized_tax s;
     personal_cat := personal_cat s + 1;
     already_up_to_date := already_up_to_date s; new_tag := new_tag s;
     no_retag := no_retag s; retag := retag s;
     user_skipped_retag := user_skipped_retag s |}.

Definition count_already_up_to_date (s : Stats) : Stats :=
  {| misc_charge := misc_charge s;
     adjust_itemized_tax := adjust_itemized_tax s;
     personal_cat := personal_cat s;
     already_up_to_date := already_up_to_date s + 1; new_tag := new_tag s;
     no_retag := no_retag s; retag := retag s;
     user_skipped_retag := user_skipped_retag s |}.

Definition count_new_tag (s : Stats) : Stats :=
  {| misc_charge := misc_charge s;
     adjust_itemized_tax := adjust_itemized_tax s;
     personal_cat := personal_cat s;
     already_up_to_date := already_up_to_date s; new_tag := new_tag s + 1;
     no_retag := no_retag s; retag := retag s;
     user_skipped_retag := user_skipped_retag s |}.

Definition count_no_retag (s : Stats) : Stats :=
  {| misc_charge := misc_charge s;
     adjust_itemized_tax := adjust_itemized_tax s;
     personal_cat := personal_cat s;
     already_up_to_date := already_up_to_date s; new_tag := new_tag s;
     no_retag := no_retag s + 1; retag := retag s;
     user_skipped_retag := user_skipped_retag s |}.

Definition count_retag (s : Stats) : Stats :=
  {| misc_charge := misc_charge s;
     adjust_itemized_tax := adjust_itemized_tax s;
     personal_cat := personal_cat s;
     already_up_to_date := already_up_to_date s; new_tag := new_tag s;
     no_retag := no_retag s; retag := retag s + 1;
     user_skipped_retag := user_skipped_retag s |}.

Definition count_user_skipped_retag (s : Stats) : Stats :=
  {| misc_charge := misc_charge s;
     adjust_itemized_tax := adjust_itemized_tax s;
     personal_cat := personal_cat s;
     already_up_to_date := already_up_to_date s; new_tag := new_tag s;
     no_retag := no_retag s; retag := retag s;
     user_skipped_retag := user_skipped_retag s + 1 |}.

(** ** The input filters of get_mint_updates (lines 255-267) *)

(** [any(merch_str in t.omerchant.lower() for merch_str in merch_whitelist)]. *)
Definition merchant_ok (args : Args) (t : Transaction) : bool :=
  let merch_whitelist := split_comma (lower (mint_input_merchant_filter args)) in
  existsb (fun merch_str => contains (lower (omerchant t)) merch_str)
          merch_whitelist.

Definition category_ok (args : Args) (t : Transaction) : bool :=
  match truthy (mint_input_categories_filter args) with
  | Some f =>
      let cat_whitelist := split_comma (lower f) in
      bool_decide (lower (category t) ∈ cat_whitelist)
  | None => true
  end.

Definition filter_trans (args : Args) (trans : list Transaction)
  : list Transaction :=
  let trans := List.filter (merchant_ok args) trans in
  let trans := List.filter (fun t => negb (is_pending t)) trans in
  List.filter (category_ok args) trans.

(** The transaction as a later run sees it after this system rewrote its
    description and category; the original description is kept by Mint. *)
Definition retagged (t : Transaction) (new_merchant new_category : string)
    (new_category_id : Z) (new_note : string) : Transaction :=
  {| trans_ref := trans_ref t; trans_id := trans_id t; odate := odate t;
     amount := amount t; merchant := new_merchant; omerchant := omerchant t;
     category := new_category; category_id := new_category_id;
     note := new_note; is_pending := is_pending t; is_debit := is_debit t |}.

(** ** The update loop of get_mint_updates (lines 306-409) *)

(** The operations of amazon.py, mint.py and currency.py that the loop
    calls.  None of these files is among the sources, so the loop is
    parameterised by them.  Methods that mutate the order in place return
    the changed order next to their result. *)
Record Api := {
  Order : Type;
  Refund : Type;
  micro_usd_nearly_equal : Z -> Z -> bool;
  Order_merge : list AmazonObj -> Order;
  website : Order -> string;
  total_charged : Order -> Z;
  num_items : Order -> nat;                              (* len(order.items) *)
  attribute_subtotal_diff_to_misc_charge : Order -> bool * Order;
  attribute_itemized_diff_to_per_item_tax : Order -> bool * Order;
  total_by_subtotals : Order -> Z;
  total_by_items : Order -> Z;
  to_mint_transactions : Order -> Transaction -> bool -> list Transaction;
  Refund_merge : list AmazonObj -> list Refund;
  refund_website : Refund -> string;
  to_mint_transaction : Refund -> Transaction -> Transaction;
  rm_leading_qty : string -> string;
  update_category_id : Transaction -> Transaction;
  summarize_new_trans :
    Transaction -> list Transaction -> string -> list Transaction;
  itemize_new_trans : list Transaction -> string -> list Transaction;
  old_and_new_are_identical :
    Transaction -> list Transaction -> bool -> bool
}.

(** Modelled from the spec: [mint.Transaction.sum_amounts] is not among the
    sources; the spec reads it as "sum(new entry amounts)". *)
Definition sum_amounts (trans : list Transaction) : Z :=
  foldr (fun t acc => amount t + acc) 0 trans.

Definition assert_ (b : bool) : result unit :=
  if b then Ok tt else Raise AssertionError.

Definition update := (Transaction * list Transaction)%type.

(** What the loop carries from one transaction to the next: the counters,
    the list [updates], and how many keys were read from the console. *)
Record Loop := {
  stats : Stats;
  updates : list update;
  cursor : nat
}.

Inductive flow :=
  | Next (s : Loop)        (* fall through or [continue] *)
  | Break (s : Loop).      (* [break] *)

Definition set_category (nt : Transaction) (c : string) : Transaction :=
  {| trans_ref := trans_ref nt; trans_id := trans_id nt; odate := odate nt;
     amount := amount nt; merchant := merchant nt; omerchant := omerchant nt;
     category := c; category_id := category_id nt; note := note nt;
     is_pending := is_pending nt; is_debit := is_debit nt |}.

Section UpdateLoop.

Variable api : Api.
Variable args : Args.
(** [readchar.readchar()]: the n-th key typed at the console. *)
Variable keys : nat -> ascii.
Variable mint_historic_category_renames : option (gmap string string).
(** The matching state left by [match_transactions]. *)
Variable st : MatchState.

(** The merged order after both fix-ups, with the flags they returned. *)
Definition fixed_up (order : Order api) : bool * bool * Order api :=
  let '(misc, order) := attribute_subtotal_diff_to_misc_charge api order in
  let '(tax, order) := attribute_itemized_diff_to_per_item_tax api order in
  (misc, tax, order).

(** The three assertions of lines 330-332. *)
Definition reconciled (t : Transaction) (order : Order api) : bool :=
  micro_usd_nearly_equal api (amount t) (total_charged api order) &&
  micro_usd_nearly_equal api (amount t) (total_by_subtotals api order) &&
  micro_usd_nearly_equal api (amount t) (total_by_items api order).

(** Lines 313-336: the debit branch.  Returns the counters, the prefix, the
    candidate entries and whether the order has exactly one item. *)
Definition build_debit (t : Transaction) (stats : Stats)
  : result (Stats * string * list Transaction * bool) :=
  let order := Order_merge api (orders_of st t) in
  let prefix :=
    match truthy (description_prefix_override args) with
    | Some p => p
    | None => (website api order ++ ": ")%string
    end in
  let '(misc, tax, order) := fixed_up order in
  let stats := count_misc_charge misc stats in
  let stats := count_adjust_itemized_tax tax stats in
  _ ← assert_ (micro_usd_nearly_equal api (amount t) (total_charged api order));
  _ ← assert_ (micro_usd_nearly_equal api (amount t)
                                      (total_by_subtotals api order));
  _ ← assert_ (micro_usd_nearly_equal api (amount t)
                                      (total_by_items api order));
  let new_transactions :=
    to_mint_transactions api order t (negb (verbose_itemize args)) in
  Ok (stats, prefix, new_transactions, Nat.eqb (num_items api order) 1).

(** Lines 339-348: the credit branch; [refunds[0]] raises IndexError on an
    empty list. *)
Definition build_credit (t : Transaction) (stats : Stats)
  : result (Stats * string * list Transaction * bool) :=
  let refunds := Refund_merge api (orders_of st t) in
  match refunds with
  | [] => Raise IndexError
  | r0 :: _ =>
      let prefix :=
        match truthy (description_return_prefix_override args) with
        | Some p => p
        | None => (refund_website api r0 ++ " refund: ")%string
        end in
      let new_transactions :=
        map (fun r => to_mint_transaction api r t) refunds in
      Ok (stats, prefix, new_transactions, false)
  end.

(** Lines 354-364, one entry. *)
Definition personalize (nt : Transaction) (stats : Stats)
  : Transaction * Stats :=
  let item_name := rm_leading_qty api (lower (merchant nt)) in
  let '(nt, stats) :=
    match mint_historic_category_renames with
    | Some renames =>
        match renames !! item_name with
        | Some suggested_cat =>
            if String.eqb suggested_cat (category nt) then (nt, stats)
            else (set_category nt suggested_cat, count_personal_cat stats)
        | None => (nt, stats)
        end
    | None => (nt, stats)
    end in
  (update_category_id api nt, stats).

Fixpoint personalize_all (nts : list Transaction) (stats : Stats)
  : list Transaction * Stats :=
  match nts with
  | [] => ([], stats)
  | nt :: rest =>
      let '(nt', stats) := personalize nt stats in
      let '(rest', stats) := personalize_all rest stats in
      (nt' :: rest', stats)
  end.

(** Lines 312-372: the candidate entries [cands] that pass the hard check of
    line 350, and the replacement entries made of them. *)
Definition propose (t : Transaction) (stats : Stats)
  : result (Stats * string * list Transaction * list Transaction) :=
  '(stats, prefix, cands, single) ←
     (if is_debit t then build_debit t stats else build_credit t stats);
  _ ← assert_ (micro_usd_nearly_equal api (amount t) (sum_amounts cands));
  let '(nts, stats) := personalize_all cands stats in
  let summarize_single_item_order :=
    is_debit t && single && negb (verbose_itemize args) in
  let new_transactions :=
    if no_itemize args || summarize_single_item_order
    then summarize_new_trans api t nts prefix
    else itemize_new_trans api nts prefix in
  Ok (stats, prefix, cands, new_transactions).

(** Line 379-381. *)
Definition previously_tagged (prefix : string) (t : Transaction) : bool :=
  let valid_prefixes :=
    split_comma (lower (amazon_domains args)) ++ [lower prefix] in
  existsb (fun pre => startswith (lower (merchant t)) pre) valid_prefixes.

Definition is_yes (action : ascii) : bool :=
  existsb (Ascii.eqb action) ["Y"; "y"; "013"; "010"]%char.

Definition cap_reached (s : Loop) : bool :=
  (num_updates args >? 0) &&
  (Z.of_nat (length (updates s)) >=? num_updates args).

Definition with_stats (f : Stats -> Stats) (s : Loop) : Loop :=
  {| stats := f (stats s); updates := updates s; cursor := cursor s |}.

Definition read_key (s : Loop) : Loop :=
  {| stats := stats s; updates := updates s; cursor := S (cursor s) |}.

Definition append_update (u : update) (s : Loop) : Loop :=
  {| stats := stats s; updates := updates s ++ [u]; cursor := cursor s |}.

(** Lines 374-404: the retag policy for one transaction. *)
Definition resolve (t : Transaction) (prefix : string)
    (new_transactions : list Transaction) (s : Loop) : result flow :=
  if old_and_new_are_identical api t new_transactions (no_tag_categories args)
  then Ok (Next (with_stats count_already_up_to_date s))
  else if previously_tagged prefix t then
    if prompt_retag args then
      if cap_reached s then Ok (Break s)
      else
        let action := keys (cursor s) in
        let s := read_key s in
        if Ascii.eqb action "003" then Exit 1
        else if negb (is_yes action)
        then Ok (Next (with_stats count_user_skipped_retag s))
        else Ok (Next (append_update (t, new_transactions)
                         (with_stats count_retag s)))
    else if negb (retag_changed args)
    then Ok (Next (with_stats count_no_retag s))
    else Ok (Next (append_update (t, new_transactions)
                     (with_stats count_retag s)))
  else Ok (Next (append_update (t, new_transactions)
                   (with_stats count_new_tag s))).

(** The body of the loop. *)
Definition process (t : Transaction) (s : Loop) : result flow :=
  '(stats', prefix, _, new_transactions) ← propose t (stats s);
  resolve t prefix new_transactions (with_stats (fun _ => stats') s).

(** The [for] loop: [Next] when every transaction was visited, [Break] when
    a [break] left the loop early. *)
Fixpoint run_loop (matched_trans : list Transaction) (s : Loop)
  : result flow :=
  match matched_trans with
  | [] => Ok (Next s)
  | t :: rest =>
      f ← process t s;
      match f with
      | Next s' => run_loop rest s'
      | Break s' => Ok (Break s')
      end
  end.

Definition after (f : flow) : Loop :=
  match f with Next s => s | Break s => s end.

Definition update_loop (matched_trans : list Transaction) (s : Loop)
  : result Loop :=
  f ← run_loop matched_trans s; Ok (after f).

(** The merged order of a debit transaction after both fix-ups. *)
Definition fixed_up_order (t : Transaction) : Order api :=
  snd (fixed_up (Order_merge api (orders_of st t))).

(** Lines 406-407. *)
Definition cap (updates : list update) : list update :=
  if num_updates args >? 0 then firstn (Z.to_nat (num_updates args)) updates
  else updates.

(** *** The policy as the specification words it: the policy is resolved
    for every matched transaction in encounter order, and the list of
    approved updates is truncated afterwards.  The verdict on a transaction
    is the update to apply, if any; the counters and the number of keys
    read are passed along. *)

Definition resolve_spec (t : Transaction) (prefix : string)
    (new_transactions : list Transaction) (stats : Stats) (cursor : nat)
  : result (option update * Stats * nat) :=
  if old_and_new_are_identical api t new_transactions (no_tag_categories args)
  then Ok (None, count_already_up_to_date stats, cursor)
  else if negb (previously_tagged prefix t)
  then Ok (Some (t, new_transactions), count_new_tag stats, cursor)
  else if prompt_retag args then
    let action := keys cursor in
    if Ascii.eqb action "003" then Exit 1
    else if is_yes action
    then Ok (Some (t, new_transactions), count_retag stats, S cursor)
    else Ok (None, count_user_skipped_retag stats, S cursor)
  else if retag_changed args
  then Ok (Some (t, new_transactions), count_retag stats, cursor)
  else Ok (None, count_no_retag stats, cursor).

Definition approved_by (verdict : option update) (later : list update)
  : list update :=
  match verdict with
  | Some u => u :: later
  | None => later
  end.

Fixpoint resolve_all_spec (matched_trans : list Transaction) (stats : Stats)
    (cursor : nat) : result (list update * Stats * nat) :=
  match matched_trans with
  | [] => Ok ([], stats, cursor)
  | t :: rest =>
      '(stats, prefix, _, new_transactions) ← propose t stats;
      '(verdict, stats, cursor) ←
         resolve_spec t prefix new_transactions stats cursor;
      '(later, stats, cursor) ← resolve_all_spec rest stats cursor;
      Ok (approved_by verdict later, stats, cursor)
  end.

(** The prefix of the debit branch. *)
Definition debit_prefix (t : Transaction) : string :=
  match truthy (description_prefix_override args) with
  | Some p => p
  | None => (website api (Order_merge api (orders_of st t)) ++ ": ")%string
  end.

(** Lines 350-372, once the branch has built the candidates. *)
Definition finish (t : Transaction) (stats : Stats) (prefix : string)
    (cands : list Transaction) (single : bool)
  : result (Stats * string * list Transaction * list Transaction) :=
  if micro_usd_nearly_equal api (amount t) (sum_amounts cands) then
    let p := personalize_all cands stats in
    Ok (snd p, prefix, cands,
        if no_itemize args
           || (is_debit t && single && negb (verbose_itemize args))
        then summarize_new_trans api t (fst p) prefix
        else itemize_new_trans api (fst p) prefix)
  else Raise AssertionError.

(** Lines 350-404 for one transaction, once its branch has built the
    candidate entries: the hard check, the replacement entries, the
    policy. *)
Definition check_and_resolve (t : Transaction) (prefix : string)
    (cands : list Transaction) (single : bool) (s : Loop) : result flow :=
  '(stats', prefix, _, new_transactions) ←
     finish t (stats s) prefix cands single;
  resolve t prefix new_transactions (with_stats (fun _ => stats') s).

(** The proposal for a transaction without the counters. *)
Definition forget (r : result (Stats * string * list Transaction
                               * list Transaction))
  : result (string * list Transaction * list Transaction) :=
  '(_, prefix, cands, new_transactions) ← r;
  Ok (prefix, cands, new_transactions).

(** A transaction whose current state equals what the loop proposes for
    it: the proposal is built and [old_and_new_are_identical] accepts it. *)
Definition up_to_date (t : Transaction) : Prop :=
  ∃ prefix cands new_transactions,
    forget (propose t stats0) = Ok (prefix, cands, new_transactions) ∧
    old_and_new_are_identical api t new_transactions (no_tag_categories args)
    = true.

End UpdateLoop.


(** ** get_mint_updates, from line 254 on

    The function from the filters on the transactions to its end, given the
    orders that kept an item at line 251 and the transactions unsplit at
    line 253, none of them matched yet.  The lines before, which work with
    the missing modules, are modelled in [get_mint_updates_from_items]
    below. *)
Definition get_mint_updates (api : Api) (args : Args) (keys : nat -> ascii)
    (mint_historic_category_renames : option (gmap string string))
    (orders refunds : list AmazonObj) (trans : list Transaction)
    (stats_in : Stats) : result (list update * list AmazonObj * Stats) :=
  let trans := filter_trans args trans in
  st ← match_all trans orders refunds fresh_state;
  let unmatched_orders := still_unmatched_orders st orders in
  let unmatched_refunds := still_unmatched_orders st refunds in
  let matched_trans := List.filter (has_orders st) trans in
  s ← update_loop api args keys mint_historic_category_renames st
        matched_trans {| stats := stats_in; updates := []; cursor := 0 |};
  Ok (cap args (updates s), unmatched_orders ++ unmatched_refunds, stats s).

(** ** send_updates_to_mint (lines 685-784): the requests posted

    [currency.micro_usd_to_usd_float] and the ledger client are not among
    the sources: the conversion and the type of the floats it returns are
    parameters, and so is what the service answers.  Of the answers only the
    'txnId' list of the answer to a split request is read (line 759); the
    texts of the others are logged.  A transaction identifier stands for
    the string made of it by ['{}:0'.format].  The progress bar and the log
    line with the duration that ends the function are left out. *)

Section SendUpdates.

Variable usd_float : Type.
Variable micro_usd_to_usd_float : Z -> usd_float.

(** The fields of a split request that belong to its i-th entry. *)
Record SplitChild := {
  child_amount : usd_float;                    (* 'amount{i}' *)
  child_percent_amount : usd_float;            (* 'percentAmount{i}' *)
  child_merchant : string;                     (* 'merchant{i}' *)
  child_txnId : Z;                             (* 'txnId{i}' *)
  child_category : option (string * Z)  (* 'category{i}', 'categoryId{i}' *)
}.

Inductive request :=
  | Modify (txnId : Z) (note_ merchant_ token_ : string)
           (category_ : option (string * Z))          (* [modify_trans] *)
  | Split (txnId : Z) (token_ : string)
          (children : list SplitChild)                (* [itemized_split] *)
  | Note (txnId : Z) (note_ token_ : string).         (* [itemized_note] *)

(** [mint_client]: its token and, for a request posted after the requests
    [posted], the 'txnId' list of the JSON answer. *)
Record MintClient := {
  token : string;
  response_txnId : list request -> request -> list Z
}.

(** Lines 732-736: the amount of a child in micro-USD, before it is
    converted. *)
Definition split_amount (orig_trans trans : Transaction) : Z :=
  let amount := amount trans in
  if negb (is_debit orig_trans) then amount * -1 else amount.

Definition category_fields (ignore_category : bool) (trans : Transaction)
  : option (string * Z) :=
  if negb ignore_category then Some (category trans, category_id trans)
  else None.

(** Lines 696-708. *)
Definition modify_request (mint_client : MintClient) (ignore_category : bool)
    (trans : Transaction) : request :=
  Modify (trans_id trans) (note trans) (merchant trans) (token mint_client)
         (category_fields ignore_category trans).

(** Lines 732-747, one entry. *)
Definition split_child (ignore_category : bool) (orig_trans trans : Transaction)
  : SplitChild :=
  let amount := micro_usd_to_usd_float (split_amount orig_trans trans) in
  {| child_amount := amount;
     child_percent_amount := amount;
     child_merchant := merchant trans;
     child_txnId := 0;
     child_category := category_fields ignore_category trans |}.

(** Lines 725-747. *)
Definition split_request (mint_client : MintClient) (ignore_category : bool)
    (orig_trans : Transaction) (new_trans : list Transaction) : request :=
  Split (trans_id orig_trans) (token mint_client)
        (map (split_child ignore_category orig_trans) new_trans).

(** Lines 763-768. *)
Definition note_request (mint_client : MintClient) (itemized_id : Z)
    (trans : Transaction) : request :=
  Note itemized_id (note trans) (token mint_client).

(** The body of the loop, lines 693-779: the requests posted so far, with
    those posted for this update added at the end. *)
Definition send_update (mint_client : MintClient) (ignore_category : bool)
    (u : update) (posted : list request) : result (list request) :=
  let '(orig_trans, new_trans) := u in
  match new_trans with
  | [trans] =>
      Ok (posted ++ [modify_request mint_client ignore_category trans])
  | _ =>
      let itemized_split :=
        split_request mint_client ignore_category orig_trans new_trans in
      let new_trans_ids :=
        tail (response_txnId mint_client posted itemized_split) in
      _ ← assert_ (Nat.eqb (length new_trans_ids) (length new_trans));
      Ok (posted ++ itemized_split
            :: zip_with (note_request mint_client) new_trans_ids new_trans)
  end.

Fixpoint send_loop (mint_client : MintClient) (ignore_category : bool)
    (updates : list update) (posted : list request) (num_requests : Z)
  : result (list request * Z) :=
  match updates with
  | [] => Ok (posted, num_requests)
  | u :: rest =>
      posted ← send_update mint_client ignore_category u posted;
      send_loop mint_client ignore_category rest posted (num_requests + 1)
  end.

(** The requests posted, in order, and [num_requests] as it is logged. *)
Definition send_updates_to_mint (updates : list update)
    (mint_client : MintClient) (ignore_category : bool)
  : result (list request * Z) :=
  send_loop mint_client ignore_category updates [] 0.

End SendUpdates.

Arguments child_amount {usd_float} _.
Arguments child_percent_amount {usd_float} _.
Arguments child_merchant {usd_float} _.
Arguments child_txnId {usd_float} _.
Arguments child_category {usd_float} _.
Arguments Modify {usd_float} _ _ _ _ _.
Arguments Split {usd_float} _ _ _.
Arguments Note {usd_float} _ _ _.
Arguments token {usd_float} _.
Arguments response_txnId {usd_float} _ _ _.
Arguments modify_request {usd_float} _ _ _.
Arguments split_child {usd_float} _ _ _ _.
Arguments split_request {usd_float} _ _ _ _ _.
Arguments note_request {usd_float} _ _ _.
Arguments send_update {usd_float} _ _ _ _ _.
Arguments send_loop {usd_float} _ _ _ _ _ _.
Arguments send_updates_to_mint {usd_float} _ _ _ _.

(** ** A stand-in for the missing modules, to run the loop on data *)

Definition with_merchant_amount (t : Transaction) (m : string) (a : Z)
  : Transaction :=
  {| trans_ref := trans_ref t; trans_id := trans_id t; odate := odate t;
     amount := a; merchant := m; omerchant := omerchant t;
     category := category t; category_id := category_id t; note := note t;
     is_pending := is_pending t; is_debit := is_debit t |}.

(** Modelled from the spec: [currency.micro_usd_nearly_equal] is not among
    the sources; the spec has two Money values "nearly equal" under a small
    fixed epsilon. *)
Definition nearly_equal_within (eps a b : Z) : bool := Z.abs (a - b) <? eps.

Definition item_entries (noise : Z) (t : Transaction) (g : list AmazonObj)
  : list Transaction :=
  match g with
  | [] => []
  | o :: rest =>
      with_merchant_amount t (order_id o) (transact_amount o + noise)
      :: map (fun o => with_merchant_amount t (order_id o) (transact_amount o))
             rest
  end.

Definition same_entry (ignore_category : bool) (old new : Transaction) : bool :=
  String.eqb (merchant old) (merchant new) && (amount old =? amount new)
  && (ignore_category || String.eqb (category old) (category new)).

(** Modelled from the spec: the operations of amazon.py, mint.py and
    currency.py, in the simplest form the spec allows, for [noise] = 0.  An
    order has one item per shipment, titled by the order identifier; a
    summarized entry is the original with the prefixed titles as
    description; itemized entries get the prefix and are reversed; old and
    new are identical when the single proposed entry has the description,
    amount and (unless ignored) category of the original.  A [noise] other
    than 0 departs from the spec on purpose: it stands for order data whose
    item totals stay [noise] micro-USD off the charged total, which neither
    fix-up repairs, the case the assertions of lines 330-352 are there
    for. *)
Definition sample_api (eps noise : Z) : Api :=
  {| Order := list AmazonObj;
     Refund := AmazonObj;
     micro_usd_nearly_equal := nearly_equal_within eps;
     Order_merge := fun g => g;
     website := fun _ => "Amazon.com"%string;
     total_charged := sum_transact_amounts;
     num_items := fun g => length g;
     attribute_subtotal_diff_to_misc_charge := fun o => (false, o);
     attribute_itemized_diff_to_per_item_tax := fun o => (false, o);
     total_by_subtotals := sum_transact_amounts;
     total_by_items := fun g => sum_transact_amounts g + noise;
     to_mint_transactions := fun g t _ => item_entries noise t g;
     Refund_merge := fun g => g;
     refund_website := fun _ => "Amazon.com"%string;
     to_mint_transaction :=
       fun r t => with_merchant_amount t (order_id r) (transact_amount r);
     rm_leading_qty := fun s => s;
     update_category_id := fun nt => nt;
     summarize_new_trans :=
       fun t nts prefix =>
         [with_merchant_amount t
            (prefix ++ String.concat ", " (map merchant nts))%string
            (amount t)];
     itemize_new_trans :=
       fun nts prefix =>
         rev (map (fun nt => with_merchant_amount nt
                               (prefix ++ merchant nt)%string (amount nt))
                  nts);
     old_and_new_are_identical :=
       fun t new ignore_category =>
         match new with
         | [n] => same_entry ignore_category t n
         | _ => false
         end |}.

Definition sample_args (prompt retag : bool) (n : Z) : Args :=
  {| mint_input_merchant_filter := "amazon,amzn";
     mint_input_categories_filter := None;
     description_prefix_override := None;
     description_return_prefix_override := None;
     amazon_domains := "amazon.com,amazon.co.uk";
     verbose_itemize := false;
     no_itemize := false;
     no_tag_categories := false;
     prompt_retag := prompt;
     retag_changed := retag;
     num_updates := n |}.

(** The sample arguments with a category filter. *)
Definition sample_args_shopping : Args :=
  {| mint_input_merchant_filter := "amazon,amzn";
     mint_input_categories_filter := Some "shopping"%string;
     description_prefix_override := None;
     description_return_prefix_override := None;
     amazon_domains := "amazon.com,amazon.co.uk";
     verbose_itemize := false;
     no_itemize := false;
     no_tag_categories := false;
     prompt_retag := false;
     retag_changed := false;
     num_updates := 0 |}.

(** The second sample transaction as a later run finds it once this system
    has rewritten its description and moved it to another category. *)
Definition sample_t2_electronics : Transaction :=
  retagged sample_t2 "Amazon.com: 222-2" "Electronics" 14 "".

(** The first sample transaction as a later run finds it, tagged. *)
Definition sample_t1_tagged : Transaction :=
  retagged sample_t1 "Amazon.com: 111-1" "Shopping" 2 "".

(** The same with a description this system wrote earlier that no longer
    matches the proposal. *)
Definition sample_t1_stale : Transaction :=
  retagged sample_t1 "Amazon.com: an older title" "Shopping" 2 "".

Definition sample_keys (c : ascii) : nat -> ascii := fun _ => c.

(** What the loop proposes for the second sample transaction when the item
    totals carry 5 micro-USD of noise: two itemized entries. *)
Definition sample_t2_entries : list Transaction :=
  [with_merchant_amount sample_t2 "Amazon.com: 222-2" 27000000;
   with_merchant_amount sample_t2 "Amazon.com: 222-2" 15000005].


Definition sample_t1_entry : list Transaction :=
  [with_merchant_amount sample_t1_stale "Amazon.com: 111-1" 42000000].

Definition loop0 : Loop := {| stats := stats0; updates := []; cursor := 0 |}.

(** The matching state of a run over the three samples, the first one
    already tagged. *)
Definition sample_rerun_trans : list Transaction :=
  [sample_t2; sample_t1_stale; sample_t3].

Definition sample_rerun_matched : MatchState :=
  match match_all (filter_trans (sample_args true false 1) sample_rerun_trans)
          sample_orders sample_refunds fresh_state with
  | Ok st => st
  | _ => fresh_state
  end.

(** The policy resolved for all three, every prompt answered "y". *)
Definition sample_resolved : list update :=
  match resolve_all_spec (sample_api 10 0) (sample_args true false 1)
          (sample_keys "y") None sample_rerun_matched
          (List.filter (has_orders sample_rerun_matched)
             (filter_trans (sample_args true false 1) sample_rerun_trans))
          stats0 0 with
  | Ok (approved, _, _) => approved
  | _ => []
  end.

(** A ledger client for the samples.  The float of an amount is stood for
    by the amount itself, read as that many millionths of a dollar; the
    service answers a split request with the identifier of the parent
    followed by fresh identifiers, one per child. *)
Inductive sample_float := millionths (micro_usd : Z).

Definition sample_client : MintClient sample_float :=
  {| token := "token";
     response_txnId :=
       fun posted r =>
         match r with
         | Split txnId _ children =>
             txnId :: map (fun i => 5000 + Z.of_nat (length posted + i))
                          (seq 0 (length children))
         | _ => []
         end |}.

(** A service whose answer to a split request names the parent only. *)
Definition sample_client_short : MintClient sample_float :=
  {| token := "token";
     response_txnId := fun _ r => match r with
                                  | Split txnId _ _ => [txnId]
                                  | _ => []
                                  end |}.

(** * Further definitions *)

(** ** Invariants of the matching state used below *)

(** Every flagged object belongs to the group of some transaction of [ts],
    and only transactions of [ts] have groups. *)
Record linked (ts : list Transaction) (st : MatchState) : Prop := {
  linked_flag :
    ∀ r, r ∈ matched_refs st →
         ∃ ref g o, trans_orders st !! ref = Some g ∧ o ∈ g ∧ obj_ref o = r;
  linked_dom :
    ∀ ref g, trans_orders st !! ref = Some g → g ≠ [] →
             ∃ t, t ∈ ts ∧ trans_ref t = ref
}.

(** Every group recorded in the state satisfies [P]. *)
Definition groups_satisfy (P : list AmazonObj -> Prop) (st : MatchState)
  : Prop :=
  ∀ ref g, trans_orders st !! ref = Some g → g ≠ [] → P g.

(** A group as one call of match_transactions over [os] can form it: its
    members are among [os] and share one order identifier. *)
Definition group_of (os : list AmazonObj) (g : list AmazonObj) : Prop :=
  (∀ o, o ∈ g → o ∈ os) ∧
  (∀ o1 o2, o1 ∈ g → o2 ∈ g → order_id o1 = order_id o2).

(** ** More sample data *)

(** An order of the right amount shipped 16 days before the first sample
    transaction, and one that never shipped. *)
Definition sample_o_far : AmazonObj :=
  {| obj_ref := 14; order_id := "555-5"; transact_amount := 42000000;
     transact_date := Some 20 |}.
Definition sample_o_unshipped : AmazonObj :=
  {| obj_ref := 15; order_id := "666-6"; transact_amount := 42000000;
     transact_date := None |}.

(** ** The head of get_mint_updates (lines 232-253)

    [amazon.Item] with its methods, [amazon.associate_items_with_orders]
    and [mint.Transaction.unsplit] are not among the sources; they are
    parameters.  The association sets [o.items] on the orders it is given:
    here it yields the items of each order, and the amount and the date the
    matcher reads are those of the order as given. *)

Section Intake.

Variable Item : Type.
Variable is_cancelled : Item -> bool.
Variable order_status : Item -> string.
Variable quantity : Item -> Z.
Variable split_by_quantity : Item -> list Item.
Variable associate_items_with_orders :
  list AmazonObj -> list Item -> AmazonObj -> list Item.
Variable unsplit : list Transaction -> list Transaction.

(** Lines 233-242. *)
Definition items_to_associate (items : list Item) : list Item :=
  let items := List.filter (fun i => negb (is_cancelled i)) items in
  let items :=
    List.filter (fun i => String.eqb (order_status i) "Shipped") items in
  let items := List.filter (fun i => quantity i >? 0) items in
  flat_map split_by_quantity items.

(** [o.items] after line 247. *)
Definition items_of (orders : list AmazonObj) (items : list Item)
    (o : AmazonObj) : list Item :=
  associate_items_with_orders orders (items_to_associate items) o.

(** Line 251: an empty list is false. *)
Definition orders_with_items (orders : list AmazonObj) (items : list Item)
  : list AmazonObj :=
  List.filter (fun o => match items_of orders items o with
                        | [] => false
                        | _ => true
                        end) orders.

(** get_mint_updates from its first line. *)
Definition get_mint_updates_from_items (api : Api) (args : Args)
    (keys : nat -> ascii)
    (mint_historic_category_renames : option (gmap string string))
    (orders : list AmazonObj) (items : list Item) (refunds : list AmazonObj)
    (trans : list Transaction) (stats_in : Stats)
  : result (list update * list AmazonObj * Stats) :=
  get_mint_updates api args keys mint_historic_category_renames
    (orders_with_items orders items) refunds (unsplit trans) stats_in.

End Intake.

(** Items for the samples: an item is the identifier of its order, every
    item is shipped with quantity 1, and an order gets the items that bear
    its identifier. *)
Definition sample_associate (orders : list AmazonObj) (items : list string)
    (o : AmazonObj) : list string :=
  List.filter (String.eqb (order_id o)) items.

Definition sample_get_mint_updates (orders : list AmazonObj)
    (items : list string) (trans : list Transaction)
  : result (list update * list AmazonObj * Stats) :=
  get_mint_updates_from_items string (fun _ => false) (fun _ => "Shipped"%string)
    (fun _ => 1) (fun i => [i]) sample_associate (fun trans => trans)
    (sample_api 10 0) (sample_args false false 0) (sample_keys "x") None
    orders items [] trans stats0.

(** ** Counters of the update loop *)

(** The transactions the loop has settled, by the five outcome counters. *)
Definition outcomes (s : Stats) : Z :=
  already_up_to_date s + new_tag s + no_retag s + retag s
  + user_skipped_retag s.

(** The transactions the loop has decided to update. *)
Definition applied (s : Stats) : Z := new_tag s + retag s.

(** Two counter records with the same five outcome counters. *)
Definition same_outcomes (s s' : Stats) : Prop :=
  already_up_to_date s' = already_up_to_date s ∧ new_tag s' = new_tag s ∧
  no_retag s' = no_retag s ∧ retag s' = retag s ∧
  user_skipped_retag s' = user_skipped_retag s.

(** ** Requests of send_updates_to_mint, read back *)

(** The category fields a request carries: one for an edit of a whole
    transaction, one per child for a split, none for the edit that sets the
    note of a child. *)
Definition request_categories {usd_float : Type} (r : request usd_float)
  : list (option (string * Z)) :=
  match r with
  | Modify _ _ _ _ c => [c]
  | Split _ _ children => map child_category children
  | Note _ _ _ => []
  end.

(** The amounts a request carries, and the percent amounts: only a split
    has any. *)
Definition request_amounts {usd_float : Type} (r : request usd_float)
  : list usd_float :=
  match r with
  | Split _ _ children => map child_amount children
  | _ => []
  end.

Definition request_percent_amounts {usd_float : Type} (r : request usd_float)
  : list usd_float :=
  match r with
  | Split _ _ children => map child_percent_amount children
  | _ => []
  end.

Definition is_note {usd_float : Type} (r : request usd_float) : bool :=
  match r with
  | Note _ _ _ => true
  | _ => false
  end.

(** How many requests the loop posts for an update: the edit, or the split
    and one note per entry. *)
Definition posts_for (u : update) : nat :=
  match snd u with
  | [_] => 1
  | new_trans => S (length new_trans)
  end.

Definition sum_Z (l : list Z) : Z := foldr Z.add 0 l.

(** Two updates of the samples, a split into two entries and an edit, and
    the requests posted for them. *)
Definition sample_updates : list update :=
  [(sample_t2, [with_merchant_amount sample_t2 "Amazon.com: 222-2" 27000000;
                with_merchant_amount sample_t2 "Amazon.com: 222-2" 15000000]);
   (sample_t1_stale, sample_t1_entry)].

Definition sample_posted : list (request sample_float) :=
  match send_updates_to_mint millionths sample_updates sample_client false with
  | Ok (posted, _) => posted
  | _ => []
  end.

(** A transaction with an empty description. *)
Definition blank_trans : Transaction :=
  {| trans_ref := 0; trans_id := 0; odate := 0; amount := 0;
     merchant := ""; omerchant := ""; category := ""; category_id := 0;
     note := ""; is_pending := false; is_debit := true |}.

(** ** get_mint_category_history_for_items (lines 178-223) *)

(** [s[n:]]. *)
Fixpoint skip (n : nat) (s : string) : string :=
  match n, s with
  | O, _ => s
  | S n', String _ rest => skip n' rest
  | S _, EmptyString => EmptyString
  end.

(** Lines 191-194: the prefixes that mark a tagged description, each domain
    followed by ": ", and the lower-cased override when one is given. *)
Definition tagged_prefixes (args : Args) : list string :=
  map (fun pre => (pre ++ ": ")%string)
      (split_comma (lower (amazon_domains args)))
  ++ match truthy (description_prefix_override args) with
     | Some p => [lower p]
     | None => []
     end.

(** Lines 210-215: the loop over the prefixes; the first prefix the
    lower-cased description starts with is cut off, and a leading quantity
    removed.  When none matches, the loop ends with the lower-cased
    description itself. *)
Fixpoint item_name_for (rm_leading_qty : string -> string)
    (prefixes : list string) (m : string) : string :=
  match prefixes with
  | [] => m
  | pre :: rest =>
      if startswith m pre then rm_leading_qty (skip (String.length pre) m)
      else item_name_for rm_leading_qty rest m
  end.

(** A [Counter]: keys in insertion order with their counts;
    [counter[k] += 1]. *)
Fixpoint counter_incr (c : list (string * Z)) (k : string)
  : list (string * Z) :=
  match c with
  | [] => [(k, 1)]
  | (k', n) :: rest =>
      if String.eqb k' k then (k', n + 1) :: rest
      else (k', n) :: counter_incr rest k
  end.

(** [item_to_cats[item_name][category] += 1] on the
    [defaultdict(Counter)]. *)
Fixpoint tally_item (d : list (string * list (string * Z)))
    (item_name cat : string) : list (string * list (string * Z)) :=
  match d with
  | [] => [(item_name, counter_incr [] cat)]
  | (i, c) :: rest =>
      if String.eqb i item_name then (i, counter_incr c cat) :: rest
      else (i, c) :: tally_item rest item_name cat
  end.

(** [counter.most_common()[0][0]]: most_common sorts by count, largest
    first, and the sort is stable, so the first entry is the earliest
    inserted key among those with the largest count. *)
Fixpoint best_of (c : list (string * Z)) (cur : string * Z) : string * Z :=
  match c with
  | [] => cur
  | (k, n) :: rest =>
      if n >? snd cur then best_of rest (k, n) else best_of rest cur
  end.

Definition most_common_first (c : list (string * Z)) : option string :=
  match c with
  | [] => None                    (* [0] would raise IndexError *)
  | kv :: rest => Some (fst (best_of rest kv))
  end.

Section CategoryHistory.

(** [category.DEFAULT_MINT_CATEGORY], membership in
    [mint.NON_ITEM_MERCHANTS] and [amazon.rm_leading_qty]: constants and a
    helper of the modules that are not among the sources. *)
Variable DEFAULT_MINT_CATEGORY : string.
Variable non_item_merchant : string -> bool.
Variable rm_leading_qty : string -> string.
Variable args : Args.

(** Lines 186-205: the transactions that count. *)
Definition history_trans (trans : list Transaction) : list Transaction :=
  let trans := List.filter (fun t => negb (is_pending t)) trans in
  let trans := List.filter is_debit trans in
  let trans :=
    List.filter
      (fun t => existsb (fun pre => startswith (lower (merchant t)) pre)
                        (tagged_prefixes args)) trans in
  let trans :=
    List.filter
      (fun t => negb (String.eqb (category t) DEFAULT_MINT_CATEGORY)) trans in
  List.filter (fun t => negb (non_item_merchant (merchant t))) trans.

Definition item_name (t : Transaction) : string :=
  item_name_for rm_leading_qty (tagged_prefixes args) (lower (merchant t)).

(** Lines 207-217. *)
Definition tally_all (l : list Transaction)
  : list (string * list (string * Z)) :=
  fold_left (fun d t => tally_item d (item_name t) (category t)) l [].

Definition item_to_cats (trans : list Transaction)
  : list (string * list (string * Z)) :=
  tally_all (history_trans trans).

Definition record_most_common (m : gmap string string)
    (e : string * list (string * Z)) : gmap string string :=
  match most_common_first (snd e) with
  | Some cat => <[fst e := cat]> m
  | None => m
  end.

(** [do_not_predict_categories] is an option of the command line. *)
Definition get_mint_category_history_for_items
    (do_not_predict_categories : bool) (trans : list Transaction)
  : option (gmap string string) :=
  if do_not_predict_categories then None
  else Some (fold_left record_most_common (item_to_cats trans) ∅).

(** How many of the transactions that count have this item name and this
    category. *)
Definition votes (trans : list Transaction) (item cat : string) : Z :=
  Z.of_nat (length (List.filter
                      (fun t => String.eqb (item_name t) item
                                && String.eqb (category t) cat)
                      (history_trans trans))).

End CategoryHistory.

(** Reading a counter and the dict of counters; a missing key reads as 0,
    and as the empty counter. *)
Definition counter_get (c : list (string * Z)) (k : string) : Z :=
  match List.find (fun kv => String.eqb (fst kv) k) c with
  | Some kv => snd kv
  | None => 0
  end.

Definition cats_find (d : list (string * list (string * Z))) (i : string)
  : option (list (string * Z)) :=
  match List.find (fun e => String.eqb (fst e) i) d with
  | Some e => Some (snd e)
  | None => None
  end.

Definition cats_get (d : list (string * list (string * Z))) (i : string)
  : list (string * Z) :=
  default [] (cats_find d i).

(** ** s_to_time (lines 787-792) *)

(** [datetime.time(hour, minute, second)], which raises ValueError (here
    [None]) unless 0 <= hour < 24, 0 <= minute < 60 and 0 <= second < 60. *)
Definition datetime_time (hour minute second : Z) : option (Z * Z * Z) :=
  if (0 <=? hour) && (hour <? 24) && (0 <=? minute) && (minute <? 60)
     && (0 <=? second) && (second <? 60)
  then Some (hour, minute, second) else None.

(** From [s = int(s)] on.  [s % 60] and [s // 60] are floor operations;
    [int(s / 60)] divides as floats and truncates toward zero, which is the
    integer quotient truncated toward zero for every integer of magnitude
    below 2^45 (a double then tells s / 60 from the next integer). *)
Definition s_to_time (s : Z) : option (Z * Z * Z) :=
  let dur_s := s mod 60 in
  let dur_m := (Z.quot s 60) mod 60 in
  let dur_h := s / 60 / 60 in
  datetime_time dur_h dur_m dur_s.

(** A counter as the loop builds it: it has a key, and every count is
    positive. *)
Definition counted (c : list (string * Z)) : Prop :=
  c ≠ [] ∧ ∀ k n, (k, n) ∈ c → 0 < n.
(** * Properties *)

(** ** Candidate selection *)

Lemma next_with_date_nonempty g p : next_with_date g = Some p → g ≠ [].
Proof. destruct g; [discriminate | done]. Qed.

Lemma next_with_date_elem g o d :
  next_with_date g = Some (o, d) → o ∈ g ∧ transact_date o = Some d.
Proof.
  induction g as [|x g IH]; simpl; [discriminate|].
  destruct (transact_date x) eqn:E.
  - intros [= <- <-]. split; [left | done].
  - intros H. destruct (IH H). split; [by right | done].
Qed.

Lemma next_with_date_none g :
  next_with_date g = None ↔ Forall (λ o, transact_date o = None) g.
Proof.
  induction g as [|x g IH]; simpl.
  - split; [constructor | done].
  - destruct (transact_date x) eqn:E.
    + split; [discriminate|]. intros H. inversion H; congruence.
    + rewrite IH. split; [by constructor | by inversion 1].
Qed.

Lemma consider_ok t st b g b' :
  consider t st b g = Ok b' →
  ∃ n, day_gap t g = Some n ∧
       b' = if (n <? 4) && (n <? snd b) && negb (already_matched st g)
            then (Some g, n) else b.
Proof.
  unfold consider, day_gap, obj_truthy.
  destruct (next_with_date g) as [[o d]|]; [|done]. cbn [negb].
  intros H. eexists; split; [done|].
  destruct (_ && _); congruence.
Qed.

Lemma scan_inv_step t st pre b g b' :
  scan_inv t st pre b → snd b ≤ 365 →
  consider t st b g = Ok b' →
  scan_inv t st (pre ++ [g]) b' ∧ snd b' ≤ 365.
Proof.
  intros Hinv Hle (n & Hn & ->)%consider_ok.
  assert (Hg : eligible t st g = (n <? 4) && negb (already_matched st g))
    by (unfold eligible; by rewrite Hn).
  assert (Hgf : gap_or_far t g = n) by (unfold gap_or_far; by rewrite Hn).
  destruct (n <? 4) eqn:E4; simpl in *.
  2:{ split; [|done]. unfold scan_inv in *. destruct (fst b) as [g0|].
      - destruct Hinv as (i & Hi & He & Hd & Hmin). exists i.
        split; [by apply lookup_app_l_Some|]. do 2 (split; [done|]).
        intros j g' Hj He'. apply lookup_app_Some in Hj as [Hj|[_ Hj]].
        + eauto.
        + apply list_lookup_singleton_Some in Hj as [_ <-]. congruence.
      - destruct Hinv as [H365 Hno]. split; [done|].
        intros g' [?|Hx%list_elem_of_singleton]%elem_of_app; subst; eauto. }
  apply Z.ltb_lt in E4.
  destruct (n <? snd b) eqn:Eb; simpl in *.
  2:{ apply Z.ltb_ge in Eb. split; [|done]. unfold scan_inv in *.
      destruct (fst b) as [g0|].
      - destruct Hinv as (i & Hi & He & Hd & Hmin). exists i.
        split; [by apply lookup_app_l_Some|]. do 2 (split; [done|]).
        intros j g' Hj He'. apply lookup_app_Some in Hj as [Hj|[Hlen Hj]].
        + eauto.
        + apply list_lookup_singleton_Some in Hj as [_ <-].
          rewrite Hgf. split; [done|]. intros _.
          apply lookup_lt_Some in Hi. lia.
      - destruct Hinv as [H365 _]. lia. }
  apply Z.ltb_lt in Eb.
  destruct (already_matched st g) eqn:Em; simpl in *.
  { split; [|done]. unfold scan_inv in *. destruct (fst b) as [g0|].
    - destruct Hinv as (i & Hi & He & Hd & Hmin). exists i.
      split; [by apply lookup_app_l_Some|]. do 2 (split; [done|]).
      intros j g' Hj He'. apply lookup_app_Some in Hj as [Hj|[_ Hj]].
      + eauto.
      + apply list_lookup_singleton_Some in Hj as [_ <-]. congruence.
    - destruct Hinv as [H365 Hno]. split; [done|].
      intros g' [?|Hx%list_elem_of_singleton]%elem_of_app; subst; eauto. }
  split; [|simpl; lia]. unfold scan_inv; simpl.
  exists (length pre). split.
  { rewrite lookup_app_r by lia. by rewrite Nat.sub_diag. }
  do 2 (split; [done|]).
  intros j g' Hj He'. apply lookup_app_Some in Hj as [Hj|[Hlen Hj]].
  - apply lookup_lt_Some in Hj as Hlt. unfold scan_inv in Hinv.
    destruct (fst b) as [g0|].
    + destruct Hinv as (i & Hi & He & Hd & Hmin).
      destruct (Hmin _ _ Hj He'). lia.
    + destruct Hinv as [_ Hno].
      rewrite Hno in He'; [done|]. by eapply list_elem_of_lookup_2.
  - apply list_lookup_singleton_Some in Hj as [? <-]. rewrite Hgf. lia.
Qed.

Lemma scan_inv_run t st groups : ∀ pre b b',
  scan_inv t st pre b → snd b ≤ 365 →
  scan t st b groups = Ok b' →
  scan_inv t st (pre ++ groups) b'.
Proof.
  induction groups as [|g groups IH]; intros pre b b' Hinv Hle; simpl.
  - intros [= <-]. by rewrite app_nil_r.
  - destruct (consider t st b g) as [b1| |] eqn:E; simpl; try done.
    intros Hs. destruct (scan_inv_step _ _ _ _ _ _ Hinv Hle E) as [H1 H2].
    specialize (IH _ _ _ H1 H2 Hs). by rewrite <- app_assoc in IH.
Qed.

Lemma scan_inv_start t st : scan_inv t st [] best0.
Proof. split; [done|]. intros g Hg. by apply elem_of_nil in Hg. Qed.

Lemma chosen_of_inv t st groups b :
  scan_inv t st groups b → chosen b = fst b.
Proof.
  unfold scan_inv, chosen. destruct (fst b) as [[|o os]|]; try done.
  intros (i & _ & He & _). unfold eligible, day_gap in He. simpl in He. done.
Qed.

(** Which groups make the scan raise. *)
Lemma scan_raises t st groups : ∀ b,
  Exists (Forall (λ o, transact_date o = None)) groups →
  scan t st b groups = Raise StopIteration.
Proof.
  induction groups as [|g groups IH]; intros b H; [by inversion H|].
  simpl. unfold consider at 1.
  destruct (next_with_date g) as [[o d]|] eqn:E.
  - inversion H as [? ? Hg|? ? Hrest]; subst.
    + apply next_with_date_none in Hg. congruence.
    + destruct (_ && _); simpl; by apply IH.
  - done.
Qed.

Lemma scan_returns t st groups : ∀ b,
  Forall (λ g, is_Some (next_with_date g)) groups →
  ∃ b', scan t st b groups = Ok b'.
Proof.
  induction groups as [|g groups IH]; intros b H; [by eexists|].
  inversion H as [|? ? [[o d] Hg] Hrest]; subst. simpl. unfold consider at 1.
  rewrite Hg. destruct (_ && _); simpl; by apply IH.
Qed.

Lemma scan_never_exits t st groups : ∀ b c, scan t st b groups ≠ Exit c.
Proof.
  induction groups as [|g groups IH]; intros b c; [done|]. simpl.
  unfold consider at 1. destruct (next_with_date g) as [[o d]|]; [|done].
  destruct (_ && _); simpl; apply IH.
Qed.

Lemma scan_raise_only_stop t st groups : ∀ b e,
  scan t st b groups = Raise e →
  e = StopIteration ∧ Exists (Forall (λ o, transact_date o = None)) groups.
Proof.
  induction groups as [|g groups IH]; intros b e; [done|]. simpl.
  unfold consider at 1. destruct (next_with_date g) as [[o d]|] eqn:E.
  - destruct (_ && _); simpl; intros H; destruct (IH _ _ H); split; auto.
  - simpl. intros [= <-]. split; [done|]. left. by apply next_with_date_none.
Qed.

Lemma mark_best_unfold t groups st :
  mark_best_as_matched t groups st =
  b ← scan t st best0 groups;
  match chosen b with
  | Some g => Ok (apply_match t g st)
  | None => Ok st
  end.
Proof. by destruct groups. Qed.

(** C5.  When mark_best_as_matched returns, either it matched the
    transaction to a candidate group that is eligible (a dated
    representative strictly less than 4 days away, no member already
    matched), whose day gap is minimal among the eligible candidates of the
    bucket and which comes first in bucket order among those with that gap;
    or no candidate of the bucket is eligible and nothing changes. *)
Theorem nearest_date_selection t groups st st' :
  mark_best_as_matched t groups st = Ok st' →
  (∃ i g, groups !! i = Some g ∧ st' = apply_match t g st ∧
          eligible t st g = true ∧
          ∀ j g', groups !! j = Some g' → eligible t st g' = true →
                  gap_or_far t g ≤ gap_or_far t g' ∧
                  (gap_or_far t g' = gap_or_far t g → (i ≤ j)%nat))
  ∨ (st' = st ∧ ∀ g, g ∈ groups → eligible t st g = false).
Proof.
  rewrite mark_best_unfold.
  destruct (scan t st best0 groups) as [b| |] eqn:Hs; simpl; try done.
  pose proof (scan_inv_run t st groups [] best0 b (scan_inv_start t st)) as Hinv.
  specialize (Hinv ltac:(simpl; lia) Hs). simpl in Hinv.
  rewrite (chosen_of_inv _ _ _ _ Hinv). unfold scan_inv in Hinv.
  destruct (fst b) as [g|].
  - intros [= <-]. left. destruct Hinv as (i & Hi & He & Hd & Hmin).
    exists i, g. do 3 (split; [done|]).
    assert (Hg : gap_or_far t g = snd b) by (unfold gap_or_far; by rewrite Hd).
    rewrite Hg. exact Hmin.
  - intros [= <-]. right. by destruct Hinv.
Qed.

Lemma nearest_date_selection_witness :
  (∃ i g, [[sample_o1]; [sample_o4]] !! i = Some g ∧
          apply_match sample_t1 [sample_o4] fresh_state
            = apply_match sample_t1 g fresh_state ∧
          eligible sample_t1 fresh_state g = true ∧
          ∀ j g', [[sample_o1]; [sample_o4]] !! j = Some g' →
                  eligible sample_t1 fresh_state g' = true →
                  gap_or_far sample_t1 g ≤ gap_or_far sample_t1 g' ∧
                  (gap_or_far sample_t1 g' = gap_or_far sample_t1 g →
                   (i ≤ j)%nat))
  ∨ (apply_match sample_t1 [sample_o4] fresh_state = fresh_state ∧
     ∀ g, g ∈ [[sample_o1]; [sample_o4]] →
          eligible sample_t1 fresh_state g = false).
Proof.
  apply (nearest_date_selection sample_t1 [[sample_o1]; [sample_o4]]
           fresh_state).
  vm_compute. reflexivity.
Defined.

(** C9.  mark_best_as_matched returns exactly when every candidate group it
    is given has a member with a transaction date; a group whose members all
    lack a date makes the call raise StopIteration (the group is never
    skipped), and no other failure exists.  The guard [if not an_order] is
    never taken: whenever [next] returns, it returns an object, which is
    truthy. *)
Theorem mark_best_total_iff_dated t groups st :
  ((∃ st', mark_best_as_matched t groups st = Ok st') ↔
   Forall (λ g, Exists (λ o, is_Some (transact_date o)) g) groups) ∧
  (mark_best_as_matched t groups st = Raise StopIteration ↔
   Exists (Forall (λ o, transact_date o = None)) groups) ∧
  (∀ r, mark_best_as_matched t groups st = r →
        (∃ st', r = Ok st') ∨ r = Raise StopIteration) ∧
  (∀ g an_order d, g ∈ groups → next_with_date g = Some (an_order, d) →
        negb (obj_truthy an_order) = false).
Proof.
  rewrite mark_best_unfold.
  assert (Hdated : ∀ g, is_Some (next_with_date g) ↔
                        Exists (λ o, is_Some (transact_date o)) g).
  { intros g. split.
    - intros [[o d] (Ho & Hd)%next_with_date_elem].
      apply Exists_exists. exists o. by rewrite Hd.
    - intros Hex. destruct (next_with_date g) eqn:E; [done|].
      apply next_with_date_none in E. apply Exists_exists in Hex as (o & Ho & Hs).
      rewrite Forall_forall in E. rewrite (E _ Ho) in Hs. by destruct Hs. }
  assert (Hdec : Forall (λ g, is_Some (next_with_date g)) groups ∨
                 Exists (Forall (λ o, transact_date o = None)) groups).
  { induction groups as [|g groups IH]; [by left|].
    destruct (next_with_date g) eqn:E.
    - destruct IH as [IH|IH]; [left | right; by right].
      constructor; [by rewrite E | done].
    - right. left. by apply next_with_date_none. }
  split; [|split; [|split]]; [| | |done].
  - split.
    + intros [st' H]. destruct Hdec as [Hd|Hd].
      * eapply Forall_impl; [exact Hd|]. intros g. apply Hdated.
      * rewrite (scan_raises _ _ _ _ Hd) in H. done.
    + intros Hall.
      destruct (scan_returns t st groups best0) as [b Hb].
      { eapply Forall_impl; [exact Hall|]. intros g. apply Hdated. }
      rewrite Hb. simpl. destruct (chosen b); by eexists.
  - split.
    + destruct (scan t st best0 groups) as [b|e|c] eqn:Hs; simpl.
      * by destruct (chosen b).
      * intros _. by destruct (scan_raise_only_stop _ _ _ _ _ Hs).
      * done.
    + intros Hd. by rewrite (scan_raises _ _ _ _ Hd).
  - intros r <-. destruct (scan t st best0 groups) as [b|e|c] eqn:Hs; simpl.
    + left. destruct (chosen b); by eexists.
    + right. by destruct (scan_raise_only_stop _ _ _ _ _ Hs) as [-> _].
    + by destruct (scan_never_exits _ _ _ _ _ Hs).
Qed.

(** ** The buckets of the two passes *)

Lemma bucket_bucket_append m k' g k :
  bucket (bucket_append m k' g) k =
  if decide (k' = k) then bucket m k ++ [g] else bucket m k.
Proof.
  unfold bucket_append, bucket at 1. rewrite lookup_insert.
  destruct (decide (k' = k)); [by subst|done].
Qed.

Lemma bucket_fold entries : ∀ m k,
  bucket (fold_left (λ m e, bucket_append m (fst e) (snd e)) entries m) k =
  bucket m k ++ map snd (List.filter (λ e, fst e =? k) entries).
Proof.
  induction entries as [|[k0 g] entries IH]; intros m k; simpl.
  - by rewrite app_nil_r.
  - rewrite IH, bucket_bucket_append.
    destruct (decide (k0 = k)) as [->|Hne].
    + rewrite Z.eqb_refl. simpl. by rewrite <- app_assoc.
    + apply Z.eqb_neq in Hne. by rewrite Hne.
Qed.

(** A bucket holds the groups added under that key, in the order they were
    added. *)
Lemma bucket_index_groups entries k :
  bucket (index_groups entries) k
  = map snd (List.filter (λ e, fst e =? k) entries).
Proof. unfold index_groups. by rewrite bucket_fold. Qed.

Lemma elem_of_bucket entries k g :
  g ∈ bucket (index_groups entries) k ↔ (k, g) ∈ entries.
Proof.
  rewrite bucket_index_groups, !list_elem_of_In, in_map_iff. split.
  - intros ([k0 g0] & <- & [Hin Hk%Z.eqb_eq]%filter_In). simpl in *. by subst.
  - intros Hin. exists (k, g). split; [done|]. apply filter_In.
    split; [done|]. simpl. apply Z.eqb_refl.
Qed.

Lemma elem_of_pass_a_bucket os k g :
  g ∈ bucket (pass_a_buckets os) k ↔
  ∃ o, o ∈ os ∧ g = [o] ∧ k = transact_amount o.
Proof.
  unfold pass_a_buckets. rewrite elem_of_bucket, list_elem_of_fmap. split.
  - intros (o & [= -> ->] & Ho). by exists o.
  - intros (o & Ho & -> & ->). by exists o.
Qed.

Lemma elem_of_pass_b_bucket os k c :
  c ∈ bucket (pass_b_buckets os) k ↔
  c ∈ all_combos os ∧ sum_transact_amounts c = k.
Proof.
  unfold pass_b_buckets. rewrite elem_of_bucket, list_elem_of_fmap. split.
  - by intros (c' & [= -> ->] & Hc).
  - intros [Hc <-]. by exists c.
Qed.

Lemma combinations_spec {A} (l : list A) : ∀ r c,
  c ∈ combinations l r ↔ c `sublist_of` l ∧ length c = r.
Proof.
  induction l as [|x l IH]; intros [|r] c; simpl.
  - rewrite list_elem_of_singleton, sublist_nil_r.
    split; [by intros -> | by intros [-> _]].
  - rewrite elem_of_nil, sublist_nil_r. split; [done | by intros [-> ?]].
  - rewrite list_elem_of_singleton. split.
    + intros ->. split; [apply sublist_nil_l | done].
    + intros [_ H]. by destruct c.
  - rewrite elem_of_app, list_elem_of_fmap, sublist_cons_r. split.
    + intros [(c' & -> & [Hs Hl]%IH)|[Hs Hl]%IH].
      * split; [right; eauto | simpl; lia].
      * split; [by left | done].
    + intros [[Hs|(c' & -> & Hs)] Hl].
      * right. by apply IH.
      * left. exists c'. split; [done|]. apply IH. simpl in Hl.
        split; [done | lia].
Qed.

Lemma elem_of_combos l c :
  c ∈ combos l ↔ c `sublist_of` l ∧ (2 ≤ length c)%nat.
Proof.
  unfold combos. rewrite list_elem_of_In, in_flat_map. split.
  - intros (r & Hr & Hc). apply list_elem_of_In, combinations_spec in Hc as [Hs Hl].
    apply in_seq in Hr. split; [done | lia].
  - intros [Hs Hl]. exists (length c). split.
    + apply in_seq. apply sublist_length in Hs. lia.
    + apply list_elem_of_In, combinations_spec. done.
Qed.

Lemma oid_get_append d k o k' :
  oid_get (oid_append d k o) k' =
  if String.eqb k k' then oid_get d k' ++ [o] else oid_get d k'.
Proof.
  unfold oid_get. induction d as [|[k0 l] d IH]; simpl.
  - destruct (String.eqb k k'); done.
  - destruct (String.eqb k0 k) eqn:E0; simpl.
    + apply String.eqb_eq in E0 as ->. destruct (String.eqb k k'); done.
    + destruct (String.eqb k0 k') eqn:E1; simpl; [|exact IH].
      apply String.eqb_eq in E1 as ->. by rewrite String.eqb_sym, E0.
Qed.

Lemma oid_keys_append d k o :
  (oid_append d k o).*1 = if bool_decide (k ∈ d.*1) then d.*1 else d.*1 ++ [k].
Proof.
  induction d as [|[k0 l] d IH].
  - rewrite bool_decide_false; [done|]. apply not_elem_of_nil.
  - cbn [oid_append]. destruct (String.eqb k0 k) eqn:E0.
    + apply String.eqb_eq in E0 as ->.
      rewrite bool_decide_true; [done|]. rewrite fmap_cons. by left.
    + apply String.eqb_neq in E0. rewrite !fmap_cons, IH. cbn [fst].
      destruct (bool_decide (k ∈ d.*1)) eqn:Ed.
      * apply bool_decide_eq_true in Ed.
        rewrite bool_decide_true; [done|]. by right.
      * apply bool_decide_eq_false in Ed. rewrite bool_decide_false; [done|].
        intros [?|?]%elem_of_cons; congruence.
Qed.

Lemma oid_to_orders_snoc os o :
  oid_to_orders (os ++ [o]) = oid_append (oid_to_orders os) (order_id o) o.
Proof. unfold oid_to_orders. by rewrite fold_left_app. Qed.

Lemma oid_get_oid_to_orders os k :
  oid_get (oid_to_orders os) k =
  List.filter (λ o, String.eqb (order_id o) k) os.
Proof.
  induction os as [|o os IH] using rev_ind; [done|].
  rewrite oid_to_orders_snoc, oid_get_append, IH, List.filter_app. simpl.
  destruct (String.eqb (order_id o) k); [done | by rewrite app_nil_r].
Qed.

Lemma oid_keys_NoDup os : NoDup (oid_to_orders os).*1.
Proof.
  induction os as [|o os IH] using rev_ind; [constructor|].
  rewrite oid_to_orders_snoc, oid_keys_append.
  destruct (bool_decide _) eqn:E; [done|].
  apply bool_decide_eq_false in E. apply NoDup_app. split; [done|]. split.
  - intros x Hx ->%list_elem_of_singleton. done.
  - apply NoDup_singleton.
Qed.

Lemma oid_keys_elem os k :
  k ∈ (oid_to_orders os).*1 ↔ ∃ o, o ∈ os ∧ order_id o = k.
Proof.
  induction os as [|o os IH] using rev_ind.
  - simpl. split; [by intros ?%elem_of_nil | by intros (? & ?%elem_of_nil & _)].
  - rewrite oid_to_orders_snoc, oid_keys_append.
    destruct (bool_decide _) eqn:E.
    + apply bool_decide_eq_true in E. rewrite IH. split.
      * intros (x & Hx & <-). exists x. split; [apply elem_of_app; by left|done].
      * intros (x & [Hx|Hx%list_elem_of_singleton]%elem_of_app & <-); [eauto|].
        subst. by apply IH.
    + rewrite elem_of_app, list_elem_of_singleton, IH. split.
      * intros [(x & Hx & <-)| ->].
        -- exists x. split; [apply elem_of_app; by left|done].
        -- exists o. split; [apply elem_of_app; right; by left | done].
      * intros (x & [Hx|Hx%list_elem_of_singleton]%elem_of_app & <-);
          [left; eauto | right; by subst].
Qed.

Lemma oid_get_of_elem d k l :
  NoDup d.*1 → (k, l) ∈ d → oid_get d k = l.
Proof.
  unfold oid_get. induction d as [|[k0 l0] d IH]; simpl.
  - by intros _ ?%elem_of_nil.
  - intros [Hnin Hnd]%NoDup_cons [[= -> ->]|Hin]%elem_of_cons.
    + by rewrite String.eqb_refl.
    + destruct (String.eqb k0 k) eqn:E; [|by apply IH].
      apply String.eqb_eq in E as ->. exfalso. apply Hnin.
      apply list_elem_of_fmap. by exists (k, l).
Qed.

(** The values of [oid_to_orders] are exactly the non-empty classes of the
    input under equality of order identifier, each in input order. *)
Lemma oid_to_orders_values os l :
  l ∈ (oid_to_orders os).*2 ↔
  ∃ oid, l = List.filter (λ o, String.eqb (order_id o) oid) os ∧ l ≠ [].
Proof.
  rewrite list_elem_of_fmap. split.
  - intros ([k l'] & -> & Hin). simpl. exists k.
    pose proof (oid_get_of_elem _ _ _ (oid_keys_NoDup os) Hin) as Hget.
    rewrite oid_get_oid_to_orders in Hget. split; [done|].
    assert (Hk : k ∈ (oid_to_orders os).*1)
      by (apply list_elem_of_fmap; by exists (k, l')).
    apply oid_keys_elem in Hk as (o & Ho & Hoid). intros ->.
    assert (Hf : In o (List.filter (λ o, String.eqb (order_id o) k) os)).
    { apply filter_In. split; [by apply list_elem_of_In|]. by apply String.eqb_eq. }
    by rewrite Hget in Hf.
  - intros (oid & -> & Hne).
    destruct (List.filter _ os) as [|o l'] eqn:Ef; [done|].
    assert (Ho : In o (List.filter (λ o, String.eqb (order_id o) oid) os))
      by (rewrite Ef; by left).
    apply filter_In in Ho as [Ho Hoid%String.eqb_eq].
    assert (Hk : oid ∈ (oid_to_orders os).*1).
    { apply oid_keys_elem. exists o. by rewrite <- list_elem_of_In in Ho. }
    apply list_elem_of_fmap in Hk as ([k l0] & -> & Hin). simpl in *.
    exists (k, l0). split; [|done]. simpl.
    pose proof (oid_get_of_elem _ _ _ (oid_keys_NoDup os) Hin) as Hget.
    rewrite oid_get_oid_to_orders in Hget. congruence.
Qed.

Lemma elem_of_all_combos os c :
  c ∈ all_combos os ↔
  ∃ oid, c `sublist_of` List.filter (λ o, String.eqb (order_id o) oid) os ∧
         (2 ≤ length c)%nat.
Proof.
  unfold all_combos. rewrite list_elem_of_In, in_flat_map. split.
  - intros ([k l] & Hin & Hc). simpl in Hc.
    apply list_elem_of_In, elem_of_combos in Hc as [Hs Hl].
    assert (Hv : l ∈ (oid_to_orders os).*2).
    { apply list_elem_of_fmap. exists (k, l). by rewrite list_elem_of_In. }
    apply oid_to_orders_values in Hv as (oid & -> & _). eauto.
  - intros (oid & Hs & Hl).
    assert (Hne : List.filter (λ o, String.eqb (order_id o) oid) os ≠ []).
    { intros E. rewrite E in Hs. apply sublist_nil_r in Hs as ->. simpl in Hl. lia. }
    assert (Hv : List.filter (λ o, String.eqb (order_id o) oid) os
                 ∈ (oid_to_orders os).*2)
      by (apply oid_to_orders_values; eauto).
    apply list_elem_of_fmap in Hv as ([k l] & Heq & Hin). simpl in Heq.
    exists (k, l). split; [by apply list_elem_of_In|]. simpl.
    apply list_elem_of_In, elem_of_combos. by rewrite <- Heq.
Qed.

(** C6.  The buckets of the second pass, built from the orders still
    unmatched after the first pass: a group is in the bucket of key [k]
    exactly when it is a combination (a subsequence, in input order) of at
    least 2 members of one order-identifier class of the still-unmatched
    orders and its members' amounts sum to [k].  Hence every member of a
    candidate is an input order that is still unmatched, all members of a
    candidate share one order identifier, and every combination of size 2 up
    to the class size is present. *)
Theorem pass_b_enumeration (st1 : MatchState) (os : list AmazonObj)
    (k : Z) (c : list AmazonObj) :
  let unmatched := still_unmatched_orders st1 os in
  let class oid := List.filter (λ o, String.eqb (order_id o) oid) unmatched in
  let B := pass_b_buckets unmatched in
  (c ∈ bucket B k ↔
     ∃ oid, c `sublist_of` class oid ∧ (2 ≤ length c)%nat ∧
            sum_transact_amounts c = k) ∧
  (c ∈ bucket B k →
     (∀ o, o ∈ c → o ∈ os ∧ matched st1 o = false) ∧
     (∀ o1 o2, o1 ∈ c → o2 ∈ c → order_id o1 = order_id o2)) ∧
  (∀ oid r, (2 ≤ r ≤ length (class oid))%nat →
     ∀ c', c' ∈ combinations (class oid) r →
           c' ∈ bucket B (sum_transact_amounts c')).
Proof.
  intros unmatched class B.
  assert (Hiff : ∀ k c, c ∈ bucket B k ↔
     ∃ oid, c `sublist_of` class oid ∧ (2 ≤ length c)%nat ∧
            sum_transact_amounts c = k).
  { intros k0 c0. unfold B.
    rewrite elem_of_pass_b_bucket, elem_of_all_combos. split.
    - intros [(oid & Hs & Hl) Hk]. by exists oid.
    - intros (oid & Hs & Hl & Hk). split; [by exists oid | done]. }
  split; [apply Hiff|]. split.
  - intros (oid & Hs & _ & _)%Hiff.
    assert (Hmem : ∀ o, o ∈ c → o ∈ os ∧ matched st1 o = false
                                ∧ order_id o = oid).
    { intros o Ho. apply (sublist_subseteq _ _ Hs) in Ho.
      apply list_elem_of_In, filter_In in Ho as [Ho Hoid%String.eqb_eq].
      apply filter_In in Ho as [Ho Hm%negb_true_iff].
      by rewrite <- list_elem_of_In in Ho. }
    split.
    + intros o Ho. by destruct (Hmem o Ho) as (? & ? & _).
    + intros o1 o2 H1 H2.
      destruct (Hmem o1 H1) as (_ & _ & ->).
      by destruct (Hmem o2 H2) as (_ & _ & ->).
  - intros oid r Hr c' [Hs Hl]%combinations_spec.
    apply Hiff. exists oid. split; [done|]. split; [lia | done].
Qed.

(** ** Soundness of matching *)

Lemma mark_best_cases t groups st st' :
  mark_best_as_matched t groups st = Ok st' →
  st' = st ∨ ∃ g, g ∈ groups ∧ eligible t st g = true ∧ st' = apply_match t g st.
Proof.
  rewrite mark_best_unfold.
  destruct (scan t st best0 groups) as [b| |] eqn:Hs; simpl; try done.
  pose proof (scan_inv_run t st groups [] best0 b (scan_inv_start t st)) as Hinv.
  specialize (Hinv ltac:(simpl; lia) Hs). simpl in Hinv.
  rewrite (chosen_of_inv _ _ _ _ Hinv). unfold scan_inv in Hinv.
  destruct (fst b) as [g|]; intros [= <-]; [right | by left].
  destruct Hinv as (i & Hi & He & _). exists g.
  split; [by eapply list_elem_of_lookup_2 | done].
Qed.

Lemma fold_obj_match_refs g : ∀ st,
  matched_refs (fold_left obj_match g st)
  = list_to_set (obj_ref <$> g) ∪ matched_refs st.
Proof.
  induction g as [|o g IH]; intros st; simpl.
  - set_solver.
  - rewrite IH. simpl. set_solver.
Qed.

Lemma fold_obj_match_orders g : ∀ st,
  trans_orders (fold_left obj_match g st) = trans_orders st.
Proof. induction g as [|o g IH]; intros st; simpl; [done | by rewrite IH]. Qed.

Lemma already_matched_false st g :
  already_matched st g = false ↔ ∀ o, o ∈ g → obj_ref o ∉ matched_refs st.
Proof.
  unfold already_matched. rewrite <- not_true_iff_false, existsb_exists. split.
  - intros H o Ho Hin. apply H. exists o. split; [by apply list_elem_of_In|].
    by apply bool_decide_eq_true.
  - intros H (o & Ho%list_elem_of_In & Hm%bool_decide_eq_true). by eapply H.
Qed.

Lemma eligible_inv t st g :
  eligible t st g = true →
  (∃ n, day_gap t g = Some n ∧ n ≤ 3) ∧ g ≠ [] ∧
  ∀ o, o ∈ g → obj_ref o ∉ matched_refs st.
Proof.
  unfold eligible. destruct (day_gap t g) as [n|] eqn:E; [|done].
  intros [Hn Hm%negb_true_iff]%andb_true_iff. apply Z.ltb_lt in Hn.
  split; [exists n; split; [done | lia]|]. split.
  - intros ->. done.
  - by apply already_matched_false.
Qed.

Lemma apply_match_sound ts t g st :
  distinct_objects ts → t ∈ ts →
  sound ts st → eligible t st g = true → sum_transact_amounts g = amount t →
  sound ts (apply_match t g st).
Proof.
  intros Hd Ht [Hg Hf Hdj] (Hgap & Hne & Hfree)%eligible_inv Hsum.
  assert (Hrefs : matched_refs (apply_match t g st)
                  = list_to_set (obj_ref <$> g) ∪ matched_refs st)
    by apply fold_obj_match_refs.
  assert (Hord : trans_orders (apply_match t g st)
                 = <[trans_ref t := g]> (trans_orders st)).
  { unfold apply_match, trans_match. simpl. by rewrite fold_obj_match_orders. }
  assert (Hin : ∀ o, o ∈ g → obj_ref o ∈ matched_refs (apply_match t g st)).
  { intros o Ho. rewrite Hrefs. apply elem_of_union_l, elem_of_list_to_set.
    apply list_elem_of_fmap. eauto. }
  split.
  - intros t' Ht'. unfold orders_of. rewrite Hord, lookup_insert.
    destruct (decide (trans_ref t = trans_ref t')) as [E|E]; simpl.
    + rewrite (Hd _ _ Ht' Ht (eq_sym E)). intros _. by split.
    + apply Hg, Ht'.
  - intros r g' o. rewrite Hord, lookup_insert.
    destruct (decide (trans_ref t = r)).
    + intros [= <-]. apply Hin.
    + intros Hr Ho. rewrite Hrefs. apply elem_of_union_r. eauto.
  - intros r1 r2 g1 g2 o1 o2. rewrite Hord, !lookup_insert.
    destruct (decide (trans_ref t = r1)), (decide (trans_ref t = r2));
      intros H1 H2 Hne12 Ho1 Ho2; simplify_eq.
    + intros E. apply (Hfree _ Ho1). rewrite E. eauto.
    + intros E. apply (Hfree _ Ho2). rewrite <- E. eauto.
    + eauto.
Qed.

Lemma mark_best_sound ts t groups st st' :
  distinct_objects ts → t ∈ ts → sound ts st →
  (∀ g, g ∈ groups → sum_transact_amounts g = amount t) →
  mark_best_as_matched t groups st = Ok st' → sound ts st'.
Proof.
  intros Hd Ht Hs Hsum [->|(g & Hg & He & ->)]%mark_best_cases; [done|].
  apply apply_match_sound; auto.
Qed.

Lemma match_each_sound ts m l : ∀ st st',
  distinct_objects ts → l ⊆ ts → sound ts st →
  (∀ k g, g ∈ bucket m k → sum_transact_amounts g = k) →
  match_each m l st = Ok st' → sound ts st'.
Proof.
  induction l as [|t l IH]; intros st st' Hd Hl Hs Hm; simpl.
  - by intros [= <-].
  - destruct (mark_best_as_matched t (bucket m (amount t)) st)
      as [st1| |] eqn:E; simpl; try done.
    assert (Ht : t ∈ ts) by (apply Hl; by left).
    assert (Hl' : l ⊆ ts) by (intros x Hx; apply Hl; by right).
    apply IH; auto.
    eapply mark_best_sound; [exact Hd | exact Ht | exact Hs | | exact E].
    intros g Hg. by apply Hm.
Qed.

Lemma pass_a_bucket_sum os k g :
  g ∈ bucket (pass_a_buckets os) k → sum_transact_amounts g = k.
Proof.
  intros (o & _ & -> & ->)%elem_of_pass_a_bucket. simpl. lia.
Qed.

Lemma pass_b_bucket_sum os k g :
  g ∈ bucket (pass_b_buckets os) k → sum_transact_amounts g = k.
Proof. by intros [_ ?]%elem_of_pass_b_bucket. Qed.

Lemma still_unmatched_trans_subseteq st ts : still_unmatched_trans st ts ⊆ ts.
Proof.
  intros t Ht. unfold still_unmatched_trans in Ht.
  apply list_elem_of_In, filter_In in Ht as [Ht _]. by apply list_elem_of_In.
Qed.

Lemma match_transactions_sound ts l os st st' :
  distinct_objects ts → l ⊆ ts → sound ts st →
  match_transactions l os st = Ok st' → sound ts st'.
Proof.
  intros Hd Hl Hs. unfold match_transactions.
  destruct (match_each (pass_a_buckets os) l st) as [st1| |] eqn:E;
    simpl; try done.
  assert (Hs1 : sound ts st1).
  { eapply match_each_sound; eauto. intros k g. apply pass_a_bucket_sum. }
  apply match_each_sound; auto.
  - etrans; [apply still_unmatched_trans_subseteq | done].
  - intros k g. apply pass_b_bucket_sum.
Qed.

Lemma fresh_state_sound ts : sound ts fresh_state.
Proof.
  split.
  - intros t _. unfold orders_of. simpl. by rewrite lookup_empty.
  - intros r g o. simpl. by rewrite lookup_empty.
  - intros r1 r2 g1 g2 o1 o2. simpl. by rewrite lookup_empty.
Qed.

(** C1.  After the two matching calls of get_mint_updates (orders, then
    refunds against the transactions still unmatched), started with nothing
    matched: every matched transaction has a group whose transaction amounts
    sum exactly to the transaction's amount and whose representative date is
    at most 3 days from the transaction's date, and no Order or Refund object
    belongs to the groups of two different transactions. *)
Theorem matching_soundness (trans : list Transaction)
    (orders refunds : list AmazonObj) (st' : MatchState) :
  distinct_objects trans →
  match_all trans orders refunds fresh_state = Ok st' →
  (∀ t, t ∈ trans → orders_of st' t ≠ [] →
        sum_transact_amounts (orders_of st' t) = amount t ∧
        ∃ n, day_gap t (orders_of st' t) = Some n ∧ n ≤ 3) ∧
  (∀ t1 t2 o1 o2, t1 ∈ trans → t2 ∈ trans → t1 ≠ t2 →
        o1 ∈ orders_of st' t1 → o2 ∈ orders_of st' t2 →
        obj_ref o1 ≠ obj_ref o2).
Proof.
  intros Hd. unfold match_all.
  destruct (match_transactions trans orders fresh_state) as [st1| |] eqn:E;
    simpl; try done.
  intros E2.
  assert (Hs1 : sound trans st1).
  { eapply match_transactions_sound; eauto using fresh_state_sound. }
  assert (Hs : sound trans st').
  { eapply match_transactions_sound; eauto using still_unmatched_trans_subseteq. }
  destruct Hs as [Hg Hf Hdj]. split.
  - intros t Ht Hne. apply (Hg t Ht Hne).
  - intros t1 t2 o1 o2 Ht1 Ht2 Hne. unfold orders_of.
    destruct (trans_orders st' !! trans_ref t1) as [g1|] eqn:E1;
      simpl; [|by intros ?%elem_of_nil].
    destruct (trans_orders st' !! trans_ref t2) as [g2|] eqn:E2';
      simpl; [|by intros _ ?%elem_of_nil].
    apply (Hdj _ _ _ _ _ _ E1 E2'). intros Er. apply Hne. by apply Hd.
Qed.

Lemma sample_trans_distinct : distinct_objects sample_trans.
Proof.
  intros t1 t2 H1 H2.
  repeat (apply elem_of_cons in H1 as [->|H1]);
    repeat (apply elem_of_cons in H2 as [->|H2]);
    try (by apply elem_of_nil in H1); try (by apply elem_of_nil in H2);
    done.
Qed.

Lemma sample_match_all :
  match_all sample_trans sample_orders sample_refunds fresh_state
  = Ok sample_matched.
Proof. vm_compute. reflexivity. Qed.

Lemma matching_soundness_witness :
  (∀ t, t ∈ sample_trans → orders_of sample_matched t ≠ [] →
        sum_transact_amounts (orders_of sample_matched t) = amount t ∧
        ∃ n, day_gap t (orders_of sample_matched t) = Some n ∧ n ≤ 3) ∧
  (∀ t1 t2 o1 o2, t1 ∈ sample_trans → t2 ∈ sample_trans → t1 ≠ t2 →
        o1 ∈ orders_of sample_matched t1 → o2 ∈ orders_of sample_matched t2 →
        obj_ref o1 ≠ obj_ref o2).
Proof.
  apply (matching_soundness sample_trans sample_orders sample_refunds).
  - exact sample_trans_distinct.
  - vm_compute. reflexivity.
Defined.

(** ** The input filters *)

Lemma elem_of_filter_trans args trans t :
  t ∈ filter_trans args trans ↔
  t ∈ trans ∧ merchant_ok args t = true ∧ is_pending t = false ∧
  category_ok args t = true.
Proof.
  unfold filter_trans. rewrite !list_elem_of_In, !filter_In, negb_true_iff.
  tauto.
Qed.

Lemma merchant_ok_spec args t :
  merchant_ok args t = true ↔
  ∃ s, s ∈ split_comma (lower (mint_input_merchant_filter args)) ∧
       contains (lower (omerchant t)) s = true.
Proof.
  unfold merchant_ok. rewrite existsb_exists. split.
  - intros (s & Hs & Hc). exists s. by rewrite list_elem_of_In.
  - intros (s & Hs & Hc). exists s. by rewrite <- list_elem_of_In.
Qed.

(** C10 (as amended).  The merchant filter reads only the original
    description: two transactions with the same original description pass
    or fail it together, whatever their current descriptions, so rewriting
    a description never changes the outcome of the merchant filter; a
    transaction passes exactly when a piece of the lower-cased filter occurs
    in its lower-cased original description.  A transaction this system
    rewrote is kept by the input filters of a later run exactly when its
    original description passes the merchant filter, it is not pending, and
    the category it has now passes the category filter; when no category
    filter is given and the transaction is not pending, it is kept exactly
    when its original description contains a piece of the filter. *)
Theorem merchant_filter_reads_original_description (args : Args)
    (t : Transaction) (new_merchant new_category : string)
    (new_category_id : Z) (new_note : string) :
  let t' := retagged t new_merchant new_category new_category_id new_note in
  (∀ t1 t2, omerchant t1 = omerchant t2 →
            merchant_ok args t1 = merchant_ok args t2) ∧
  merchant_ok args t' = merchant_ok args t ∧
  (merchant_ok args t = true ↔
     ∃ s, s ∈ split_comma (lower (mint_input_merchant_filter args)) ∧
          contains (lower (omerchant t)) s = true) ∧
  (∀ later_trans,
     t' ∈ filter_trans args later_trans ↔
     t' ∈ later_trans ∧ merchant_ok args t = true ∧ is_pending t = false ∧
     category_ok args t' = true) ∧
  (truthy (mint_input_categories_filter args) = None →
   is_pending t = false →
   ∀ later_trans,
     t' ∈ filter_trans args later_trans ↔
     t' ∈ later_trans ∧
     ∃ s, s ∈ split_comma (lower (mint_input_merchant_filter args)) ∧
          contains (lower (omerchant t)) s = true).
Proof.
  intros t'. split; [|split; [|split; [|split]]].
  - intros t1 t2 H. unfold merchant_ok. by rewrite H.
  - reflexivity.
  - apply merchant_ok_spec.
  - intros later. by rewrite elem_of_filter_trans.
  - intros Hnone Hpend later.
    rewrite elem_of_filter_trans, <- merchant_ok_spec.
    unfold category_ok. rewrite Hnone.
    change (merchant_ok args t') with (merchant_ok args t).
    change (is_pending t') with (is_pending t). rewrite Hpend.
    naive_solver.
Qed.

(** C10, counterexample: with the category filter "shopping", a transaction
    whose original description contains the filter piece "amazon" is kept
    on the first run; once it has been rewritten and moved to the category
    "Electronics", the later run drops it, the original description being
    the same. *)
Lemma rewritten_transaction_can_lose_eligibility :
  "amazon"%string
    ∈ split_comma (lower (mint_input_merchant_filter sample_args_shopping)) ∧
  omerchant sample_t2_electronics = omerchant sample_t2 ∧
  contains (lower (omerchant sample_t2_electronics)) "amazon" = true ∧
  merchant_ok sample_args_shopping sample_t2_electronics = true ∧
  filter_trans sample_args_shopping [sample_t2] = [sample_t2] ∧
  filter_trans sample_args_shopping [sample_t2_electronics] = [].
Proof.
  split; [|repeat split; vm_compute; reflexivity].
  change (("amazon" : string) ∈ ["amazon"; "amzn"]%string). by left.
Qed.

(** ** The update loop *)

Section LoopFacts.

Variable api : Api.
Variable args : Args.
Variable keys : nat -> ascii.
Variable renames : option (gmap string string).
Variable st : MatchState.

#[local] Abbreviation propose' := (propose api args renames st).
#[local] Abbreviation resolve' := (resolve api args keys).
#[local] Abbreviation process' := (process api args keys renames st).
#[local] Abbreviation run_loop' := (run_loop api args keys renames st).
#[local] Abbreviation update_loop' := (update_loop api args keys renames st).
#[local] Abbreviation fixed_order := (fixed_up_order api st).
#[local] Abbreviation nearly := (micro_usd_nearly_equal api).
#[local] Abbreviation debit_prefix' := (debit_prefix api args st).
#[local] Abbreviation finish' := (finish api args renames).

Lemma build_debit_eq t stats :
  build_debit api args st t stats =
  let r := fixed_up api (Order_merge api (orders_of st t)) in
  if reconciled api t (fixed_order t)
  then Ok (count_adjust_itemized_tax (snd (fst r))
             (count_misc_charge (fst (fst r)) stats),
           debit_prefix' t,
           to_mint_transactions api (fixed_order t) t
             (negb (verbose_itemize args)),
           Nat.eqb (num_items api (fixed_order t)) 1)
  else Raise AssertionError.
Proof.
  unfold build_debit, fixed_up_order, reconciled, debit_prefix.
  destruct (fixed_up api _) as [[misc tax] order]. simpl.
  destruct (nearly (amount t) (total_charged api order)); [|done].
  destruct (nearly (amount t) (total_by_subtotals api order)); [|done].
  destruct (nearly (amount t) (total_by_items api order)); done.
Qed.

Lemma personalize_all_fst nts : ∀ s1 s2,
  fst (personalize_all api renames nts s1)
  = fst (personalize_all api renames nts s2).
Proof.
  induction nts as [|nt nts IH]; intros s1 s2; [done|]. simpl.
  assert (Hp : fst (personalize api renames nt s1)
               = fst (personalize api renames nt s2)).
  { unfold personalize. destruct renames as [m|]; [|done].
    destruct (m !! _); [|done]. by destruct (String.eqb _ _). }
  destruct (personalize api renames nt s1) as [n1 s1'].
  destruct (personalize api renames nt s2) as [n2 s2']. simpl in Hp. subst.
  specialize (IH s1' s2').
  destruct (personalize_all api renames nts s1') as [r1 ?].
  destruct (personalize_all api renames nts s2') as [r2 ?].
  simpl in *. by subst.
Qed.

Lemma personalize_all_already nts : ∀ s,
  already_up_to_date (snd (personalize_all api renames nts s))
  = already_up_to_date s.
Proof.
  induction nts as [|nt nts IH]; intros s; [done|]. simpl.
  assert (Hp : already_up_to_date (snd (personalize api renames nt s))
               = already_up_to_date s).
  { unfold personalize. destruct renames as [m|]; [|done].
    destruct (m !! _); [|done]. by destruct (String.eqb _ _). }
  destruct (personalize api renames nt s) as [n1 s1]. simpl in Hp.
  specialize (IH s1).
  destruct (personalize_all api renames nts s1) as [r1 s2].
  simpl in *. congruence.
Qed.

Lemma propose_eq t stats :
  propose' t stats =
  '(stats1, prefix, cands, single) ←
     (if is_debit t then build_debit api args st t stats
      else build_credit api args st t stats);
  finish' t stats1 prefix cands single.
Proof.
  unfold propose, finish.
  destruct (if is_debit t then _ else _) as [[[[s1 p] c] b]| |]; simpl; try done.
  destruct (nearly _ _); simpl; [|done].
  by destruct (personalize_all api renames c s1).
Qed.

Lemma finish_checked t s p c b s' p' c' n :
  finish' t s p c b = Ok (s', p', c', n) →
  nearly (amount t) (sum_amounts c') = true ∧
  already_up_to_date s' = already_up_to_date s.
Proof.
  unfold finish. destruct (nearly _ _) eqn:Hn; [|done]. cbv zeta.
  intros [= <- <- <- <-]. split; [done|]. apply personalize_all_already.
Qed.

Lemma forget_finish t s1 s2 p c b :
  forget (finish' t s1 p c b) = forget (finish' t s2 p c b).
Proof.
  unfold finish. destruct (nearly _ _); [|done]. simpl.
  erewrite personalize_all_fst. reflexivity.
Qed.

Lemma propose_debit_fails t stats :
  is_debit t = true → reconciled api t (fixed_order t) = false →
  propose' t stats = Raise AssertionError.
Proof.
  intros Hd Hr. rewrite propose_eq, Hd, build_debit_eq. simpl. by rewrite Hr.
Qed.

Lemma propose_checked t stats stats' prefix cands new :
  propose' t stats = Ok (stats', prefix, cands, new) →
  nearly (amount t) (sum_amounts cands) = true ∧
  (is_debit t = true → reconciled api t (fixed_order t) = true) ∧
  already_up_to_date stats' = already_up_to_date stats.
Proof.
  rewrite propose_eq. destruct (is_debit t) eqn:Hd.
  - rewrite build_debit_eq. simpl.
    destruct (reconciled api t (fixed_order t)) eqn:Hr; simpl; [|done].
    intros [Hn Ha]%finish_checked. do 2 (split; [done|]). rewrite Ha.
    destruct (fst (fst _)), (snd (fst _)); done.
  - unfold build_credit. destruct (Refund_merge api _) as [|r0 rs]; [done|].
    simpl. intros [Hn Ha]%finish_checked. done.
Qed.

Lemma forget_propose t s1 s2 :
  forget (propose' t s1) = forget (propose' t s2).
Proof.
  rewrite !propose_eq. destruct (is_debit t).
  - rewrite !build_debit_eq. simpl.
    destruct (reconciled api t (fixed_order t)); simpl; [|done].
    apply forget_finish.
  - unfold build_credit. destruct (Refund_merge api _) as [|r0 rs]; [done|].
    simpl. apply forget_finish.
Qed.

Lemma resolve_updates t p n s f :
  resolve' t p n s = Ok f →
  updates (after f) = updates s ∨ updates (after f) = updates s ++ [(t, n)].
Proof.
  unfold resolve. destruct (old_and_new_are_identical _ _ _ _).
  { intros [= <-]. by left. }
  destruct (previously_tagged _ _ _).
  2:{ intros [= <-]. by right. }
  destruct (prompt_retag args).
  - destruct (cap_reached _ _). { intros [= <-]. by left. }
    destruct (Ascii.eqb _ _); [done|].
    destruct (negb _); intros [= <-]; [by left | by right].
  - destruct (negb _); intros [= <-]; [by left | by right].
Qed.

Lemma process_ok t s f :
  process' t s = Ok f →
  ∃ stats' prefix cands new,
    propose' t (stats s) = Ok (stats', prefix, cands, new) ∧
    (updates (after f) = updates s ∨
     updates (after f) = updates s ++ [(t, new)]).
Proof.
  unfold process.
  destruct (propose' t (stats s)) as [[[[s1 p] c] n]| |]; simpl; try done.
  intros H%resolve_updates. by exists s1, p, c, n.
Qed.

Lemma run_loop_app pre : ∀ rest s s1,
  run_loop' pre s = Ok (Next s1) →
  run_loop' (pre ++ rest) s = run_loop' rest s1.
Proof.
  induction pre as [|t pre IH]; intros rest s s1; simpl.
  - by intros [= ->].
  - destruct (process' t s) as [[s2|s2]| |]; simpl; try done. apply IH.
Qed.

(** Every update the loop adds belongs to a transaction of the list whose
    proposal was built, all assertions passing. *)
Lemma run_loop_emitted ts : ∀ s f,
  run_loop' ts s = Ok f →
  ∀ u, u ∈ updates (after f) →
       u ∈ updates s ∨
       (u.1 ∈ ts ∧ ∃ stats stats' prefix cands,
          propose' u.1 stats = Ok (stats', prefix, cands, u.2)).
Proof.
  induction ts as [|t ts IH]; intros s f; simpl.
  - intros [= <-] u Hu. by left.
  - destruct (process' t s) as [f1| |] eqn:Hp; simpl; try done.
    destruct (process_ok _ _ _ Hp) as (s1 & p & c & n & Hprop & Hup).
    assert (Hstep : ∀ u, u ∈ updates (after f1) →
              u ∈ updates s ∨
              (u.1 ∈ t :: ts ∧ ∃ stats stats' prefix cands,
                 propose' u.1 stats = Ok (stats', prefix, cands, u.2))).
    { intros u Hu. destruct Hup as [Hup|Hup]; rewrite Hup in Hu; [by left|].
      apply elem_of_app in Hu as [Hu|Hu%list_elem_of_singleton]; [by left|].
      subst u. right. split; [by left|]. by exists (stats s), s1, p, c. }
    destruct f1 as [s2|s2].
    + intros Hrun u Hu. destruct (IH _ _ Hrun u Hu) as [Hin|[Hin Hex]].
      * apply (Hstep u Hin).
      * right. split; [by right | done].
    + intros [= <-]. exact Hstep.
Qed.

(** When the loop was not left early, every transaction's proposal was
    built, all assertions passing. *)
Lemma run_loop_visits ts : ∀ s s',
  run_loop' ts s = Ok (Next s') →
  ∀ t, t ∈ ts → ∃ stats stats' prefix cands new,
                  propose' t stats = Ok (stats', prefix, cands, new).
Proof.
  induction ts as [|t0 ts IH]; intros s s'; simpl.
  - by intros _ t ?%elem_of_nil.
  - destruct (process' t0 s) as [f1| |] eqn:Hp; simpl; try done.
    destruct (process_ok _ _ _ Hp) as (s1 & p & c & n & Hprop & _).
    destruct f1 as [s2|s2]; [|done].
    intros Hrun t [->|Ht]%elem_of_cons.
    + by exists (stats s), s1, p, c, n.
    + by eapply IH.
Qed.

(** C3.  For a debit transaction whose three reconciliation checks (amount
    against total charged, subtotal-based total and item-based total of the
    merged order after both fix-ups, each by micro_usd_nearly_equal) do not
    all hold, building the proposal raises AssertionError, and so does the
    whole loop once it reaches that transaction.  When the loop returns,
    every update it added belongs to a transaction that passed the checks
    (if a debit), and if the loop was not left by its [break], every debit
    transaction of the list passed them. *)
Theorem reconciliation_is_fatal :
  (∀ t stats,
     is_debit t = true → reconciled api t (fixed_order t) = false →
     propose' t stats = Raise AssertionError) ∧
  (∀ pre t post s s1,
     run_loop' pre s = Ok (Next s1) →
     is_debit t = true → reconciled api t (fixed_order t) = false →
     update_loop' (pre ++ t :: post) s = Raise AssertionError) ∧
  (∀ ts s f,
     run_loop' ts s = Ok f →
     (∀ u, u ∈ updates (after f) →
           u ∈ updates s ∨
           (u.1 ∈ ts ∧
            (is_debit u.1 = true →
             reconciled api u.1 (fixed_order u.1) = true))) ∧
     (∀ s', f = Next s' →
            ∀ t, t ∈ ts → is_debit t = true →
                 reconciled api t (fixed_order t) = true)).
Proof.
  split; [|split].
  - apply propose_debit_fails.
  - intros pre t post s s1 Hpre Hd Hr. unfold update_loop.
    rewrite (run_loop_app _ _ _ _ Hpre). simpl. unfold process.
    by rewrite (propose_debit_fails _ _ Hd Hr).
  - intros ts s f Hrun. split.
    + intros u Hu.
      destruct (run_loop_emitted _ _ _ Hrun u Hu)
        as [Hin|[Hin (s0 & s1 & p & c & Hprop)]]; [by left|].
      right. split; [done|]. by apply propose_checked in Hprop as (_ & ? & _).
    + intros s' -> t Ht.
      destruct (run_loop_visits _ _ _ Hrun t Ht) as (s0 & s1 & p & c & n & Hprop).
      by apply propose_checked in Hprop as (_ & ? & _).
Qed.

(** *** Transactions that are already up to date *)

Lemma forget_ok r p c n :
  forget r = Ok (p, c, n) → ∃ s1, r = Ok (s1, p, c, n).
Proof.
  destruct r as [[[[s1 p'] c'] n']| |]; simpl; try done.
  intros [= -> -> ->]. by exists s1.
Qed.

Lemma process_up_to_date t s :
  up_to_date api args renames st t →
  ∃ s', process' t s = Ok (Next s') ∧ updates s' = updates s ∧
        cursor s' = cursor s ∧
        already_up_to_date (stats s') = already_up_to_date (stats s) + 1.
Proof.
  intros (p & c & n & Hf & Hid).
  rewrite (forget_propose t stats0 (stats s)) in Hf.
  apply forget_ok in Hf as [s1 Hprop]. unfold process. rewrite Hprop. simpl.
  unfold resolve. rewrite Hid. eexists. split; [done|]. simpl.
  do 2 (split; [done|]).
  apply propose_checked in Hprop as (_ & _ & ->). done.
Qed.

Lemma run_loop_up_to_date ts : ∀ s,
  (∀ t, t ∈ ts → up_to_date api args renames st t) →
  ∃ s', run_loop' ts s = Ok (Next s') ∧ updates s' = updates s ∧
        cursor s' = cursor s ∧
        already_up_to_date (stats s')
        = already_up_to_date (stats s) + Z.of_nat (length ts).
Proof.
  induction ts as [|t ts IH]; intros s Hall.
  - exists s. simpl. repeat split; lia.
  - destruct (process_up_to_date t s) as (s1 & Hp & Hu & Hc & Ha).
    { apply Hall. by left. }
    destruct (IH s1) as (s2 & Hr & Hu2 & Hc2 & Ha2).
    { intros t' Ht'. apply Hall. by right. }
    exists s2. simpl. rewrite Hp. simpl. split; [done|].
    split; [congruence|]. split; [congruence|]. lia.
Qed.

(** *** The cap: the loop against resolve-all-then-truncate *)

#[local] Abbreviation resolve_spec' := (resolve_spec api args keys).
#[local] Abbreviation resolve_all_spec' :=
  (resolve_all_spec api args keys renames st).

Lemma approved_by_app v later : approved_by v [] ++ later = approved_by v later.
Proof. by destruct v. Qed.

Lemma resolve_next t p n s s1 :
  resolve' t p n s = Ok (Next s1) →
  ∃ v, resolve_spec' t p n (stats s) (cursor s) = Ok (v, stats s1, cursor s1) ∧
       updates s1 = updates s ++ approved_by v [].
Proof.
  unfold resolve, resolve_spec.
  destruct (old_and_new_are_identical _ _ _ _).
  { intros [= <-]. exists None. simpl. by rewrite app_nil_r. }
  destruct (previously_tagged _ _ _); simpl.
  2:{ intros [= <-]. by exists (Some (t, n)). }
  destruct (prompt_retag args).
  - destruct (cap_reached args s); [done|].
    destruct (Ascii.eqb _ _); [done|].
    destruct (is_yes _); simpl; intros [= <-].
    + by exists (Some (t, n)).
    + exists None. simpl. by rewrite app_nil_r.
  - destruct (retag_changed args); simpl; intros [= <-].
    + by exists (Some (t, n)).
    + exists None. simpl. by rewrite app_nil_r.
Qed.

Lemma resolve_break t p n s sb :
  resolve' t p n s = Ok (Break sb) →
  sb = s ∧ prompt_retag args = true ∧ cap_reached args s = true ∧
  old_and_new_are_identical api t n (no_tag_categories args) = false ∧
  previously_tagged args p t = true.
Proof.
  unfold resolve.
  destruct (old_and_new_are_identical _ _ _ _); [done|].
  destruct (previously_tagged _ _ _); [|done].
  destruct (prompt_retag args).
  - destruct (cap_reached args s); [by intros [= <-]|].
    destruct (Ascii.eqb _ _); [done|]. by destruct (negb _).
  - by destruct (negb _).
Qed.

Lemma resolve_spec_ok t p n s v s2 c2 :
  resolve_spec' t p n (stats s) (cursor s) = Ok (v, s2, c2) →
  resolve' t p n s
  = Ok (Next {| stats := s2; updates := updates s ++ approved_by v [];
                cursor := c2 |}) ∨
  (cap_reached args s = true ∧ resolve' t p n s = Ok (Break s)).
Proof.
  unfold resolve, resolve_spec, append_update, with_stats, read_key.
  destruct (old_and_new_are_identical _ _ _ _).
  { intros [= <- <- <-]. left. simpl. by rewrite app_nil_r. }
  destruct (previously_tagged _ _ _); simpl.
  2:{ intros [= <- <- <-]. by left. }
  destruct (prompt_retag args).
  - destruct (cap_reached args s); [intros _; by right|].
    destruct (Ascii.eqb _ _); [done|].
    destruct (is_yes _); simpl; intros [= <- <- <-]; left; [done|].
    simpl. by rewrite app_nil_r.
  - destruct (retag_changed args); simpl; intros [= <- <- <-]; left; [done|].
    simpl. by rewrite app_nil_r.
Qed.

Lemma resolve_spec_verdict t p n s c v s2 c2 :
  resolve_spec' t p n s c = Ok (v, s2, c2) → v = None ∨ v = Some (t, n).
Proof.
  unfold resolve_spec.
  repeat (match goal with
          | |- context [if ?b then _ else _] => destruct b
          end; simpl);
    try done; intros [= <- <- <-]; auto.
Qed.

Lemma resolve_all_spec_sublist ts : ∀ s c approved s' c',
  resolve_all_spec' ts s c = Ok (approved, s', c') →
  approved.*1 `sublist_of` ts.
Proof.
  induction ts as [|t ts IH]; intros s c approved s' c'; simpl.
  - by intros [= <- <- <-].
  - destruct (propose' t s) as [[[[s0 p] cands] n]| |]; simpl; try done.
    destruct (resolve_spec' t p n s0 c) as [[[v s2] c2]| |] eqn:Hr; simpl;
      try done.
    destruct (resolve_all_spec' ts s2 c2) as [[[later s3] c3]| |] eqn:Hl;
      simpl; try done.
    intros [= <- <- <-]. apply IH in Hl.
    destruct (resolve_spec_verdict _ _ _ _ _ _ _ _ Hr) as [->| ->]; simpl.
    + by apply sublist_cons.
    + by apply sublist_skip.
Qed.

Lemma cap_reached_take s more :
  cap_reached args s = true →
  cap args (updates s ++ more) = cap args (updates s).
Proof.
  unfold cap_reached, cap. intros [Hn Hl]%andb_true_iff. rewrite Hn.
  apply Z.gtb_lt in Hn. apply Z.geb_le in Hl.
  apply take_app_le. lia.
Qed.

(** When resolving every transaction returns, the loop returns too, and its
    list agrees with the resolved one up to the cap. *)
Lemma run_loop_refines ts : ∀ s approved sa ca,
  resolve_all_spec' ts (stats s) (cursor s) = Ok (approved, sa, ca) →
  ∃ f, run_loop' ts s = Ok f ∧
       cap args (updates (after f)) = cap args (updates s ++ approved).
Proof.
  induction ts as [|t ts IH]; intros s approved sa ca; simpl.
  - intros [= <- <- <-]. exists (Next s). by rewrite app_nil_r.
  - destruct (propose' t (stats s)) as [[[[s0 p] cands] n]| |] eqn:Hp; simpl;
      try done.
    destruct (resolve_spec' t p n s0 (cursor s)) as [[[v s2] c2]| |] eqn:Hr;
      simpl; try done.
    destruct (resolve_all_spec' ts s2 c2) as [[[later s3] c3]| |] eqn:Hl;
      simpl; try done.
    intros [= <- <- <-]. unfold process. rewrite Hp. simpl.
    destruct (resolve_spec_ok t p n (with_stats (λ _, s0) s) v s2 c2 Hr)
      as [Hn|[Hc Hb]].
    + rewrite Hn. simpl.
      destruct (IH {| stats := s2; updates := updates s ++ approved_by v [];
                      cursor := c2 |} later s3 c3 Hl) as (f & Hf & Hcap).
      exists f. split; [done|]. rewrite Hcap. simpl.
      by rewrite <- app_assoc, approved_by_app.
    + rewrite Hb. simpl. eexists. split; [done|]. simpl.
      symmetry. by apply (cap_reached_take (with_stats (λ _, s0) s)).
Qed.

(** Whenever the loop returns, its list is the resolved list of the
    transactions it visited: all of them, or, after a [break], those before
    a transaction met in the interactive mode with the cap reached. *)
Lemma run_loop_resolved ts : ∀ s f,
  run_loop' ts s = Ok f →
  ∃ visited rest approved sv cv,
    ts = visited ++ rest ∧
    resolve_all_spec' visited (stats s) (cursor s) = Ok (approved, sv, cv) ∧
    updates (after f) = updates s ++ approved ∧
    match f with
    | Next s' => rest = [] ∧ stats s' = sv ∧ cursor s' = cv
    | Break sb =>
        rest ≠ [] ∧ prompt_retag args = true ∧ cap_reached args sb = true
    end.
Proof.
  induction ts as [|t ts IH]; intros s f; simpl.
  - intros [= <-]. exists [], [], [], (stats s), (cursor s).
    simpl. by rewrite app_nil_r.
  - unfold process.
    destruct (propose' t (stats s)) as [[[[s0 p] cands] n]| |] eqn:Hp; simpl;
      try done.
    destruct (resolve' t p n (with_stats (λ _, s0) s)) as [[s1|sb]| |] eqn:Hr;
      simpl; try done.
    + intros Hrun.
      destruct (IH _ _ Hrun) as (vis & rest & app & sv & cv & -> & Hall & Hu & Hf).
      destruct (resolve_next _ _ _ _ _ Hr) as (v & Hv & Hu1). simpl in Hv, Hu1.
      exists (t :: vis), rest, (approved_by v app), sv, cv.
      split; [done|]. split.
      * simpl. rewrite Hp. simpl. rewrite Hv. simpl. by rewrite Hall.
      * split; [|done]. rewrite Hu, Hu1.
        by rewrite <- app_assoc, approved_by_app.
    + intros [= <-].
      destruct (resolve_break _ _ _ _ _ Hr) as (-> & Hprompt & Hc & _).
      exists [], (t :: ts), [], (stats s), (cursor s). simpl.
      rewrite app_nil_r. done.
Qed.

(** C8 (as amended).  At the prompt of the interactive retag mode (the
    transaction was tagged before, differs from the proposal, and the cap
    has not stopped the loop): the run exits, with status 1, exactly when
    the key read is the abort character (code 3); it never raises; the keys
    Y, y, carriage return and line feed count a retag and add the update;
    every other key, not only an explicit "no", counts a user_skipped_retag,
    adds no update and lets the loop go on. *)
Theorem prompt_outcomes (t : Transaction) (prefix : string)
    (new_transactions : list Transaction) (s : Loop) :
  old_and_new_are_identical api t new_transactions (no_tag_categories args)
    = false →
  previously_tagged args prefix t = true →
  prompt_retag args = true →
  cap_reached args s = false →
  let action := keys (cursor s) in
  let r := resolve' t prefix new_transactions s in
  (∀ c, r = Exit c ↔ action = "003"%char ∧ c = 1) ∧
  (∀ e, r ≠ Raise e) ∧
  (is_yes action = true →
     r = Ok (Next (append_update (t, new_transactions)
                     (with_stats count_retag (read_key s))))) ∧
  (action ≠ "003"%char → is_yes action = false →
     r = Ok (Next (with_stats count_user_skipped_retag (read_key s)))).
Proof.
  intros Hid Hprev Hprompt Hcap action r. subst r. unfold resolve.
  rewrite Hid, Hprev, Hprompt, Hcap. fold action.
  destruct (Ascii.eqb action "003") eqn:E.
  - apply Ascii.eqb_eq in E. rewrite E. split; [|split; [|split]]; try done.
    intros c. split; [by intros [= <-] | by intros [_ ->]].
  - apply Ascii.eqb_neq in E. split; [|split; [|split]].
    + intros c. split; [|by intros [? _]]. by destruct (negb _).
    + intros e. by destruct (negb _).
    + by intros ->.
    + by intros _ ->.
Qed.

Lemma resolve_adds_only_changed t p n s f :
  resolve' t p n s = Ok f →
  updates (after f) = updates s ∨
  (updates (after f) = updates s ++ [(t, n)] ∧
   old_and_new_are_identical api t n (no_tag_categories args) = false).
Proof.
  intros H. destruct (resolve_updates _ _ _ _ _ H) as [Hu|Hu]; [by left|].
  destruct (old_and_new_are_identical api t n (no_tag_categories args))
    eqn:E; [|by right].
  left. revert H. unfold resolve. rewrite E. by intros [= <-].
Qed.

Lemma run_loop_adds_only_changed ts : ∀ s f,
  run_loop' ts s = Ok f →
  ∀ u, u ∈ updates (after f) →
       u ∈ updates s ∨
       old_and_new_are_identical api u.1 u.2 (no_tag_categories args) = false.
Proof.
  induction ts as [|t ts IH]; intros s f; simpl.
  - intros [= <-] u Hu. by left.
  - unfold process at 1.
    destruct (propose' t (stats s)) as [[[[s0 p] c] n]| |]; simpl; try done.
    destruct (resolve' t p n _) as [f1| |] eqn:Hr; simpl; try done.
    assert (Hstep : ∀ u, u ∈ updates (after f1) →
              u ∈ updates s ∨
              old_and_new_are_identical api u.1 u.2 (no_tag_categories args)
              = false).
    { intros u Hu.
      destruct (resolve_adds_only_changed _ _ _ _ _ Hr) as [Hup|[Hup Hne]];
        rewrite Hup in Hu; simpl in Hu; [by left|].
      apply elem_of_app in Hu as [Hu|Hu%list_elem_of_singleton]; [by left|].
      subst u. by right. }
    destruct f1 as [s2|s2].
    + intros Hrun u Hu. destruct (IH _ _ Hrun u Hu) as [Hin|Hne]; [|by right].
      apply (Hstep u Hin).
    + intros [= <-]. exact Hstep.
Qed.

End LoopFacts.

(** ** get_mint_updates as a whole *)

Lemma get_mint_updates_eq api args keys renames orders refunds trans stats_in st :
  match_all (filter_trans args trans) orders refunds fresh_state = Ok st →
  get_mint_updates api args keys renames orders refunds trans stats_in =
  s ← update_loop api args keys renames st
        (List.filter (has_orders st) (filter_trans args trans))
        {| stats := stats_in; updates := []; cursor := 0 |};
  Ok (cap args (updates s),
      still_unmatched_orders st orders ++ still_unmatched_orders st refunds,
      stats s).
Proof. intros H. unfold get_mint_updates. by rewrite H. Qed.

Lemma get_mint_updates_ok api args keys renames orders refunds trans stats_in
    U um stats' :
  get_mint_updates api args keys renames orders refunds trans stats_in
  = Ok (U, um, stats') →
  ∃ st f,
    match_all (filter_trans args trans) orders refunds fresh_state = Ok st ∧
    run_loop api args keys renames st
      (List.filter (has_orders st) (filter_trans args trans))
      {| stats := stats_in; updates := []; cursor := 0 |} = Ok f ∧
    U = cap args (updates (after f)).
Proof.
  unfold get_mint_updates.
  destruct (match_all _ _ _ _) as [st| |] eqn:Hm; simpl; try done.
  unfold update_loop.
  destruct (run_loop _ _ _ _ _ _ _) as [f| |] eqn:Hrun; simpl; try done.
  intros [= <- _ _]. exists st, f. by rewrite Hrun.
Qed.

Lemma elem_of_cap args (l : list update) u : u ∈ cap args l → u ∈ l.
Proof.
  unfold cap. destruct (_ >? _); [|done]. apply subseteq_take.
Qed.

(** *** Conservation in the entries of an update *)




(** The loop body is the branch that builds the candidates followed by the
    hard check and the policy. *)
Lemma process_eq api args keys renames st t s :
  process api args keys renames st t s =
  '(stats1, prefix, cands, single) ←
     (if is_debit t then build_debit api args st t (stats s)
      else build_credit api args st t (stats s));
  check_and_resolve api args keys renames t prefix cands single
    (with_stats (λ _, stats1) s).
Proof.
  unfold process, check_and_resolve. rewrite propose_eq.
  destruct (if is_debit t then _ else _) as [[[[s1 p1] c1] b1]| |]; simpl;
    done.
Qed.



Lemma send_update_split {F : Type} (to_float : Z → F) client ignore_category
    orig new posted posted' :
  length new ≠ 1%nat →
  send_update to_float client ignore_category (orig, new) posted
  = Ok posted' →
  ∃ ids,
    length ids = length new ∧
    posted' = posted
              ++ split_request to_float client ignore_category orig new
              :: zip_with (note_request client) ids new.
Proof.
  intros Hlen. unfold send_update.
  destruct new as [|n1 [|n2 rest]]; [|done|];
    (destruct (Nat.eqb _ _) eqn:E; simpl; [|done]);
    apply Nat.eqb_eq in E; intros [= <-]; eexists; (split; [exact E|done]).
Qed.


(** C4.  When every matched transaction is up to date (the proposal built
    for it is accepted by old_and_new_are_identical), get_mint_updates
    returns no update and counts each of them as already_up_to_date; and in
    any run that returns, no returned update is one that
    old_and_new_are_identical accepts. *)
Theorem rerun_emits_nothing api args keys renames orders refunds trans stats_in :
  (∀ st,
     match_all (filter_trans args trans) orders refunds fresh_state = Ok st →
     (∀ t, t ∈ filter_trans args trans → has_orders st t = true →
           up_to_date api args renames st t) →
     ∃ stats',
       get_mint_updates api args keys renames orders refunds trans stats_in
       = Ok ([], still_unmatched_orders st orders
                 ++ still_unmatched_orders st refunds, stats') ∧
       already_up_to_date stats'
       = already_up_to_date stats_in
         + Z.of_nat (length (List.filter (has_orders st)
                               (filter_trans args trans)))) ∧
  (∀ U um stats',
     get_mint_updates api args keys renames orders refunds trans stats_in
     = Ok (U, um, stats') →
     ∀ t new, (t, new) ∈ U →
       old_and_new_are_identical api t new (no_tag_categories args) = false).
Proof.
  split.
  - intros st Hm Hall. rewrite (get_mint_updates_eq _ _ _ _ _ _ _ _ _ Hm).
    destruct (run_loop_up_to_date api args keys renames st
                (List.filter (has_orders st) (filter_trans args trans))
                {| stats := stats_in; updates := []; cursor := 0 |})
      as (s' & Hrun & Hu & _ & Ha).
    { intros t [Ht Hh]%list_elem_of_In%filter_In. apply Hall; [|done].
      by apply list_elem_of_In. }
    unfold update_loop. rewrite Hrun. simpl. rewrite Hu. simpl in *.
    exists (stats s'). split; [|done]. do 3 f_equal.
    unfold cap. destruct (_ >? _); [apply take_nil | done].
  - intros U um stats' (st & f & Hm & Hrun & ->)%get_mint_updates_ok t new
      Hin%elem_of_cap.
    destruct (run_loop_adds_only_changed _ _ _ _ _ _ _ _ Hrun _ Hin)
      as [Hnil|Hne]; [by apply elem_of_nil in Hnil | done].
Qed.

(** C7 (as amended).  With a cap N > 0: whenever resolving the policy for
    every matched transaction in encounter order runs to completion,
    get_mint_updates returns the first N (at most) of the updates so
    approved, in the same order, the approved updates following the order of
    the matched transactions.  Whenever get_mint_updates returns, its list
    is the first N (at most) of the updates approved for the transactions
    the loop visited; these are all the matched transactions, unless the
    loop was left early, which happens only in the interactive mode at a
    changed, previously tagged transaction once N updates are collected: the
    transactions from there on are not examined. *)
Theorem update_cap_truncates api args keys renames orders refunds trans
    stats_in st :
  0 < num_updates args →
  match_all (filter_trans args trans) orders refunds fresh_state = Ok st →
  let matched_trans :=
    List.filter (has_orders st) (filter_trans args trans) in
  (∀ approved stats_all cursor_all,
     resolve_all_spec api args keys renames st matched_trans stats_in 0
     = Ok (approved, stats_all, cursor_all) →
     (∃ stats',
        get_mint_updates api args keys renames orders refunds trans stats_in
        = Ok (take (Z.to_nat (num_updates args)) approved,
              still_unmatched_orders st orders
              ++ still_unmatched_orders st refunds, stats')) ∧
     approved.*1 `sublist_of` matched_trans) ∧
  (∀ U um stats',
     get_mint_updates api args keys renames orders refunds trans stats_in
     = Ok (U, um, stats') →
     ∃ visited rest approved stats_v cursor_v,
       matched_trans = visited ++ rest ∧
       resolve_all_spec api args keys renames st visited stats_in 0
       = Ok (approved, stats_v, cursor_v) ∧
       U = take (Z.to_nat (num_updates args)) approved ∧
       (rest = [] ∨
        (prompt_retag args = true ∧
         num_updates args ≤ Z.of_nat (length approved)))).
Proof.
  intros HN Hm matched_trans.
  assert (Hcap : ∀ l, cap args l = take (Z.to_nat (num_updates args)) l).
  { intros l. unfold cap. apply Z.gtb_lt in HN. by rewrite HN. }
  split.
  - intros approved sa ca Hall. split.
    + rewrite (get_mint_updates_eq _ _ _ _ _ _ _ _ _ Hm).
      destruct (run_loop_refines api args keys renames st matched_trans
                  {| stats := stats_in; updates := []; cursor := 0 |}
                  approved sa ca Hall) as (f & Hf & Hc).
      unfold update_loop. fold matched_trans. rewrite Hf. simpl.
      exists (stats (after f)). by rewrite Hc, Hcap.
    + by eapply resolve_all_spec_sublist.
  - intros U um stats' Hg.
    rewrite (get_mint_updates_eq _ _ _ _ _ _ _ _ _ Hm) in Hg.
    unfold update_loop in Hg. fold matched_trans in Hg.
    destruct (run_loop api args keys renames st matched_trans _)
      as [f| |] eqn:Hrun; simpl in Hg; try done.
    injection Hg as <- _ _.
    destruct (run_loop_resolved _ _ _ _ _ _ _ _ Hrun)
      as (vis & rest & app & sv & cv & Hsplit & Hall & Hu & Hf).
    simpl in Hall, Hu. exists vis, rest, app, sv, cv.
    split; [done|]. split; [done|]. split; [by rewrite Hu, Hcap|].
    destruct f as [s'|sb]; [left; by destruct Hf|right].
    destruct Hf as (_ & Hp & Hc). split; [done|].
    unfold cap_reached in Hc. apply andb_true_iff in Hc as [_ Hc].
    simpl in Hu. rewrite Hu in Hc. by apply Z.geb_le in Hc.
Qed.

(** ** The theorems on the sample data *)





Lemma reconciliation_is_fatal_witness :
  update_loop (sample_api 10 50) (sample_args false false 0)
    (sample_keys "x") None sample_matched ([] ++ sample_t1 :: [sample_t2])
    loop0
  = Raise AssertionError.
Proof.
  apply (proj1 (proj2 (reconciliation_is_fatal (sample_api 10 50)
           (sample_args false false 0) (sample_keys "x") None sample_matched))
           [] sample_t1 [sample_t2] loop0 loop0).
  - reflexivity.
  - reflexivity.
  - vm_compute. reflexivity.
Defined.

Lemma rerun_emits_nothing_witness :
  ∃ stats',
    get_mint_updates (sample_api 10 0) (sample_args false false 0)
      (sample_keys "x") None sample_orders [] [sample_t1_tagged] stats0
    = Ok ([], still_unmatched_orders
                (apply_match sample_t1_tagged [sample_o1] fresh_state)
                sample_orders
              ++ still_unmatched_orders
                   (apply_match sample_t1_tagged [sample_o1] fresh_state) [],
          stats') ∧
    already_up_to_date stats'
    = already_up_to_date stats0
      + Z.of_nat (length (List.filter
                            (has_orders (apply_match sample_t1_tagged
                                           [sample_o1] fresh_state))
                            (filter_trans (sample_args false false 0)
                               [sample_t1_tagged]))).
Proof.
  apply (proj1 (rerun_emits_nothing (sample_api 10 0)
                  (sample_args false false 0) (sample_keys "x") None
                  sample_orders [] [sample_t1_tagged] stats0)).
  - vm_compute. reflexivity.
  - intros t Ht _.
    assert (Hf : filter_trans (sample_args false false 0) [sample_t1_tagged]
                 = [sample_t1_tagged]) by (vm_compute; reflexivity).
    rewrite Hf in Ht. apply list_elem_of_singleton in Ht. subst t.
    do 3 eexists. split; vm_compute; reflexivity.
Defined.

Lemma update_cap_truncates_witness :
  (∃ stats',
     get_mint_updates (sample_api 10 0) (sample_args true false 1)
       (sample_keys "y") None sample_orders sample_refunds sample_rerun_trans
       stats0
     = Ok (take (Z.to_nat (num_updates (sample_args true false 1)))
             sample_resolved,
           still_unmatched_orders sample_rerun_matched sample_orders
           ++ still_unmatched_orders sample_rerun_matched sample_refunds,
           stats')) ∧
  sample_resolved.*1
    `sublist_of` List.filter (has_orders sample_rerun_matched)
                   (filter_trans (sample_args true false 1)
                      sample_rerun_trans).
Proof.
  refine (proj1 (update_cap_truncates (sample_api 10 0)
                   (sample_args true false 1) (sample_keys "y") None
                   sample_orders sample_refunds sample_rerun_trans stats0
                   sample_rerun_matched _ _)
            sample_resolved
            (count_retag (count_new_tag (count_new_tag stats0))) 1%nat _).
  - simpl. lia.
  - vm_compute. reflexivity.
  - vm_compute. reflexivity.
Defined.

(** The resolved list of the sample has three updates, the capped run
    returns the first. *)
Example sample_resolved_updates :
  length sample_resolved = 3%nat ∧
  take 1 sample_resolved
  = [(sample_t2, [with_merchant_amount sample_t2 "Amazon.com: 222-2" 27000000;
                  with_merchant_amount sample_t2 "Amazon.com: 222-2" 15000000])].
Proof. split; vm_compute; reflexivity. Qed.

(** C7, counterexample: in the interactive mode with a cap of 1, the first
    matched transaction is newly tagged and the second was tagged before and
    has changed.  The loop stops there, the cap being reached, and
    get_mint_updates returns one update; resolving the policy for all the
    matched transactions shows the prompt for the second one, where the key
    read is control-C, and exits with status 1 instead of returning a list
    to truncate. *)
Lemma capped_prompt_run_returns_where_resolving_all_exits :
  get_mint_updates (sample_api 10 0) (sample_args true false 1)
    (sample_keys "003") None sample_orders sample_refunds sample_rerun_trans
    stats0
  = Ok ([(sample_t2,
          [with_merchant_amount sample_t2 "Amazon.com: 222-2" 27000000;
           with_merchant_amount sample_t2 "Amazon.com: 222-2" 15000000])],
        [], count_new_tag stats0) ∧
  List.filter (has_orders sample_rerun_matched)
    (filter_trans (sample_args true false 1) sample_rerun_trans)
  = [sample_t2; sample_t1_stale; sample_t3] ∧
  resolve_all_spec (sample_api 10 0) (sample_args true false 1)
    (sample_keys "003") None sample_rerun_matched
    [sample_t2; sample_t1_stale; sample_t3] stats0 0
  = Exit 1.
Proof. repeat split; vm_compute; reflexivity. Qed.

(** C8, counterexample: the key "x", neither a yes nor a no, does not abort
    the run; the run returns, with the transaction counted as
    user_skipped_retag. *)
Lemma malformed_key_is_skipped :
  get_mint_updates (sample_api 10 0) (sample_args true false 0)
    (sample_keys "x") None sample_orders [] [sample_t1_stale] stats0
  = Ok ([], [sample_o2; sample_o3], count_user_skipped_retag stats0).
Proof. vm_compute. reflexivity. Qed.

Lemma prompt_outcomes_witness :
  (∀ c, resolve (sample_api 10 0) (sample_args true false 0)
          (sample_keys "x") sample_t1_stale "Amazon.com: " sample_t1_entry
          loop0 = Exit c ↔
        sample_keys "x" (cursor loop0) = "003"%char ∧ c = 1) ∧
  (∀ e, resolve (sample_api 10 0) (sample_args true false 0)
          (sample_keys "x") sample_t1_stale "Amazon.com: " sample_t1_entry
          loop0 ≠ Raise e) ∧
  (is_yes (sample_keys "x" (cursor loop0)) = true →
     resolve (sample_api 10 0) (sample_args true false 0)
       (sample_keys "x") sample_t1_stale "Amazon.com: " sample_t1_entry loop0
     = Ok (Next (append_update (sample_t1_stale, sample_t1_entry)
                   (with_stats count_retag (read_key loop0))))) ∧
  (sample_keys "x" (cursor loop0) ≠ "003"%char →
   is_yes (sample_keys "x" (cursor loop0)) = false →
     resolve (sample_api 10 0) (sample_args true false 0)
       (sample_keys "x") sample_t1_stale "Amazon.com: " sample_t1_entry loop0
     = Ok (Next (with_stats count_user_skipped_retag (read_key loop0)))).
Proof.
  apply (prompt_outcomes (sample_api 10 0) (sample_args true false 0)
           (sample_keys "x") sample_t1_stale "Amazon.com: " sample_t1_entry
           loop0); vm_compute; reflexivity.
Defined.

(** * Further properties *)

(** ** The matching engine: what a call changes and what it leaves *)

Lemma scan_ok_dated t st groups : ∀ b b',
  scan t st b groups = Ok b' →
  Forall (λ g, is_Some (next_with_date g)) groups.
Proof.
  induction groups as [|g groups IH]; intros b b'; [constructor|]. simpl.
  unfold consider at 1. destruct (next_with_date g) as [[o d]|] eqn:E; [|done].
  unfold obj_truthy. cbn [negb].
  destruct (_ && _); simpl; intros H; (constructor; [done | by eapply IH]).
Qed.

Lemma mark_best_ok_or_stop t groups st :
  (∃ st', mark_best_as_matched t groups st = Ok st') ∨
  mark_best_as_matched t groups st = Raise StopIteration.
Proof.
  rewrite mark_best_unfold.
  destruct (scan t st best0 groups) as [b|e|c] eqn:Hs; simpl.
  - left. destruct (chosen b); by eexists.
  - right. by destruct (scan_raise_only_stop _ _ _ _ _ Hs) as [-> _].
  - by destruct (scan_never_exits _ _ _ _ _ Hs).
Qed.

(** The two ways a call returns: nothing eligible and nothing changed, or an
    eligible group of the bucket applied. *)
Lemma mark_best_returns t groups st st' :
  mark_best_as_matched t groups st = Ok st' →
  Forall (λ g, is_Some (next_with_date g)) groups ∧
  ((st' = st ∧ ∀ g, g ∈ groups → eligible t st g = false) ∨
   (∃ g, g ∈ groups ∧ eligible t st g = true ∧ st' = apply_match t g st)).
Proof.
  rewrite mark_best_unfold.
  destruct (scan t st best0 groups) as [b| |] eqn:Hs; simpl; try done.
  pose proof (scan_ok_dated _ _ _ _ _ Hs) as Hdated.
  pose proof (scan_inv_run t st groups [] best0 b (scan_inv_start t st)) as Hinv.
  specialize (Hinv ltac:(simpl; lia) Hs). simpl in Hinv.
  rewrite (chosen_of_inv _ _ _ _ Hinv). unfold scan_inv in Hinv.
  destruct (fst b) as [g|]; intros [= <-]; (split; [done|]).
  - right. destruct Hinv as (i & Hi & He & _). exists g.
    split; [by eapply list_elem_of_lookup_2 | done].
  - left. by destruct Hinv.
Qed.

Lemma apply_match_refs t g st :
  matched_refs (apply_match t g st)
  = list_to_set (obj_ref <$> g) ∪ matched_refs st.
Proof. apply fold_obj_match_refs. Qed.

Lemma apply_match_orders t g st :
  trans_orders (apply_match t g st) = <[trans_ref t := g]> (trans_orders st).
Proof.
  unfold apply_match, trans_match. simpl. by rewrite fold_obj_match_orders.
Qed.

Lemma eligible_nonempty t st g : eligible t st g = true → g ≠ [].
Proof. by intros (_ & ? & _)%eligible_inv. Qed.

Lemma has_orders_apply_match t g st t' :
  g ≠ [] →
  has_orders (apply_match t g st) t' =
  if decide (trans_ref t = trans_ref t') then true else has_orders st t'.
Proof.
  intros Hne. unfold has_orders, orders_of.
  rewrite apply_match_orders, lookup_insert.
  destruct (decide (trans_ref t = trans_ref t')); [|done].
  simpl. by destruct g.
Qed.

(** Flags are only ever set, and a transaction with a group keeps having
    one. *)
Lemma mark_best_grows t groups st st' :
  mark_best_as_matched t groups st = Ok st' →
  matched_refs st ⊆ matched_refs st' ∧
  (∀ t', has_orders st t' = true → has_orders st' t' = true) ∧
  (∀ ref, ref ≠ trans_ref t →
          trans_orders st' !! ref = trans_orders st !! ref).
Proof.
  intros [_ [[-> _]|(g & Hg & He & ->)]]%mark_best_returns; [done|].
  apply eligible_nonempty in He. split; [|split].
  - rewrite apply_match_refs. set_solver.
  - intros t' H. rewrite has_orders_apply_match by done.
    by destruct (decide _).
  - intros ref Hne. rewrite apply_match_orders. by rewrite lookup_insert_ne.
Qed.

Lemma match_each_grows m l : ∀ st st',
  match_each m l st = Ok st' →
  matched_refs st ⊆ matched_refs st' ∧
  (∀ t', has_orders st t' = true → has_orders st' t' = true) ∧
  (∀ ref, ref ∉ trans_ref <$> l →
          trans_orders st' !! ref = trans_orders st !! ref).
Proof.
  induction l as [|t l IH]; intros st st'; simpl.
  - by intros [= <-].
  - destruct (mark_best_as_matched t _ st) as [s1| |] eqn:E; simpl; try done.
    intros (H1 & H2 & H3)%IH.
    destruct (mark_best_grows _ _ _ _ E) as (G1 & G2 & G3).
    split; [set_solver|]. split; [auto|].
    intros ref Hnin. rewrite H3, G3; [done| |].
    + intros ->. apply Hnin. by left.
    + intros Hin. apply Hnin. by right.
Qed.

Lemma matched_mono st st' o :
  matched_refs st ⊆ matched_refs st' → matched st' o = false →
  matched st o = false.
Proof.
  unfold matched. intros Hsub H%bool_decide_eq_false.
  apply bool_decide_eq_false. set_solver.
Qed.

Lemma eligible_mono t st st' g :
  matched_refs st ⊆ matched_refs st' →
  eligible t st' g = true → eligible t st g = true.
Proof.
  unfold eligible. intros Hsub. destruct (day_gap t g); [|done].
  intros [Hn Hm%negb_true_iff]%andb_true_iff. rewrite Hn. simpl.
  apply negb_true_iff, already_matched_false.
  intros o Ho Hin. apply (proj1 (already_matched_false st' g) Hm o Ho).
  by apply Hsub.
Qed.

Lemma not_true_false (b : bool) : b ≠ true → b = false.
Proof. by destruct b. Qed.

(** A transaction the pass leaves without a group had, when the pass ended,
    no eligible candidate in its bucket, and every candidate of the bucket of
    a transaction of the list has a dated member. *)
Lemma match_each_leftover m l : ∀ st st',
  match_each m l st = Ok st' →
  ∀ t, t ∈ l →
    (∀ g, g ∈ bucket m (amount t) → is_Some (next_with_date g)) ∧
    (has_orders st' t = false →
     ∀ g, g ∈ bucket m (amount t) → eligible t st' g = false).
Proof.
  induction l as [|t0 l IH]; intros st st'; simpl.
  - by intros _ t ?%elem_of_nil.
  - destruct (mark_best_as_matched t0 _ st) as [s1| |] eqn:E; simpl; try done.
    intros Hrest t [->|Ht]%elem_of_cons; [|by eapply IH].
    destruct (mark_best_returns _ _ _ _ E) as [Hdated Hcase].
    destruct (match_each_grows _ _ _ _ Hrest) as (G1 & G2 & _).
    split. { intros g Hg. by apply (proj1 (Forall_forall _ _) Hdated). }
    intros Hno g Hg. apply not_true_false. intros He.
    destruct Hcase as [[-> Hnone]|(g0 & Hg0 & He0 & ->)].
    + apply (eligible_mono _ _ _ _ G1) in He. by rewrite Hnone in He.
    + rewrite G2 in Hno; [done|].
      rewrite has_orders_apply_match by by eapply eligible_nonempty.
      by rewrite decide_True.
Qed.

Lemma filter_sublist_impl {A} (f g : A → bool) (l : list A) :
  (∀ x, f x = true → g x = true) →
  List.filter f l `sublist_of` List.filter g l.
Proof.
  intros H. induction l as [|x l IH]; simpl; [constructor|].
  destruct (f x) eqn:Ef.
  - rewrite (H _ Ef). by constructor.
  - destruct (g x); [by constructor | done].
Qed.

Lemma filter_sublist {A} (f : A → bool) (l1 l2 : list A) :
  l1 `sublist_of` l2 → List.filter f l1 `sublist_of` List.filter f l2.
Proof.
  induction 1 as [|x l1 l2 _ IH|x l1 l2 _ IH]; simpl.
  - constructor.
  - destruct (f x); [by constructor | done].
  - destruct (f x); [by constructor | done].
Qed.

Lemma still_unmatched_orders_mono st st' os :
  matched_refs st ⊆ matched_refs st' →
  still_unmatched_orders st' os `sublist_of` still_unmatched_orders st os.
Proof.
  intros Hsub. apply filter_sublist_impl. intros o Ho%negb_true_iff.
  apply negb_true_iff. by eapply matched_mono.
Qed.

Lemma all_combos_mono os1 os2 c :
  os1 `sublist_of` os2 → c ∈ all_combos os1 → c ∈ all_combos os2.
Proof.
  intros Hsub (oid & Hc & Hlen)%elem_of_all_combos.
  apply elem_of_all_combos. exists oid. split; [|done].
  etrans; [exact Hc|]. by apply filter_sublist.
Qed.

Lemma all_combos_members os c o :
  c ∈ all_combos os → o ∈ c → o ∈ os.
Proof.
  intros (oid & Hc & _)%elem_of_all_combos Ho.
  apply (sublist_subseteq _ _ Hc) in Ho.
  apply list_elem_of_In, filter_In in Ho as [Ho _]. by apply list_elem_of_In.
Qed.

Lemma elem_of_still_unmatched_orders st os o :
  o ∈ still_unmatched_orders st os ↔ o ∈ os ∧ matched st o = false.
Proof.
  unfold still_unmatched_orders.
  by rewrite !list_elem_of_In, filter_In, negb_true_iff.
Qed.

Lemma elem_of_still_unmatched_trans st ts t :
  t ∈ still_unmatched_trans st ts ↔ t ∈ ts ∧ has_orders st t = false.
Proof.
  unfold still_unmatched_trans.
  by rewrite !list_elem_of_In, filter_In, negb_true_iff.
Qed.

Lemma match_transactions_passes ts os st st' :
  match_transactions ts os st = Ok st' →
  ∃ st1,
    match_each (pass_a_buckets os) ts st = Ok st1 ∧
    match_each (pass_b_buckets (still_unmatched_orders st1 os))
      (still_unmatched_trans st1 ts) st1 = Ok st'.
Proof.
  unfold match_transactions.
  destruct (match_each (pass_a_buckets os) ts st) as [st1| |] eqn:E;
    simpl; try done.
  intros H. by exists st1.
Qed.

(** X1.  What match_transactions leaves unmatched is not matchable: when a
    call returns and a transaction of its list has no group, every order of
    the call with the transaction's amount that is still unmatched has a
    date at least 4 days from the transaction's, and so has every
    combination of still-unmatched orders of one identifier that sums to the
    transaction's amount. *)
Theorem no_compatible_leftover ts os st st' t :
  match_transactions ts os st = Ok st' →
  t ∈ ts → has_orders st' t = false →
  (∀ o, o ∈ os → transact_amount o = amount t → matched st' o = false →
        ∃ d, transact_date o = Some d ∧ 4 ≤ Z.abs (odate t - d)) ∧
  (∀ c, c ∈ all_combos (still_unmatched_orders st' os) →
        sum_transact_amounts c = amount t →
        ∃ n, day_gap t c = Some n ∧ 4 ≤ n).
Proof.
  intros (st1 & Ha & Hb)%match_transactions_passes Ht Hno.
  destruct (match_each_grows _ _ _ _ Hb) as (G1 & G2 & _).
  assert (Hno1 : has_orders st1 t = false).
  { apply not_true_false. intros H. by rewrite (G2 _ H) in Hno. }
  split.
  - intros o Ho Hamt Hm.
    destruct (match_each_leftover _ _ _ _ Ha t Ht) as [Hdated Hnone].
    assert (Hin : [o] ∈ bucket (pass_a_buckets os) (amount t)).
    { apply elem_of_pass_a_bucket. by exists o. }
    specialize (Hnone Hno1 _ Hin). specialize (Hdated _ Hin).
    destruct Hdated as [[o' d] Hd]. simpl in Hd.
    destruct (transact_date o) as [d0|] eqn:Ed; [|done].
    exists d0. split; [done|].
    assert (He : eligible t st' [o] = false).
    { apply not_true_false. intros He.
      apply (eligible_mono _ _ _ _ G1) in He. congruence. }
    unfold eligible, day_gap in He. simpl in He. rewrite Ed in He.
    unfold already_matched in He. simpl in He. rewrite Hm in He. simpl in He.
    rewrite andb_true_r in He. by apply Z.ltb_ge in He.
  - intros c Hc Hsum.
    assert (Ht1 : t ∈ still_unmatched_trans st1 ts)
      by by apply elem_of_still_unmatched_trans.
    destruct (match_each_leftover _ _ _ _ Hb t Ht1) as [Hdated Hnone].
    assert (Hin : c ∈ bucket (pass_b_buckets (still_unmatched_orders st1 os))
                          (amount t)).
    { apply elem_of_pass_b_bucket. split; [|done].
      eapply all_combos_mono; [|exact Hc].
      by apply still_unmatched_orders_mono. }
    specialize (Hnone Hno _ Hin). specialize (Hdated _ Hin).
    unfold eligible in Hnone. unfold day_gap in *.
    destruct (next_with_date c) as [[o d]|]; [|by destruct Hdated].
    eexists. split; [done|].
    assert (Hfree : already_matched st' c = false).
    { apply already_matched_false. intros o' Ho' Hin'.
      pose proof (all_combos_members _ _ _ Hc Ho') as Hmem.
      apply elem_of_still_unmatched_orders in Hmem as [_ Hm].
      unfold matched in Hm. by apply bool_decide_eq_false in Hm. }
    rewrite Hfree in Hnone. simpl in Hnone. rewrite andb_true_r in Hnone.
    by apply Z.ltb_ge in Hnone.
Qed.

Lemma no_compatible_leftover_witness :
  (∀ o, o ∈ [sample_o_far] → transact_amount o = amount sample_t1 →
        matched fresh_state o = false →
        ∃ d, transact_date o = Some d ∧ 4 ≤ Z.abs (odate sample_t1 - d)) ∧
  (∀ c, c ∈ all_combos (still_unmatched_orders fresh_state [sample_o_far]) →
        sum_transact_amounts c = amount sample_t1 →
        ∃ n, day_gap sample_t1 c = Some n ∧ 4 ≤ n).
Proof.
  apply (no_compatible_leftover [sample_t1] [sample_o_far] fresh_state
           fresh_state sample_t1).
  - vm_compute. reflexivity.
  - by left.
  - vm_compute. reflexivity.
Defined.

(** *** When a call returns *)

Lemma match_each_ok_or_stop m l : ∀ st,
  (∃ st', match_each m l st = Ok st') ∨
  match_each m l st = Raise StopIteration.
Proof.
  induction l as [|t l IH]; intros st; simpl; [left; by eexists|].
  destruct (mark_best_ok_or_stop t (bucket m (amount t)) st) as [[s1 ->]| ->];
    simpl; [apply IH | by right].
Qed.

Lemma match_each_returns m l : ∀ st,
  (∀ t g, t ∈ l → g ∈ bucket m (amount t) → is_Some (next_with_date g)) →
  ∃ st', match_each m l st = Ok st'.
Proof.
  induction l as [|t l IH]; intros st H; simpl; [by eexists|].
  destruct (scan_returns t st (bucket m (amount t)) best0) as [b Hb].
  { apply Forall_forall. intros g Hg. apply (H t g); [by left | done]. }
  rewrite mark_best_unfold, Hb. simpl.
  destruct (chosen b); simpl; apply IH; intros t' g' Ht'; apply H; by right.
Qed.

Lemma match_each_raises m l : ∀ st t g,
  t ∈ l → g ∈ bucket m (amount t) → next_with_date g = None →
  match_each m l st = Raise StopIteration.
Proof.
  induction l as [|t0 l IH]; intros st t g Ht Hg Hn; [by apply elem_of_nil in Ht|].
  simpl. apply elem_of_cons in Ht as [->|Ht].
  - rewrite mark_best_unfold, scan_raises; [done|].
    apply Exists_exists. exists g. split; [done|].
    by apply next_with_date_none.
  - destruct (mark_best_ok_or_stop t0 (bucket m (amount t0)) st)
      as [[s1 ->]| ->]; simpl; [by eapply IH | done].
Qed.

Lemma dated_group_has_date g :
  g ≠ [] → (∀ o, o ∈ g → is_Some (transact_date o)) →
  is_Some (next_with_date g).
Proof.
  destruct g as [|o g]; [done|]. intros _ H. simpl.
  destruct (H o ltac:(by left)) as [d ->]. by eexists.
Qed.

(** X2.  match_transactions returns whenever every order it is given has a
    transaction date; it can fail only with StopIteration; and it does fail
    so as soon as an order without a date has the amount of one of the
    transactions. *)
Theorem match_transactions_returns_iff_dated ts os st :
  ((∀ o, o ∈ os → is_Some (transact_date o)) →
   ∃ st', match_transactions ts os st = Ok st') ∧
  ((∃ st', match_transactions ts os st = Ok st') ∨
   match_transactions ts os st = Raise StopIteration) ∧
  (∀ o t, o ∈ os → t ∈ ts → transact_date o = None →
          transact_amount o = amount t →
          match_transactions ts os st = Raise StopIteration).
Proof.
  split; [|split].
  - intros Hd. unfold match_transactions.
    destruct (match_each_returns (pass_a_buckets os) ts st) as [st1 ->].
    { intros t g _ (o & Ho & -> & _)%elem_of_pass_a_bucket.
      apply dated_group_has_date; [done|].
      intros o' ->%list_elem_of_singleton. by apply Hd. }
    simpl. apply match_each_returns.
    intros t g _ [Hc _]%elem_of_pass_b_bucket.
    apply dated_group_has_date.
    + apply elem_of_all_combos in Hc as (_ & _ & Hl). intros ->. simpl in Hl. lia.
    + intros o Ho. apply Hd.
      by apply (all_combos_members _ _ _ Hc), elem_of_still_unmatched_orders
        in Ho as [Ho _].
  - unfold match_transactions.
    destruct (match_each_ok_or_stop (pass_a_buckets os) ts st)
      as [[st1 ->]| ->]; simpl; [|by right].
    apply match_each_ok_or_stop.
  - intros o t Ho Ht Hn Hamt. unfold match_transactions.
    rewrite (match_each_raises _ _ st t [o]); [done | done | |].
    + apply elem_of_pass_a_bucket. by exists o.
    + simpl. by rewrite Hn.
Qed.

Lemma match_transactions_dated_returns ts os st :
  (∀ o, o ∈ os → is_Some (transact_date o)) →
  ∃ st', match_transactions ts os st = Ok st'.
Proof.
  intros Hd. unfold match_transactions.
  destruct (match_each_returns (pass_a_buckets os) ts st) as [st1 ->].
  { intros t g _ (o & Ho & -> & _)%elem_of_pass_a_bucket.
    apply dated_group_has_date; [done|].
    intros o' ->%list_elem_of_singleton. by apply Hd. }
  simpl. apply match_each_returns.
  intros t g _ [Hc _]%elem_of_pass_b_bucket.
  apply dated_group_has_date.
  - apply elem_of_all_combos in Hc as (_ & _ & Hl). intros ->. simpl in Hl. lia.
  - intros o Ho. apply Hd.
    by apply (all_combos_members _ _ _ Hc), elem_of_still_unmatched_orders
      in Ho as [Ho _].
Qed.

Lemma match_raises_in_get_mint_updates api args keys renames orders refunds
    trans stats_in o t :
  o ∈ orders → transact_date o = None →
  t ∈ filter_trans args trans → transact_amount o = amount t →
  get_mint_updates api args keys renames orders refunds trans stats_in
  = Raise StopIteration.
Proof.
  intros Ho Hn Ht Hamt. unfold get_mint_updates, match_all, match_transactions.
  rewrite (match_each_raises _ _ fresh_state t [o]); [done | done | |].
  - apply elem_of_pass_a_bucket. by exists o.
  - simpl. by rewrite Hn.
Qed.

Lemma propose_never_stops api args renames st t s :
  propose api args renames st t s ≠ Raise StopIteration.
Proof.
  rewrite propose_eq. destruct (is_debit t).
  - rewrite build_debit_eq. simpl.
    destruct (reconciled api t _); simpl; [|done].
    unfold finish. by destruct (micro_usd_nearly_equal api _ _).
  - unfold build_credit. destruct (Refund_merge api _) as [|r0 rs]; [done|].
    simpl. unfold finish. by destruct (micro_usd_nearly_equal api _ _).
Qed.

Lemma run_loop_never_stops api args keys renames st ts : ∀ s,
  run_loop api args keys renames st ts s ≠ Raise StopIteration.
Proof.
  induction ts as [|t ts IH]; intros s; simpl; [done|].
  unfold process.
  pose proof (propose_never_stops api args renames st t (stats s)) as Hp.
  destruct (propose api args renames st t (stats s))
    as [[[[s1 p] c] n]|e|]; simpl; [|congruence|done].
  unfold resolve.
  repeat (match goal with
          | |- context [if ?b then _ else _] => destruct b; simpl
          end; try done); apply IH.
Qed.

(** X3.  get_mint_updates matches only the orders that kept at least one
    item after the item filters and the association (line 251).  Such an
    order without a transaction date whose amount equals the amount of a
    transaction that passes the input filters makes get_mint_updates raise
    StopIteration, whatever the other orders, the refunds and the options
    are.  When every order that kept an item has a date, and every refund
    has one, the matching returns and get_mint_updates does not raise
    StopIteration, whatever the orders without items are. *)
Theorem undated_order_with_items_aborts_run (Item : Type)
    (is_cancelled : Item → bool) (order_status : Item → string)
    (quantity : Item → Z) (split_by_quantity : Item → list Item)
    (associate_items_with_orders :
       list AmazonObj → list Item → AmazonObj → list Item)
    (unsplit : list Transaction → list Transaction)
    api args keys renames orders items refunds trans stats_in :
  let items_of :=
    items_of Item is_cancelled order_status quantity split_by_quantity
      associate_items_with_orders orders items in
  let run :=
    get_mint_updates_from_items Item is_cancelled order_status quantity
      split_by_quantity associate_items_with_orders unsplit api args keys
      renames orders items refunds trans stats_in in
  (∀ o t, o ∈ orders → items_of o ≠ [] → transact_date o = None →
          t ∈ filter_trans args (unsplit trans) →
          transact_amount o = amount t →
          run = Raise StopIteration) ∧
  ((∀ o, o ∈ orders → items_of o ≠ [] → is_Some (transact_date o)) →
   (∀ r, r ∈ refunds → is_Some (transact_date r)) →
   run ≠ Raise StopIteration ∧
   ∃ st, match_all (filter_trans args (unsplit trans))
           (orders_with_items Item is_cancelled order_status quantity
              split_by_quantity associate_items_with_orders orders items)
           refunds fresh_state = Ok st).
Proof.
  intros items_of0 run.
  assert (Hin : ∀ o, o ∈ orders_with_items Item is_cancelled order_status
                       quantity split_by_quantity associate_items_with_orders
                       orders items ↔ o ∈ orders ∧ items_of0 o ≠ []).
  { intros o. unfold orders_with_items.
    rewrite list_elem_of_In, filter_In, <- list_elem_of_In.
    fold (items_of0 o). destruct (items_of0 o); naive_solver. }
  split.
  - intros o t Ho Hit Hn Ht Hamt. unfold run, get_mint_updates_from_items.
    apply (match_raises_in_get_mint_updates _ _ _ _ _ _ _ _ o t); try done.
    by apply Hin.
  - intros Hd Hr.
    assert (Hm : ∃ st, match_all (filter_trans args (unsplit trans))
              (orders_with_items Item is_cancelled order_status quantity
                 split_by_quantity associate_items_with_orders orders items)
              refunds fresh_state = Ok st).
    { unfold match_all.
      destruct (match_transactions_dated_returns
                  (filter_trans args (unsplit trans))
                  (orders_with_items Item is_cancelled order_status quantity
                     split_by_quantity associate_items_with_orders orders
                     items) fresh_state) as [st1 ->].
      { intros o [Ho Hit]%Hin. by apply Hd. }
      simpl. by apply match_transactions_dated_returns. }
    split; [|done]. destruct Hm as [st Hm].
    unfold run, get_mint_updates_from_items, get_mint_updates.
    rewrite Hm. simpl. unfold update_loop.
    pose proof (run_loop_never_stops api args keys renames st
                  (List.filter (has_orders st)
                     (filter_trans args (unsplit trans)))
                  {| stats := stats_in; updates := []; cursor := 0 |}) as Hl.
    destruct (run_loop _ _ _ _ _ _ _) as [f|e|]; simpl; [done| |done].
    congruence.
Qed.

(** On the samples: the undated order aborts the run when an item bears
    its identifier. *)
Lemma undated_order_with_items_aborts_run_witness :
  sample_get_mint_updates [sample_o1; sample_o_unshipped] ["111-1"; "666-6"]
    [sample_t1]
  = Raise StopIteration.
Proof.
  refine (proj1 (undated_order_with_items_aborts_run string _ _ _ _
                   sample_associate _ (sample_api 10 0)
                   (sample_args false false 0) (sample_keys "x") None
                   [sample_o1; sample_o_unshipped] ["111-1"; "666-6"]%string
                   [] [sample_t1] stats0)
            sample_o_unshipped sample_t1 _ _ _ _ _).
  - right. by left.
  - vm_compute. discriminate.
  - reflexivity.
  - vm_compute. by left.
  - reflexivity.
Defined.

(** Without an item of its own the undated order is dropped, and the run
    returns. *)
Example undated_order_without_items_is_dropped :
  ∃ r, sample_get_mint_updates [sample_o1; sample_o_unshipped] ["111-1"]
         [sample_t1] = Ok r.
Proof. eexists. vm_compute. reflexivity. Qed.

(** *** The groups a call forms *)

Lemma mark_best_groups (P : list AmazonObj → Prop) t groups st st' :
  groups_satisfy P st → (∀ g, g ∈ groups → P g) →
  mark_best_as_matched t groups st = Ok st' → groups_satisfy P st'.
Proof.
  intros Hst Hall [_ [[-> _]|(g & Hg & He & ->)]]%mark_best_returns; [done|].
  intros ref g'. rewrite apply_match_orders, lookup_insert.
  destruct (decide (trans_ref t = ref)).
  - intros [= <-] _. by apply Hall.
  - apply Hst.
Qed.

Lemma match_each_groups (P : list AmazonObj → Prop) m l : ∀ st st',
  groups_satisfy P st → (∀ k g, g ∈ bucket m k → P g) →
  match_each m l st = Ok st' → groups_satisfy P st'.
Proof.
  induction l as [|t l IH]; intros st st' Hst Hall; simpl.
  - by intros [= <-].
  - destruct (mark_best_as_matched t _ st) as [s1| |] eqn:E; simpl; try done.
    apply IH; [|done]. eapply mark_best_groups; [exact Hst | | exact E].
    intros g. apply Hall.
Qed.

Lemma pass_a_group_of os k g :
  g ∈ bucket (pass_a_buckets os) k → group_of os g.
Proof.
  intros (o & Ho & -> & _)%elem_of_pass_a_bucket. split.
  - by intros o' ->%list_elem_of_singleton.
  - by intros o1 o2 ->%list_elem_of_singleton ->%list_elem_of_singleton.
Qed.

Lemma pass_b_group_of st os k g :
  g ∈ bucket (pass_b_buckets (still_unmatched_orders st os)) k →
  group_of os g.
Proof.
  intros [Hc _]%elem_of_pass_b_bucket. split.
  - intros o Ho. by apply (all_combos_members _ _ _ Hc),
      elem_of_still_unmatched_orders in Ho as [? _].
  - apply elem_of_all_combos in Hc as (oid & Hc & _).
    assert (Hid : ∀ o, o ∈ g → order_id o = oid).
    { intros o Ho. apply (sublist_subseteq _ _ Hc) in Ho.
      by apply list_elem_of_In, filter_In in Ho as [_ ?%String.eqb_eq]. }
    intros o1 o2 H1 H2. by rewrite (Hid _ H1), (Hid _ H2).
Qed.

Lemma match_transactions_groups (P : list AmazonObj → Prop) ts os st st' :
  groups_satisfy P st → (∀ g, group_of os g → P g) →
  match_transactions ts os st = Ok st' → groups_satisfy P st'.
Proof.
  intros Hst HP (st1 & Ha & Hb)%match_transactions_passes.
  eapply match_each_groups; [| |exact Hb].
  - eapply match_each_groups; [exact Hst| |exact Ha].
    intros k g Hg. by eapply HP, pass_a_group_of.
  - intros k g Hg. by eapply HP, pass_b_group_of.
Qed.

Lemma match_all_passes trans orders refunds st st' :
  match_all trans orders refunds st = Ok st' →
  ∃ st1, match_transactions trans orders st = Ok st1 ∧
         match_transactions (still_unmatched_trans st1 trans) refunds st1
         = Ok st'.
Proof.
  unfold match_all.
  destruct (match_transactions trans orders st) as [st1| |]; simpl; try done.
  intros H. by exists st1.
Qed.

(** X4.  After the two matching calls of get_mint_updates, the group of a
    matched transaction is made either of orders only or of refunds only,
    all taken from the lists given, and all its members have the same order
    identifier: orders of different purchases, and orders with refunds, are
    never charged to one transaction. *)
Theorem matched_group_is_one_purchase trans orders refunds st' t :
  match_all trans orders refunds fresh_state = Ok st' →
  orders_of st' t ≠ [] →
  ((∀ o, o ∈ orders_of st' t → o ∈ orders) ∨
   (∀ o, o ∈ orders_of st' t → o ∈ refunds)) ∧
  (∀ o1 o2, o1 ∈ orders_of st' t → o2 ∈ orders_of st' t →
            order_id o1 = order_id o2).
Proof.
  intros (st1 & H1 & H2)%match_all_passes Hne.
  set (P := λ g, group_of orders g ∨ group_of refunds g).
  assert (Hs : groups_satisfy P st').
  { eapply (match_transactions_groups P); [| |exact H2].
    - eapply (match_transactions_groups P); [| |exact H1].
      + intros ref g. simpl. by rewrite lookup_empty.
      + intros g Hg. by left.
    - intros g Hg. by right. }
  unfold orders_of in *.
  destruct (trans_orders st' !! trans_ref t) as [g|] eqn:E; [|done].
  simpl in *. destruct (Hs _ _ E Hne) as [[Hin Hid]|[Hin Hid]].
  - split; [by left | done].
  - split; [by right | done].
Qed.

Lemma matched_group_is_one_purchase_witness :
  ((∀ o, o ∈ orders_of sample_matched sample_t2 → o ∈ sample_orders) ∨
   (∀ o, o ∈ orders_of sample_matched sample_t2 → o ∈ sample_refunds)) ∧
  (∀ o1 o2, o1 ∈ orders_of sample_matched sample_t2 →
            o2 ∈ orders_of sample_matched sample_t2 →
            order_id o1 = order_id o2).
Proof.
  apply (matched_group_is_one_purchase sample_trans sample_orders
           sample_refunds sample_matched sample_t2).
  - vm_compute. reflexivity.
  - vm_compute. discriminate.
Defined.

(** *** Flags and groups agree *)

Lemma has_orders_lookup st t t' :
  trans_orders st !! trans_ref t = trans_orders st !! trans_ref t' →
  has_orders st t = has_orders st t'.
Proof. unfold has_orders, orders_of. by intros ->. Qed.

Lemma apply_match_linked ts t g st :
  linked ts st → t ∈ ts → has_orders st t = false → g ≠ [] →
  linked ts (apply_match t g st).
Proof.
  intros [Hflag Hdom] Ht Hno Hne. split.
  - intros r. rewrite apply_match_refs, elem_of_union, elem_of_list_to_set.
    intros [Hr|Hr].
    + apply list_elem_of_fmap in Hr as (o & -> & Ho).
      exists (trans_ref t), g, o. rewrite apply_match_orders.
      by rewrite lookup_insert_eq.
    + destruct (Hflag r Hr) as (ref & g0 & o & Hent & Ho & Hro).
      exists ref, g0, o. rewrite apply_match_orders.
      rewrite lookup_insert_ne; [done|]. intros <-.
      unfold has_orders, orders_of in Hno. rewrite Hent in Hno. simpl in Hno.
      destruct g0; [by apply elem_of_nil in Ho | done].
  - intros ref g'. rewrite apply_match_orders, lookup_insert.
    destruct (decide (trans_ref t = ref)) as [<-|]; [|apply Hdom].
    intros _ _. by exists t.
Qed.

Lemma match_each_linked ts m l : ∀ st st',
  linked ts st → l ⊆ ts → NoDup (trans_ref <$> l) →
  (∀ t, t ∈ l → has_orders st t = false) →
  match_each m l st = Ok st' → linked ts st'.
Proof.
  induction l as [|t l IH]; intros st st' Hlk Hsub Hnd Hun; simpl.
  - by intros [= <-].
  - destruct (mark_best_as_matched t _ st) as [s1| |] eqn:E; simpl; try done.
    rewrite fmap_cons in Hnd. apply NoDup_cons in Hnd as [Hnin Hnd].
    assert (Ht : t ∈ ts) by (apply Hsub; by left).
    assert (Hl : l ⊆ ts) by (intros x Hx; apply Hsub; by right).
    destruct (mark_best_grows _ _ _ _ E) as (_ & _ & Hframe).
    apply IH; [|done|done|].
    + destruct (mark_best_returns _ _ _ _ E)
        as [_ [[-> _]|(g & Hg & He & ->)]]; [done|].
      apply apply_match_linked; [done|done| |by eapply eligible_nonempty].
      apply Hun. by left.
    + intros t' Ht'.
      assert (Hne : trans_ref t' ≠ trans_ref t).
      { intros Heq. apply Hnin. rewrite <- Heq. apply list_elem_of_fmap.
        by exists t'. }
      unfold has_orders, orders_of. rewrite (Hframe _ Hne).
      apply (Hun t'). by right.
Qed.

Lemma NoDup_refs_filter (f : Transaction → bool) l :
  NoDup (trans_ref <$> l) → NoDup (trans_ref <$> List.filter f l).
Proof.
  induction l as [|t l IH]; [done|].
  rewrite fmap_cons. intros [Hnin Hnd]%NoDup_cons. cbn [List.filter].
  destruct (f t); [|by apply IH]. rewrite fmap_cons. apply NoDup_cons.
  split; [|by apply IH]. intros Hin. apply Hnin.
  apply list_elem_of_fmap in Hin as (t' & -> & Ht').
  apply list_elem_of_In, filter_In in Ht' as [Ht' _].
  apply list_elem_of_fmap. exists t'. by rewrite list_elem_of_In.
Qed.

Lemma match_transactions_linked ts l os st st' :
  linked ts st → l ⊆ ts → NoDup (trans_ref <$> l) →
  (∀ t, t ∈ l → has_orders st t = false) →
  match_transactions l os st = Ok st' → linked ts st'.
Proof.
  intros Hlk Hsub Hnd Hun (st1 & Ha & Hb)%match_transactions_passes.
  eapply match_each_linked; [| | | |exact Hb].
  - by eapply match_each_linked.
  - etrans; [apply still_unmatched_trans_subseteq | done].
  - by apply NoDup_refs_filter.
  - by intros t [_ ?]%elem_of_still_unmatched_trans.
Qed.

Lemma NoDup_refs_distinct l :
  NoDup (trans_ref <$> l) → distinct_objects l.
Proof.
  induction l as [|t l IH]; intros Hnd t1 t2 H1 H2 Heq.
  - by apply elem_of_nil in H1.
  - rewrite fmap_cons in Hnd. apply NoDup_cons in Hnd as [Hnin Hnd].
    apply elem_of_cons in H1 as [->|H1]; apply elem_of_cons in H2 as [->|H2].
    + done.
    + exfalso. apply Hnin. rewrite Heq. apply list_elem_of_fmap. by exists t2.
    + exfalso. apply Hnin. rewrite <- Heq. apply list_elem_of_fmap. by exists t1.
    + by apply IH.
Qed.

(** X5.  When the transactions are distinct objects, after the two matching
    calls of get_mint_updates an Order or Refund object is flagged matched
    exactly when it is a member of the group of some transaction: the
    unmatched objects reported are those no transaction holds, and no object
    is left flagged without a transaction. *)
Theorem matched_flag_iff_in_a_group trans orders refunds st' o :
  NoDup (trans_ref <$> trans) →
  match_all trans orders refunds fresh_state = Ok st' →
  (matched st' o = true ↔
   ∃ t o', t ∈ trans ∧ o' ∈ orders_of st' t ∧ obj_ref o' = obj_ref o).
Proof.
  intros Hnd Hm.
  pose proof (match_all_passes _ _ _ _ _ Hm) as (st1 & H1 & H2).
  assert (Hl0 : linked trans fresh_state).
  { split.
    - intros r Hr. simpl in Hr. set_solver.
    - intros ref g. simpl. by rewrite lookup_empty. }
  assert (Hl1 : linked trans st1).
  { eapply match_transactions_linked; [exact Hl0|done|done| |exact H1].
    intros t _. unfold has_orders, orders_of. simpl. by rewrite lookup_empty. }
  assert (Hl : linked trans st').
  { eapply match_transactions_linked; [exact Hl1| | | |exact H2].
    - apply still_unmatched_trans_subseteq.
    - by apply NoDup_refs_filter.
    - by intros t [_ ?]%elem_of_still_unmatched_trans. }
  assert (Hs : sound trans st').
  { pose proof (NoDup_refs_distinct _ Hnd) as Hd.
    eapply match_transactions_sound; [exact Hd| | |exact H2].
    - apply still_unmatched_trans_subseteq.
    - eapply match_transactions_sound; eauto using fresh_state_sound. }
  unfold matched. rewrite bool_decide_eq_true. split.
  - intros Hin. destruct Hl as [Hflag Hdom].
    destruct (Hflag _ Hin) as (ref & g & o' & Hent & Ho' & Hr).
    destruct (Hdom ref g Hent) as (t & Ht & <-).
    { intros ->. by apply elem_of_nil in Ho'. }
    exists t, o'. split; [done|]. unfold orders_of. by rewrite Hent.
  - intros (t & o' & Ht & Ho' & <-). unfold orders_of in Ho'.
    destruct (trans_orders st' !! trans_ref t) as [g|] eqn:E;
      [|by apply elem_of_nil in Ho'].
    by eapply (sound_flags _ _ Hs).
Qed.

Lemma matched_flag_iff_in_a_group_witness :
  matched sample_matched sample_o3 = true ↔
  ∃ t o', t ∈ sample_trans ∧ o' ∈ orders_of sample_matched t ∧
          obj_ref o' = obj_ref sample_o3.
Proof.
  apply (matched_flag_iff_in_a_group sample_trans sample_orders
           sample_refunds).
  - vm_compute. repeat constructor; set_solver.
  - vm_compute. reflexivity.
Defined.

(** X6.  The refund pass does not disturb the order pass: a transaction
    that the first call of match_transactions matched to orders keeps
    exactly that group after the second call, and no flag is cleared. *)
Theorem refund_pass_keeps_order_matches trans orders refunds st' :
  match_all trans orders refunds fresh_state = Ok st' →
  ∃ st1,
    match_transactions trans orders fresh_state = Ok st1 ∧
    (∀ t, has_orders st1 t = true → orders_of st' t = orders_of st1 t) ∧
    (∀ o, matched st1 o = true → matched st' o = true).
Proof.
  intros (st1 & H1 & H2)%match_all_passes. exists st1. split; [done|].
  apply match_transactions_passes in H2 as (st2 & Ha & Hb).
  destruct (match_each_grows _ _ _ _ Ha) as (A1 & _ & A3).
  destruct (match_each_grows _ _ _ _ Hb) as (B1 & _ & B3).
  split.
  - intros t Hhas. unfold orders_of.
    assert (Hnin : ∀ t', t' ∈ still_unmatched_trans st1 trans →
                         trans_ref t' ≠ trans_ref t).
    { intros t' [_ Hno]%elem_of_still_unmatched_trans Heq.
      rewrite (has_orders_lookup st1 t' t) in Hno by by rewrite Heq.
      congruence. }
    rewrite B3, A3; [done| |].
    + intros (t' & Heq & Ht')%list_elem_of_fmap. by apply (Hnin t').
    + intros (t' & Heq & [Ht' _]%elem_of_still_unmatched_trans)
               %list_elem_of_fmap.
      by apply (Hnin t').
  - intros o. unfold matched. rewrite !bool_decide_eq_true. set_solver.
Qed.

Lemma refund_pass_keeps_order_matches_witness :
  ∃ st1,
    match_transactions sample_trans sample_orders fresh_state = Ok st1 ∧
    (∀ t, has_orders st1 t = true →
          orders_of sample_matched t = orders_of st1 t) ∧
    (∀ o, matched st1 o = true → matched sample_matched o = true).
Proof.
  apply (refund_pass_keeps_order_matches sample_trans sample_orders
           sample_refunds sample_matched).
  vm_compute. reflexivity.
Defined.

(** ** The update loop: counters, modes and the returned list *)

Section LoopAccounting.

Variable api : Api.
Variable args : Args.
Variable keys : nat -> ascii.
Variable renames : option (gmap string string).
Variable st : MatchState.

#[local] Abbreviation propose2 := (propose api args renames st).
#[local] Abbreviation resolve2 := (resolve api args keys).
#[local] Abbreviation process2 := (process api args keys renames st).
#[local] Abbreviation run_loop2 := (run_loop api args keys renames st).

Lemma same_outcomes_refl s : same_outcomes s s.
Proof. by repeat split. Qed.

Lemma same_outcomes_trans s1 s2 s3 :
  same_outcomes s1 s2 → same_outcomes s2 s3 → same_outcomes s1 s3.
Proof.
  unfold same_outcomes. intros (?&?&?&?&?) (?&?&?&?&?).
  repeat split; congruence.
Qed.

Lemma personalize_all_outcomes nts : ∀ s,
  same_outcomes s (snd (personalize_all api renames nts s)).
Proof.
  induction nts as [|nt nts IH]; intros s; [apply same_outcomes_refl|].
  simpl.
  assert (Hp : same_outcomes s (snd (personalize api renames nt s))).
  { unfold personalize. destruct renames as [m|]; [|apply same_outcomes_refl].
    destruct (m !! _); [|apply same_outcomes_refl].
    destruct (String.eqb _ _); by repeat split. }
  destruct (personalize api renames nt s) as [n1 s1]. simpl in Hp.
  specialize (IH s1).
  destruct (personalize_all api renames nts s1) as [r1 s2]. simpl in *.
  by eapply same_outcomes_trans.
Qed.

Lemma finish_outcomes t s p c b s' p' c' n :
  finish api args renames t s p c b = Ok (s', p', c', n) →
  same_outcomes s s'.
Proof.
  unfold finish. destruct (micro_usd_nearly_equal api _ _); [|done].
  cbv zeta. intros [= <- <- <- <-]. apply personalize_all_outcomes.
Qed.

(** Building a proposal touches none of the outcome counters, and never
    exits. *)
Lemma propose_outcomes t stats stats' prefix cands new :
  propose2 t stats = Ok (stats', prefix, cands, new) →
  same_outcomes stats stats'.
Proof.
  rewrite propose_eq. destruct (is_debit t).
  - rewrite build_debit_eq. simpl.
    destruct (reconciled api t _); simpl; [|done].
    intros H%finish_outcomes. eapply same_outcomes_trans; [|exact H].
    destruct (fst (fst _)), (snd (fst _)); by repeat split.
  - unfold build_credit. destruct (Refund_merge api _) as [|r0 rs]; [done|].
    simpl. apply finish_outcomes.
Qed.

Lemma propose_never_exits t stats c : propose2 t stats ≠ Exit c.
Proof.
  rewrite propose_eq. destruct (is_debit t).
  - rewrite build_debit_eq. simpl.
    destruct (reconciled api t _); simpl; [|done].
    unfold finish. by destruct (micro_usd_nearly_equal api _ _).
  - unfold build_credit. destruct (Refund_merge api _) as [|r0 rs]; [done|].
    simpl. unfold finish. by destruct (micro_usd_nearly_equal api _ _).
Qed.

Lemma process_inv t s f :
  process2 t s = Ok f →
  ∃ s1 p c n,
    propose2 t (stats s) = Ok (s1, p, c, n) ∧
    resolve2 t p n (with_stats (λ _, s1) s) = Ok f.
Proof.
  unfold process.
  destruct (propose2 t (stats s)) as [[[[s1 p] c] n]| |]; simpl; try done.
  intros H. by exists s1, p, c, n.
Qed.

(** What one policy decision does to the counters and the list. *)
Lemma resolve_accounts t p n s f :
  resolve2 t p n s = Ok f →
  match f with
  | Next s' =>
      outcomes (stats s') = outcomes (stats s) + 1 ∧
      applied (stats s') - Z.of_nat (length (updates s'))
      = applied (stats s) - Z.of_nat (length (updates s))
  | Break s' =>
      s' = s ∧ prompt_retag args = true ∧ cap_reached args s = true
  end.
Proof.
  unfold resolve, outcomes, applied.
  destruct (old_and_new_are_identical _ _ _ _).
  { intros [= <-]. simpl. lia. }
  destruct (previously_tagged _ _ _).
  2:{ intros [= <-]. simpl. rewrite length_app. simpl. lia. }
  destruct (prompt_retag args).
  - destruct (cap_reached args s) eqn:Hc. { by intros [= <-]. }
    destruct (Ascii.eqb _ _); [done|].
    destruct (negb _); intros [= <-]; simpl; [lia|].
    rewrite length_app. simpl. lia.
  - destruct (negb _); intros [= <-]; simpl; [lia|].
    rewrite length_app. simpl. lia.
Qed.

Lemma process_accounts t s f :
  process2 t s = Ok f →
  match f with
  | Next s' =>
      outcomes (stats s') = outcomes (stats s) + 1 ∧
      applied (stats s') - Z.of_nat (length (updates s'))
      = applied (stats s) - Z.of_nat (length (updates s))
  | Break s' =>
      applied (stats s') - Z.of_nat (length (updates s'))
      = applied (stats s) - Z.of_nat (length (updates s)) ∧
      prompt_retag args = true ∧ 0 < num_updates args
  end.
Proof.
  intros (s1 & p & c & n & Hprop & Hres)%process_inv.
  apply propose_outcomes in Hprop as (Ha & Hn & Hnr & Hr & Hu).
  apply resolve_accounts in Hres. destruct f as [s'|s']; simpl in *.
  - unfold outcomes, applied in *. simpl in *. lia.
  - destruct Hres as (-> & Hp & Hc). unfold applied. simpl.
    split; [lia|]. split; [done|].
    unfold cap_reached in Hc. apply andb_true_iff in Hc as [Hc _]. lia.
Qed.

Lemma run_loop_accounts ts : ∀ s f,
  run_loop2 ts s = Ok f →
  applied (stats (after f)) - Z.of_nat (length (updates (after f)))
  = applied (stats s) - Z.of_nat (length (updates s)) ∧
  match f with
  | Next s' =>
      outcomes (stats s') = outcomes (stats s) + Z.of_nat (length ts)
  | Break _ => prompt_retag args = true ∧ 0 < num_updates args
  end.
Proof.
  induction ts as [|t ts IH]; intros s f; simpl.
  - intros [= <-]. simpl. lia.
  - destruct (process2 t s) as [f1| |] eqn:Hp; simpl; try done.
    apply process_accounts in Hp. destruct f1 as [s1|s1].
    + intros [H1 H2]%IH. split; [lia|]. destruct f; [lia | done].
    + intros [= <-]. simpl. destruct Hp as (? & ? & ?). done.
Qed.

(** Every update added comes with the prefix of its proposal and the
    decision that added it. *)
Lemma run_loop_emitted_by ts : ∀ s f,
  run_loop2 ts s = Ok f →
  ∀ u, u ∈ updates (after f) →
       u ∈ updates s ∨
       ∃ s0 s1 p c f1,
         u.1 ∈ ts ∧
         propose2 u.1 (stats s0) = Ok (s1, p, c, u.2) ∧
         resolve2 u.1 p u.2 (with_stats (λ _, s1) s0) = Ok f1 ∧
         updates (after f1) = updates s0 ++ [u].
Proof.
  induction ts as [|t ts IH]; intros s f; simpl.
  - intros [= <-] u Hu. by left.
  - destruct (process2 t s) as [f1| |] eqn:Hp; simpl; try done.
    destruct (process_inv _ _ _ Hp) as (s1 & p & c & n & Hprop & Hres).
    assert (Hstep : ∀ u, u ∈ updates (after f1) →
              u ∈ updates s ∨
              ∃ s0 s1 p c f1,
                u.1 ∈ t :: ts ∧
                propose2 u.1 (stats s0) = Ok (s1, p, c, u.2) ∧
                resolve2 u.1 p u.2 (with_stats (λ _, s1) s0) = Ok f1 ∧
                updates (after f1) = updates s0 ++ [u]).
    { intros u Hu. destruct (resolve_updates _ _ _ _ _ _ _ _ Hres) as [Hup|Hup];
        rewrite Hup in Hu; simpl in Hu; [by left|].
      apply elem_of_app in Hu as [Hu|Hu%list_elem_of_singleton]; [by left|].
      subst u. right. exists s, s1, p, c, f1. simpl.
      split; [by left|]. done. }
    destruct f1 as [s2|s2].
    + intros Hrun u Hu.
      destruct (IH _ _ Hrun u Hu) as [Hin|(s0 & s1' & p' & c' & f' & Hin & H)].
      * apply (Hstep u Hin).
      * right. exists s0, s1', p', c', f'. split; [by right | done].
    + intros [= <-]. exact Hstep.
Qed.

Lemma run_loop_order ts : ∀ s f,
  run_loop2 ts s = Ok f →
  ∃ more, updates (after f) = updates s ++ more ∧ more.*1 `sublist_of` ts.
Proof.
  induction ts as [|t ts IH]; intros s f; simpl.
  - intros [= <-]. exists []. by rewrite app_nil_r.
  - destruct (process2 t s) as [f1| |] eqn:Hp; simpl; try done.
    destruct (process_inv _ _ _ Hp) as (s1 & p & c & n & _ & Hres).
    apply resolve_updates in Hres. simpl in Hres.
    destruct f1 as [s2|s2].
    + intros (more & Hm & Hsub)%IH. destruct Hres as [Hu|Hu].
      * exists more. split; [|by apply sublist_cons].
        rewrite Hm. simpl in Hu. by rewrite Hu.
      * exists ((t, n) :: more). split.
        -- rewrite Hm. simpl in Hu. rewrite Hu. by rewrite <- app_assoc.
        -- simpl. by apply sublist_skip.
    + intros [= <-]. destruct Hres as [Hu|Hu].
      * exists []. rewrite app_nil_r. split; [done|]. apply sublist_nil_l.
      * exists [(t, n)]. split; [done|]. simpl. apply sublist_skip.
        apply sublist_nil_l.
Qed.

End LoopAccounting.

Section LoopModes.

Variable api : Api.
Variable args : Args.
Variable renames : option (gmap string string).
Variable st : MatchState.

Lemma resolve_exit keys t p n s c :
  resolve api args keys t p n s = Exit c → prompt_retag args = true ∧ c = 1.
Proof.
  unfold resolve. destruct (old_and_new_are_identical _ _ _ _); [done|].
  destruct (previously_tagged _ _ _); [|done].
  destruct (prompt_retag args).
  - destruct (cap_reached _ _); [done|].
    destruct (Ascii.eqb _ _); [by intros [= <-]|]. by destruct (negb _).
  - by destruct (negb _).
Qed.

Lemma run_loop_exit keys ts : ∀ s c,
  run_loop api args keys renames st ts s = Exit c →
  prompt_retag args = true ∧ c = 1.
Proof.
  induction ts as [|t ts IH]; intros s c; simpl; [done|].
  unfold process at 1.
  destruct (propose api args renames st t (stats s))
    as [[[[s1 p] c0] n]| |] eqn:Hp; simpl; try done.
  - destruct (resolve api args keys t p n _) as [[s2|s2]| |] eqn:Hr;
      simpl; try done.
    + apply IH.
    + intros [= <-]. by eapply resolve_exit.
  - intros [= <-]. by destruct (propose_never_exits api args renames st t
                                   (stats s) code).
Qed.

Lemma resolve_keys_irrelevant keys keys' t p n s :
  prompt_retag args = false →
  resolve api args keys t p n s = resolve api args keys' t p n s.
Proof. intros H. unfold resolve. by rewrite H. Qed.

Lemma run_loop_keys_irrelevant keys keys' ts : ∀ s,
  prompt_retag args = false →
  run_loop api args keys renames st ts s
  = run_loop api args keys' renames st ts s.
Proof.
  induction ts as [|t ts IH]; intros s H; simpl; [done|].
  unfold process.
  destruct (propose api args renames st t (stats s))
    as [[[[s1 p] c0] n]| |]; simpl; try done.
  rewrite (resolve_keys_irrelevant keys keys') by done.
  destruct (resolve api args keys' t p n _) as [[s2|s2]| |]; simpl; try done.
  by apply IH.
Qed.

(** With both retag modes off, an update is only ever added for a
    transaction that was not tagged before. *)
Lemma resolve_adds_untagged keys t p n s f :
  prompt_retag args = false → retag_changed args = false →
  resolve api args keys t p n s = Ok f →
  updates (after f) = updates s ++ [(t, n)] →
  previously_tagged args p t = false.
Proof.
  intros Hp Hr. unfold resolve. rewrite Hp, Hr. simpl.
  destruct (old_and_new_are_identical _ _ _ _).
  { intros [= <-] Hu. simpl in Hu. apply (f_equal length) in Hu.
    rewrite length_app in Hu. simpl in Hu. lia. }
  destruct (previously_tagged _ _ _); [|done].
  intros [= <-] Hu. simpl in Hu. apply (f_equal length) in Hu.
  rewrite length_app in Hu. simpl in Hu. lia.
Qed.

End LoopModes.

Lemma get_mint_updates_inv api args keys renames orders refunds trans stats_in
    U um stats' :
  get_mint_updates api args keys renames orders refunds trans stats_in
  = Ok (U, um, stats') →
  ∃ st f,
    match_all (filter_trans args trans) orders refunds fresh_state = Ok st ∧
    run_loop api args keys renames st
      (List.filter (has_orders st) (filter_trans args trans))
      {| stats := stats_in; updates := []; cursor := 0 |} = Ok f ∧
    U = cap args (updates (after f)) ∧
    um = still_unmatched_orders st orders ++ still_unmatched_orders st refunds ∧
    stats' = stats (after f).
Proof.
  unfold get_mint_updates.
  destruct (match_all _ _ _ _) as [st| |] eqn:Hm; simpl; try done.
  unfold update_loop.
  destruct (run_loop _ _ _ _ _ _ _) as [f| |] eqn:Hrun; simpl; try done.
  intros [= <- <- <-]. exists st, f. by rewrite Hrun.
Qed.

Lemma length_cap args (l : list update) :
  (length (cap args l) ≤ length l)%nat ∧
  (num_updates args ≤ 0 → cap args l = l) ∧
  (0 < num_updates args → Z.of_nat (length (cap args l)) ≤ num_updates args).
Proof.
  unfold cap. destruct (num_updates args >? 0) eqn:E.
  - apply Z.gtb_lt in E. rewrite length_take. repeat split; lia.
  - rewrite Z.gtb_ltb in E. apply Z.ltb_ge in E. repeat split; lia.
Qed.

(** X7.  The counters account for the returned list: the number of updates
    returned never exceeds the increase of new_tag + retag, and equals it
    when no cap is set; and unless the interactive mode runs with a cap, the
    five outcome counters (already_up_to_date, new_tag, no_retag, retag,
    user_skipped_retag) together increase by exactly the number of matched
    transactions, one outcome each. *)
Theorem counters_account_for_updates api args keys renames orders refunds trans
    stats_in U um stats' :
  get_mint_updates api args keys renames orders refunds trans stats_in
  = Ok (U, um, stats') →
  Z.of_nat (length U) ≤ applied stats' - applied stats_in ∧
  (num_updates args ≤ 0 →
   Z.of_nat (length U) = applied stats' - applied stats_in) ∧
  (prompt_retag args = false ∨ num_updates args ≤ 0 →
   ∃ st,
     match_all (filter_trans args trans) orders refunds fresh_state = Ok st ∧
     outcomes stats' - outcomes stats_in
     = Z.of_nat (length (List.filter (has_orders st)
                           (filter_trans args trans)))).
Proof.
  intros (st & f & Hm & Hrun & -> & _ & ->)%get_mint_updates_inv.
  destruct (run_loop_accounts _ _ _ _ _ _ _ _ Hrun) as [Happ Hout].
  simpl in Happ.
  destruct (length_cap args (updates (after f))) as (Hle & Heq & _).
  split; [lia|]. split.
  - intros HN. rewrite (Heq HN). lia.
  - intros Hmode. exists st. split; [done|].
    destruct f as [s'|s']; simpl in *; [lia|].
    destruct Hout as [Hp HN]. destruct Hmode; [congruence | lia].
Qed.

Lemma counters_account_for_updates_witness :
  Z.of_nat (length [(sample_t2, sample_t2_entries)])
  ≤ applied (count_new_tag stats0) - applied stats0 ∧
  (num_updates (sample_args false false 0) ≤ 0 →
   Z.of_nat (length [(sample_t2, sample_t2_entries)])
   = applied (count_new_tag stats0) - applied stats0) ∧
  (prompt_retag (sample_args false false 0) = false
   ∨ num_updates (sample_args false false 0) ≤ 0 →
   ∃ st,
     match_all (filter_trans (sample_args false false 0) [sample_t2])
       [sample_o2; sample_o3] [] fresh_state = Ok st ∧
     outcomes (count_new_tag stats0) - outcomes stats0
     = Z.of_nat (length (List.filter (has_orders st)
                           (filter_trans (sample_args false false 0)
                              [sample_t2])))).
Proof.
  apply (counters_account_for_updates (sample_api 10 5)
           (sample_args false false 0) (sample_keys "x") None
           [sample_o2; sample_o3] [] [sample_t2] stats0
           [(sample_t2, sample_t2_entries)] [] (count_new_tag stats0)).
  vm_compute. reflexivity.
Defined.

(** X8.  With both retag modes off (neither --prompt_retag nor
    --retag_changed), get_mint_updates never returns an update for a
    transaction that was tagged before: the description of every updated
    transaction starts with none of the Amazon domains and not with the
    prefix of its proposal. *)
Theorem retag_off_never_rewrites api args keys renames orders refunds trans
    stats_in U um stats' t new :
  prompt_retag args = false → retag_changed args = false →
  get_mint_updates api args keys renames orders refunds trans stats_in
  = Ok (U, um, stats') →
  (t, new) ∈ U →
  ∃ st stats1 stats2 prefix cands,
    propose api args renames st t stats1 = Ok (stats2, prefix, cands, new) ∧
    previously_tagged args prefix t = false ∧
    (∀ pre, pre ∈ split_comma (lower (amazon_domains args)) ++ [lower prefix] →
            startswith (lower (merchant t)) pre = false).
Proof.
  intros Hp Hr (st & f & Hm & Hrun & -> & _ & _)%get_mint_updates_inv
    Hin%elem_of_cap.
  destruct (run_loop_emitted_by _ _ _ _ _ _ _ _ Hrun _ Hin)
    as [Hnil|(s0 & s1 & p & c & f1 & _ & Hprop & Hres & Hup)].
  { by apply elem_of_nil in Hnil. }
  simpl in *. exists st, (stats s0), s1, p, c. split; [done|].
  pose proof (resolve_adds_untagged _ _ _ _ _ _ _ _ Hp Hr Hres Hup) as Hun.
  split; [done|]. intros pre Hpre. apply not_true_false. intros Hs.
  unfold previously_tagged in Hun.
  assert (Hex : existsb (λ pre, startswith (lower (merchant t)) pre)
                  (split_comma (lower (amazon_domains args)) ++ [lower p])
                = true).
  { apply existsb_exists. exists pre. by rewrite <- list_elem_of_In. }
  congruence.
Qed.

Lemma retag_off_never_rewrites_witness :
  ∃ st stats1 stats2 prefix cands,
    propose (sample_api 10 5) (sample_args false false 0) None st sample_t2
      stats1 = Ok (stats2, prefix, cands, sample_t2_entries) ∧
    previously_tagged (sample_args false false 0) prefix sample_t2 = false ∧
    (∀ pre, pre ∈ split_comma (lower (amazon_domains
                                        (sample_args false false 0)))
                  ++ [lower prefix] →
            startswith (lower (merchant sample_t2)) pre = false).
Proof.
  apply (retag_off_never_rewrites (sample_api 10 5)
           (sample_args false false 0) (sample_keys "x") None
           [sample_o2; sample_o3] [] [sample_t2] stats0
           [(sample_t2, sample_t2_entries)] [] (count_new_tag stats0)).
  - reflexivity.
  - reflexivity.
  - vm_compute. reflexivity.
  - by left.
Defined.

Lemma list_filter_sublist {A} (f : A → bool) (l : list A) :
  List.filter f l `sublist_of` l.
Proof.
  induction l as [|x l IH]; simpl; [constructor|].
  destruct (f x); by constructor.
Qed.

(** X9.  The updates get_mint_updates returns are for transactions of its
    input, each at most once and in input order; every updated transaction
    is not pending, passes the merchant and category filters and was matched
    to at least one order or refund; and with a cap N > 0 at most N updates
    are returned. *)
Theorem updates_are_for_matched_input api args keys renames orders refunds
    trans stats_in U um stats' :
  get_mint_updates api args keys renames orders refunds trans stats_in
  = Ok (U, um, stats') →
  ∃ st,
    match_all (filter_trans args trans) orders refunds fresh_state = Ok st ∧
    U.*1 `sublist_of` trans ∧
    (∀ t, t ∈ U.*1 →
          is_pending t = false ∧ merchant_ok args t = true ∧
          category_ok args t = true ∧ orders_of st t ≠ []) ∧
    (0 < num_updates args → Z.of_nat (length U) ≤ num_updates args).
Proof.
  intros (st & f & Hm & Hrun & -> & _ & _)%get_mint_updates_inv.
  exists st. split; [done|].
  destruct (run_loop_order _ _ _ _ _ _ _ _ Hrun) as (more & Hu & Hsub).
  simpl in Hu. subst more.
  assert (Hcap : (cap args (updates (after f))).*1
                 `sublist_of` (updates (after f)).*1).
  { apply fmap_sublist. unfold cap. destruct (_ >? _); [apply sublist_take|done]. }
  assert (Hmt : (cap args (updates (after f))).*1
                `sublist_of` List.filter (has_orders st)
                               (filter_trans args trans))
    by (etrans; [exact Hcap | exact Hsub]).
  split; [|split].
  - etrans; [exact Hmt|]. etrans; [apply list_filter_sublist|].
    unfold filter_trans.
    etrans; [apply list_filter_sublist|].
    etrans; [apply list_filter_sublist|]. apply list_filter_sublist.
  - intros t Ht. apply (sublist_subseteq _ _ Hmt) in Ht.
    apply list_elem_of_In, filter_In in Ht as [Ht Hh].
    apply list_elem_of_In, elem_of_filter_trans in Ht as (_ & ? & ? & ?).
    repeat split; try done. unfold has_orders in Hh.
    by destruct (orders_of st t).
  - apply length_cap.
Qed.

Lemma updates_are_for_matched_input_witness :
  ∃ st,
    match_all (filter_trans (sample_args false false 0) [sample_t2])
      [sample_o2; sample_o3] [] fresh_state = Ok st ∧
    [(sample_t2, sample_t2_entries)].*1 `sublist_of` [sample_t2] ∧
    (∀ t, t ∈ [(sample_t2, sample_t2_entries)].*1 →
          is_pending t = false ∧
          merchant_ok (sample_args false false 0) t = true ∧
          category_ok (sample_args false false 0) t = true ∧
          orders_of st t ≠ []) ∧
    (0 < num_updates (sample_args false false 0) →
     Z.of_nat (length [(sample_t2, sample_t2_entries)])
     ≤ num_updates (sample_args false false 0)).
Proof.
  apply (updates_are_for_matched_input (sample_api 10 5)
           (sample_args false false 0) (sample_keys "x") None
           [sample_o2; sample_o3] [] [sample_t2] stats0
           [(sample_t2, sample_t2_entries)] [] (count_new_tag stats0)).
  vm_compute. reflexivity.
Defined.

Lemma match_transactions_ok_or_stop ts os st :
  (∃ st', match_transactions ts os st = Ok st') ∨
  match_transactions ts os st = Raise StopIteration.
Proof.
  unfold match_transactions.
  destruct (match_each_ok_or_stop (pass_a_buckets os) ts st)
    as [[st1 ->]| ->]; simpl; [|by right].
  apply match_each_ok_or_stop.
Qed.

Lemma match_all_never_exits trans orders refunds st c :
  match_all trans orders refunds st ≠ Exit c.
Proof.
  unfold match_all.
  destruct (match_transactions_ok_or_stop trans orders st)
    as [[st1 ->]| ->]; simpl; [|done].
  by destruct (match_transactions_ok_or_stop
                 (still_unmatched_trans st1 trans) refunds st1)
    as [[st2 ->]| ->].
Qed.

(** X10.  The console matters only in the interactive mode: without
    --prompt_retag the result of get_mint_updates does not depend on the
    keys typed, and the run never exits; in any mode an exit has status 1. *)
Theorem console_only_in_prompt_mode api args keys renames orders refunds trans
    stats_in :
  (∀ c, get_mint_updates api args keys renames orders refunds trans stats_in
        = Exit c → prompt_retag args = true ∧ c = 1) ∧
  (prompt_retag args = false →
   ∀ keys', get_mint_updates api args keys' renames orders refunds trans
              stats_in
            = get_mint_updates api args keys renames orders refunds trans
                stats_in).
Proof.
  split.
  - intros c. unfold get_mint_updates.
    destruct (match_all _ _ _ _) as [st| |] eqn:Hm; simpl; try done.
    + unfold update_loop.
      destruct (run_loop _ _ _ _ _ _ _) as [f| |] eqn:Hrun; simpl; try done.
      intros [= <-]. by eapply run_loop_exit.
    + intros [= <-]. by apply match_all_never_exits in Hm.
  - intros Hp keys'. unfold get_mint_updates.
    destruct (match_all _ _ _ _) as [st| |]; simpl; try done.
    unfold update_loop. by rewrite (run_loop_keys_irrelevant _ _ _ _ keys' keys).
Qed.

(** ** send_updates_to_mint *)

Lemma sum_Z_split_amounts orig new :
  sum_Z (split_amount orig <$> new)
  = if is_debit orig then sum_amounts new else - sum_amounts new.
Proof.
  induction new as [|t new IH].
  - simpl. by destruct (is_debit orig).
  - rewrite fmap_cons. unfold sum_Z in *. cbn [foldr]. rewrite IH.
    unfold split_amount. destruct (is_debit orig); simpl; lia.
Qed.

Lemma length_zip_with_same {A B C} (f : A → B → C) (l : list A) :
  ∀ k : list B, length l = length k → length (zip_with f l k) = length k.
Proof.
  induction l as [|a l IH]; intros [|b k]; simpl; try done.
  intros [= H]. by rewrite IH.
Qed.

Lemma filter_is_note_notes {F : Type} (client : MintClient F) ids :
  ∀ new, List.filter is_note (zip_with (note_request client) ids new)
         = zip_with (note_request client) ids new.
Proof.
  induction ids as [|i ids IH]; intros [|n new]; simpl; try done.
  by rewrite IH.
Qed.

Lemma notes_without_categories {F : Type} (client : MintClient F)
    (P : option (string * Z) → Prop) ids :
  ∀ new, Forall (λ r, Forall P (request_categories r))
                (zip_with (note_request client) ids new).
Proof.
  induction ids as [|i ids IH]; intros [|n new]; simpl; constructor;
    [constructor | apply IH].
Qed.

(** What one round of the loop adds to the requests posted. *)
Lemma send_update_posts {F : Type} (to_float : Z → F) client ignore_category u
    posted posted' :
  send_update to_float client ignore_category u posted = Ok posted' →
  ∃ more,
    posted' = posted ++ more ∧ length more = posts_for u ∧
    S (length (List.filter is_note more)) = length more ∧
    Forall (λ r, Forall (λ c, if ignore_category then c = None else is_Some c)
                        (request_categories r)) more.
Proof.
  destruct u as [orig new].
  destruct (decide (length new = 1%nat)) as [Hone|Hne].
  - destruct new as [|trans [|? ?]]; try done. simpl. intros [= <-].
    eexists. split; [done|]. repeat split.
    constructor; [|constructor]. constructor; [|constructor].
    unfold category_fields. by destruct ignore_category.
  - intros (ids & Hlen & ->)%send_update_split; [|done].
    eexists. split; [done|]. split; [|split].
    + simpl. rewrite length_zip_with_same by done. unfold posts_for. simpl.
      by destruct new as [|? [|? ?]].
    + simpl. by rewrite filter_is_note_notes.
    + constructor; [|apply notes_without_categories].
      simpl. rewrite map_map. apply List.Forall_map, Forall_forall.
      intros trans _. simpl. unfold category_fields.
      by destruct ignore_category.
Qed.

Lemma send_loop_posts {F : Type} (to_float : Z → F) client ignore_category
    updates : ∀ posted0 n0 posted n,
  send_loop to_float client ignore_category updates posted0 n0
  = Ok (posted, n) →
  n = n0 + Z.of_nat (length updates) ∧
  ∃ more,
    posted = posted0 ++ more ∧
    length more = sum_list (posts_for <$> updates) ∧
    (length (List.filter is_note more) + length updates)%nat = length more ∧
    Forall (λ r, Forall (λ c, if ignore_category then c = None else is_Some c)
                        (request_categories r)) more.
Proof.
  induction updates as [|u updates IH]; intros posted0 n0 posted n.
  - simpl. intros [= <- <-]. split; [lia|]. exists []. by rewrite app_nil_r.
  - cbn [send_loop].
    destruct (send_update _ _ _ u posted0) as [p1| |] eqn:Hu;
      cbn [mbind result_bind bind]; try done.
    intros (-> & more & -> & Hlen & Hnotes & Hcat)%IH.
    destruct (send_update_posts _ _ _ _ _ _ Hu)
      as (m1 & -> & Hl1 & Hn1 & Hc1).
    split; [rewrite length_cons; lia|].
    exists (m1 ++ more). split; [by rewrite app_assoc|].
    rewrite List.filter_app, !length_app, length_cons.
    change (sum_list (posts_for <$> u :: updates))
      with (posts_for u + sum_list (posts_for <$> updates))%nat.
    split; [lia|]. split; [simpl; lia|].
    by apply Forall_app.
Qed.

(** X11.  When send_updates_to_mint returns, the count it logs is the
    number of updates, not the number of requests: it posts one request for
    an update with a single entry and 1 + k for an update split into k
    entries, the split followed by one edit per child that sets its note.
    With ignore_category (--no_tag_categories) no request carries a
    category; without it the edit of a single entry and every child of a
    split carry one, while the note edits never do. *)
Theorem ignored_categories_are_not_sent {F : Type} (to_float : Z → F)
    (client : MintClient F) (updates : list update) (ignore_category : bool)
    (posted : list (request F)) (num_requests : Z) :
  send_updates_to_mint to_float updates client ignore_category
  = Ok (posted, num_requests) →
  num_requests = Z.of_nat (length updates) ∧
  length posted = sum_list (posts_for <$> updates) ∧
  (length (List.filter is_note posted) + length updates)%nat = length posted ∧
  Forall (λ r, Forall (λ c, if ignore_category then c = None else is_Some c)
                      (request_categories r)) posted ∧
  Forall (λ r, is_note r = true → request_categories r = []) posted.
Proof.
  unfold send_updates_to_mint.
  intros (-> & more & -> & Hlen & Hnotes & Hcat)%send_loop_posts.
  simpl. repeat split; try done.
  apply Forall_forall. by intros [] _.
Qed.

Lemma ignored_categories_are_not_sent_witness :
  2 = Z.of_nat (length sample_updates) ∧
  length sample_posted = sum_list (posts_for <$> sample_updates) ∧
  (length (List.filter is_note sample_posted) + length sample_updates)%nat
  = length sample_posted ∧
  Forall (λ r, Forall (λ c, if false then c = None else is_Some c)
                      (request_categories r)) sample_posted ∧
  Forall (λ r, is_note r = true → request_categories r = []) sample_posted.
Proof.
  apply (ignored_categories_are_not_sent millionths sample_client
           sample_updates false sample_posted 2).
  vm_compute. reflexivity.
Defined.

(** X12.  The amounts of a split are sent as floats, each twice (amount and
    percentAmount): they are the conversions of the entries' micro-USD
    amounts, negated first when the original transaction is a credit, and
    the amounts converted sum to the total of the proposed entries for a
    debit and to its negation for a credit.  The edit of a single entry and
    the note edits carry no amount. *)
Theorem split_children_sum_to_total {F : Type} (to_float : Z → F)
    (client : MintClient F) ignore_category orig new :
  let split := split_request to_float client ignore_category orig new in
  request_amounts split = to_float <$> (split_amount orig <$> new) ∧
  request_percent_amounts split = request_amounts split ∧
  sum_Z (split_amount orig <$> new)
  = (if is_debit orig then sum_amounts new else - sum_amounts new) ∧
  (∀ trans, request_amounts (modify_request client ignore_category trans)
            = ([] : list F)) ∧
  (∀ id trans, request_amounts (note_request client id trans)
               = ([] : list F)).
Proof.
  intros split. split; [|split; [|split; [|split]]]; try done.
  - unfold split, split_request. simpl. by rewrite !map_map.
  - unfold split, split_request. simpl. by rewrite !map_map.
  - apply sum_Z_split_amounts.
Qed.

(** ** The merchant filter and empty pieces *)

Lemma split_comma_nonempty s : split_comma s ≠ [].
Proof.
  destruct s as [|c s]; simpl; [done|].
  destruct (Ascii.eqb c ","); [done|]. by destruct (split_comma s).
Qed.

Lemma split_comma_trailing s :
  split_comma (s ++ ",") = split_comma s ++ [EmptyString].
Proof.
  induction s as [|c s IH]; simpl; [done|].
  rewrite IH. destruct (Ascii.eqb c ","); [done|].
  pose proof (split_comma_nonempty s). by destruct (split_comma s).
Qed.

Lemma lower_app s1 s2 : lower (s1 ++ s2) = (lower s1 ++ lower s2)%string.
Proof. induction s1 as [|c s1 IH]; simpl; [done | by rewrite IH]. Qed.

Lemma contains_empty hay : contains hay "" = true.
Proof. by destruct hay. Qed.

Lemma contains_in_empty needle : contains "" needle = true → needle = ""%string.
Proof. destruct needle; [done|]. simpl. done. Qed.

(** X13.  The merchant filter keeps every transaction exactly when one of
    the comma-separated pieces of the filter string is empty: an empty
    filter string, or one with a trailing comma, turns the filter off. *)
Theorem empty_piece_disables_merchant_filter (args : Args) :
  ((∀ t, merchant_ok args t = true) ↔
   EmptyString ∈ split_comma (lower (mint_input_merchant_filter args))) ∧
  (mint_input_merchant_filter args = ""%string →
   ∀ trans, List.filter (merchant_ok args) trans = trans) ∧
  (∀ f, mint_input_merchant_filter args = (f ++ ",")%string →
        ∀ trans, List.filter (merchant_ok args) trans = trans).
Proof.
  assert (Hiff : (∀ t, merchant_ok args t = true) ↔
     EmptyString ∈ split_comma (lower (mint_input_merchant_filter args))).
  { split.
    - intros H. specialize (H blank_trans).
      apply merchant_ok_spec in H as (s & Hs & Hc). simpl in Hc.
      by apply contains_in_empty in Hc as ->.
    - intros H t. apply merchant_ok_spec. exists ""%string.
      split; [done | apply contains_empty]. }
  assert (Hall : (∀ t, merchant_ok args t = true) →
                 ∀ trans, List.filter (merchant_ok args) trans = trans).
  { intros H trans. induction trans as [|t trans IH]; simpl; [done|].
    by rewrite H, IH. }
  split; [exact Hiff|]. split.
  - intros E. apply Hall, Hiff. rewrite E. simpl. by left.
  - intros f E. apply Hall, Hiff. rewrite E, lower_app. simpl.
    rewrite split_comma_trailing. apply elem_of_app. right. by left.
Qed.

(** ** Grouping by order identifier *)

Lemma oid_append_concat d k o :
  concat (oid_append d k o).*2 ≡ₚ o :: concat d.*2.
Proof.
  induction d as [|[k0 l] d IH]; simpl; [done|].
  destruct (String.eqb k0 k); simpl.
  - rewrite <- app_assoc. simpl.
    by rewrite <- Permutation_middle.
  - rewrite IH. by rewrite <- Permutation_middle.
Qed.

(** X14.  Grouping objects by order identifier (the dict of lists built in
    match_transactions and again in main for the unmatched report) loses and
    duplicates nothing: the groups concatenated are a permutation of the
    input; no group is empty, so [orders[0]] is always defined; each group
    is exactly the objects of one identifier, in input order; and no two
    groups have the same identifier. *)
Theorem grouping_by_order_id_partitions (os : list AmazonObj) :
  concat (oid_to_orders os).*2 ≡ₚ os ∧
  (∀ k l, (k, l) ∈ oid_to_orders os →
          l ≠ [] ∧ l = List.filter (λ o, String.eqb (order_id o) k) os) ∧
  NoDup (oid_to_orders os).*1.
Proof.
  split; [|split].
  - induction os as [|o os IH] using rev_ind; [done|].
    rewrite oid_to_orders_snoc, oid_append_concat, IH.
    by rewrite <- Permutation_cons_append.
  - intros k l Hin.
    pose proof (oid_get_of_elem _ _ _ (oid_keys_NoDup os) Hin) as Hget.
    rewrite oid_get_oid_to_orders in Hget. split; [|done].
    assert (Hk : k ∈ (oid_to_orders os).*1)
      by (apply list_elem_of_fmap; by exists (k, l)).
    apply oid_keys_elem in Hk as (o & Ho & Hoid). intros ->.
    assert (Hf : In o (List.filter (λ o, String.eqb (order_id o) k) os)).
    { apply filter_In. split; [by apply list_elem_of_In|]. by apply String.eqb_eq. }
    by rewrite Hget in Hf.
  - apply oid_keys_NoDup.
Qed.

(** ** get_mint_category_history_for_items *)

Lemma counter_get_incr c k k' :
  counter_get (counter_incr c k) k'
  = counter_get c k' + if String.eqb k k' then 1 else 0.
Proof.
  unfold counter_get. induction c as [|[k0 n] c IH]; simpl.
  - destruct (String.eqb k k'); simpl; lia.
  - destruct (String.eqb k0 k) eqn:E0; simpl.
    + apply String.eqb_eq in E0 as ->. destruct (String.eqb k k'); simpl; lia.
    + destruct (String.eqb k0 k') eqn:E1; simpl; [|exact IH].
      apply String.eqb_eq in E1 as ->. rewrite String.eqb_sym, E0. lia.
Qed.

Lemma counter_incr_keys c k :
  (counter_incr c k).*1 = if bool_decide (k ∈ c.*1) then c.*1 else c.*1 ++ [k].
Proof.
  induction c as [|[k0 n] c IH].
  - rewrite bool_decide_false; [done|]. apply not_elem_of_nil.
  - cbn [counter_incr]. destruct (String.eqb k0 k) eqn:E0.
    + apply String.eqb_eq in E0 as ->.
      rewrite bool_decide_true; [done|]. rewrite fmap_cons. by left.
    + apply String.eqb_neq in E0. rewrite !fmap_cons, IH. cbn [fst].
      destruct (bool_decide (k ∈ c.*1)) eqn:Ed.
      * apply bool_decide_eq_true in Ed.
        rewrite bool_decide_true; [done|]. by right.
      * apply bool_decide_eq_false in Ed. rewrite bool_decide_false; [done|].
        intros [?|?]%elem_of_cons; congruence.
Qed.

Lemma counter_incr_NoDup c k : NoDup c.*1 → NoDup (counter_incr c k).*1.
Proof.
  intros H. rewrite counter_incr_keys. destruct (bool_decide _) eqn:E; [done|].
  apply bool_decide_eq_false in E. apply NoDup_app. split; [done|]. split.
  - by intros x Hx ->%list_elem_of_singleton.
  - apply NoDup_singleton.
Qed.

Lemma counter_incr_nonempty c k : counter_incr c k ≠ [].
Proof. destruct c as [|[k0 n] c]; simpl; [done|]. by destruct (String.eqb _ _). Qed.

Lemma counter_get_of_elem c k n :
  NoDup c.*1 → (k, n) ∈ c → counter_get c k = n.
Proof.
  unfold counter_get. induction c as [|[k0 n0] c IH]; simpl.
  - by intros _ ?%elem_of_nil.
  - intros [Hnin Hnd]%NoDup_cons [[= -> ->]|Hin]%elem_of_cons.
    + by rewrite String.eqb_refl.
    + destruct (String.eqb k0 k) eqn:E; [|by apply IH].
      apply String.eqb_eq in E as ->. exfalso. apply Hnin.
      apply list_elem_of_fmap. by exists (k, n).
Qed.

Lemma counter_get_missing c k : k ∉ c.*1 → counter_get c k = 0.
Proof.
  unfold counter_get. induction c as [|[k0 n0] c IH]; simpl; [done|].
  intros Hnin. destruct (String.eqb k0 k) eqn:E.
  - apply String.eqb_eq in E as ->. exfalso. apply Hnin. by left.
  - apply IH. intros H. apply Hnin. by right.
Qed.

Lemma cats_find_tally d i k i' :
  cats_get (tally_item d i k) i'
  = if String.eqb i i' then counter_incr (cats_get d i') k else cats_get d i'.
Proof.
  unfold cats_get, cats_find. induction d as [|[i0 c] d IH]; simpl.
  - destruct (String.eqb i i'); done.
  - destruct (String.eqb i0 i) eqn:E0; simpl.
    + apply String.eqb_eq in E0 as ->. destruct (String.eqb i i'); done.
    + destruct (String.eqb i0 i') eqn:E1; simpl; [|exact IH].
      apply String.eqb_eq in E1 as ->. by rewrite String.eqb_sym, E0.
Qed.

Lemma tally_item_keys d i k :
  (tally_item d i k).*1 = if bool_decide (i ∈ d.*1) then d.*1 else d.*1 ++ [i].
Proof.
  induction d as [|[i0 c] d IH].
  - rewrite bool_decide_false; [done|]. apply not_elem_of_nil.
  - cbn [tally_item]. destruct (String.eqb i0 i) eqn:E0.
    + apply String.eqb_eq in E0 as ->.
      rewrite bool_decide_true; [done|]. rewrite fmap_cons. by left.
    + apply String.eqb_neq in E0. rewrite !fmap_cons, IH. cbn [fst].
      destruct (bool_decide (i ∈ d.*1)) eqn:Ed.
      * apply bool_decide_eq_true in Ed.
        rewrite bool_decide_true; [done|]. by right.
      * apply bool_decide_eq_false in Ed. rewrite bool_decide_false; [done|].
        intros [?|?]%elem_of_cons; congruence.
Qed.

Lemma cats_find_of_elem d i c :
  NoDup d.*1 → (i, c) ∈ d → cats_find d i = Some c.
Proof.
  unfold cats_find. induction d as [|[i0 c0] d IH]; simpl.
  - by intros _ ?%elem_of_nil.
  - intros [Hnin Hnd]%NoDup_cons [[= -> ->]|Hin]%elem_of_cons.
    + by rewrite String.eqb_refl.
    + destruct (String.eqb i0 i) eqn:E; [|by apply IH].
      apply String.eqb_eq in E as ->. exfalso. apply Hnin.
      apply list_elem_of_fmap. by exists (i, c).
Qed.

Lemma cats_find_some d i c : cats_find d i = Some c → (i, c) ∈ d.
Proof.
  unfold cats_find. destruct (List.find _ d) as [[i0 c0]|] eqn:E; [|done].
  intros [= <-]. apply find_some in E as [Hin Heq%String.eqb_eq].
  simpl in Heq. subst. by apply list_elem_of_In.
Qed.

Lemma cats_find_none d i : cats_find d i = None → i ∉ d.*1.
Proof.
  unfold cats_find. destruct (List.find _ d) eqn:E; [done|]. intros _.
  intros ([i0 c0] & -> & Hin)%list_elem_of_fmap.
  apply list_elem_of_In in Hin.
  pose proof (find_none _ _ E _ Hin) as H. simpl in H.
  by rewrite String.eqb_refl in H.
Qed.

(** The largest count, and the first key that has it. *)
Lemma best_of_max c : ∀ cur,
  let b := best_of c cur in
  (b = cur ∨ b ∈ c) ∧ snd cur ≤ snd b ∧ ∀ k n, (k, n) ∈ c → n ≤ snd b.
Proof.
  induction c as [|[k0 n0] c IH]; intros cur; simpl.
  - split; [by left|]. split; [lia|]. by intros k n ?%elem_of_nil.
  - destruct (n0 >? snd cur) eqn:E.
    + apply Z.gtb_lt in E. destruct (IH (k0, n0)) as (Hin & Hle & Hmax).
      simpl in *. split; [|split].
      * right. destruct Hin as [->|Hin]; [by left | by right].
      * lia.
      * intros k n [[= -> ->]|H]%elem_of_cons; [done | eauto].
    + rewrite Z.gtb_ltb in E. apply Z.ltb_ge in E.
      destruct (IH cur) as (Hin & Hle & Hmax). split; [|split].
      * destruct Hin as [->|Hin]; [by left | right; by right].
      * done.
      * intros k n [[= -> ->]|H]%elem_of_cons; [lia | eauto].
Qed.

Lemma most_common_first_max c cat :
  most_common_first c = Some cat →
  ∃ n, (cat, n) ∈ c ∧ ∀ k' n', (k', n') ∈ c → n' ≤ n.
Proof.
  destruct c as [|[k0 n0] c]; [done|]. simpl. intros [= <-].
  destruct (best_of_max c (k0, n0)) as (Hin & Hle & Hmax). simpl in *.
  destruct (best_of c (k0, n0)) as [k n] eqn:E. simpl in *.
  exists n. split.
  - destruct Hin as [[= -> ->]|Hin]; [by left | by right].
  - intros k' n' [[= -> ->]|H]%elem_of_cons; [done | eauto].
Qed.

Lemma fold_record_lookup d : ∀ m i,
  NoDup d.*1 →
  fold_left record_most_common d m !! i =
  match cats_find d i with
  | Some c => match most_common_first c with
              | Some cat => Some cat
              | None => m !! i
              end
  | None => m !! i
  end.
Proof.
  induction d as [|[i0 c0] d IH]; intros m i Hnd; [done|].
  rewrite fmap_cons in Hnd. apply NoDup_cons in Hnd as [Hnin Hnd].
  cbn [fold_left]. rewrite IH by done. unfold cats_find at 2. simpl.
  destruct (String.eqb i0 i) eqn:E.
  - apply String.eqb_eq in E as ->.
    destruct (cats_find d i) as [c|] eqn:Ef.
    { apply cats_find_some in Ef. exfalso. apply Hnin.
      apply list_elem_of_fmap. by exists (i, c). }
    unfold record_most_common. simpl.
    destruct (most_common_first c0); [by rewrite lookup_insert_eq | done].
  - apply String.eqb_neq in E. fold (cats_find d i).
    assert (Hm : record_most_common m (i0, c0) !! i = m !! i).
    { unfold record_most_common. simpl.
      destruct (most_common_first c0); [by rewrite lookup_insert_ne | done]. }
    rewrite Hm. done.
Qed.

Lemma counter_incr_counted c k :
  (∀ k' n', (k', n') ∈ c → 0 < n') → counted (counter_incr c k).
Proof.
  intros Hpos. split; [apply counter_incr_nonempty|].
  induction c as [|[k0 n0] c IH]; simpl.
  - intros k' n' [[= -> ->]|?%elem_of_nil]%elem_of_cons; [lia | done].
  - assert (H0 : 0 < n0) by (apply (Hpos k0); by left).
    assert (Hc : ∀ k' n', (k', n') ∈ c → 0 < n')
      by (intros k' n' H; apply (Hpos k'); by right).
    destruct (String.eqb k0 k).
    + intros k' n' [[= -> ->]|H]%elem_of_cons; [lia | eauto].
    + intros k' n' [[= -> ->]|H]%elem_of_cons; [done | by apply (IH Hc k')].
Qed.

Lemma tally_item_counted d i k :
  (∀ i' c, (i', c) ∈ d → counted c) →
  ∀ i' c, (i', c) ∈ tally_item d i k → counted c.
Proof.
  induction d as [|[i0 c0] d IH]; intros Hd i' c; simpl.
  - intros [[= -> ->]|?%elem_of_nil]%elem_of_cons; [|done].
    apply (counter_incr_counted [] k). by intros k' n' ?%elem_of_nil.
  - assert (H0 : counted c0) by (apply (Hd i0); by left).
    assert (Hr : ∀ i' c, (i', c) ∈ d → counted c)
      by (intros i1 c1 H; apply (Hd i1); by right).
    destruct (String.eqb i0 i).
    + intros [[= -> ->]|H]%elem_of_cons; [|by eapply Hr].
      apply counter_incr_counted, H0.
    + intros [[= -> ->]|H]%elem_of_cons; [done | by eapply IH].
Qed.

Section CategoryHistoryFacts.

Variable DEFAULT_MINT_CATEGORY : string.
Variable non_item_merchant : string -> bool.
Variable rm_leading_qty : string -> string.
Variable args : Args.

#[local] Abbreviation hist := (history_trans DEFAULT_MINT_CATEGORY
                                non_item_merchant args).
#[local] Abbreviation name_of := (item_name rm_leading_qty args).
#[local] Abbreviation cats := (item_to_cats DEFAULT_MINT_CATEGORY
                                non_item_merchant rm_leading_qty args).
#[local] Abbreviation votes' := (votes DEFAULT_MINT_CATEGORY
                                  non_item_merchant rm_leading_qty args).

#[local] Abbreviation tally_all' := (tally_all rm_leading_qty args).

Lemma tally_all_snoc l t :
  tally_all' (l ++ [t]) = tally_item (tally_all' l) (name_of t) (category t).
Proof. unfold tally_all. by rewrite fold_left_app. Qed.

Lemma tally_all_counts l i k :
  counter_get (cats_get (tally_all' l) i) k
  = Z.of_nat (length (List.filter
                        (λ t, String.eqb (name_of t) i
                              && String.eqb (category t) k) l)).
Proof.
  induction l as [|t l IH] using rev_ind; [done|].
  rewrite tally_all_snoc, cats_find_tally, List.filter_app, length_app.
  simpl. destruct (String.eqb (name_of t) i); simpl.
  - rewrite counter_get_incr, IH.
    destruct (String.eqb (category t) k); simpl; lia.
  - rewrite IH. lia.
Qed.

Lemma tally_all_NoDup l :
  NoDup (tally_all' l).*1 ∧
  ∀ i, NoDup (cats_get (tally_all' l) i).*1.
Proof.
  induction l as [|t l [IH1 IH2]] using rev_ind.
  - split; [constructor|]. intros i. constructor.
  - rewrite tally_all_snoc. split.
    + rewrite tally_item_keys. destruct (bool_decide _) eqn:E; [done|].
      apply bool_decide_eq_false in E. apply NoDup_app. split; [done|]. split.
      * by intros x Hx ->%list_elem_of_singleton.
      * apply NoDup_singleton.
    + intros i. rewrite cats_find_tally.
      destruct (String.eqb _ _); [by apply counter_incr_NoDup | done].
Qed.

Lemma tally_all_counted l i c : (i, c) ∈ tally_all' l → counted c.
Proof.
  revert i c. induction l as [|t l IH] using rev_ind.
  - by intros i c ?%elem_of_nil.
  - rewrite tally_all_snoc. by apply tally_item_counted.
Qed.

Lemma history_trans_qualify trans t :
  t ∈ hist trans →
  is_pending t = false ∧ is_debit t = true ∧
  category t ≠ DEFAULT_MINT_CATEGORY ∧
  non_item_merchant (merchant t) = false.
Proof.
  intros Ht. unfold history_trans in Ht. apply list_elem_of_In in Ht.
  apply filter_In in Ht as [Ht H5%negb_true_iff].
  apply filter_In in Ht as [Ht H4%negb_true_iff].
  apply filter_In in Ht as [Ht _].
  apply filter_In in Ht as [Ht H2].
  apply filter_In in Ht as [_ H1%negb_true_iff].
  repeat split; try done. by apply String.eqb_neq.
Qed.

Lemma votes_pos trans i k :
  0 < votes' trans i k ↔
  ∃ t, t ∈ hist trans ∧ name_of t = i ∧ category t = k.
Proof.
  unfold votes. split.
  - intros Hk.
    destruct (List.filter _ (hist trans)) as [|t l] eqn:Ef; [simpl in Hk; lia|].
    assert (Hin : In t (List.filter (λ t, String.eqb (name_of t) i
                     && String.eqb (category t) k) (hist trans)))
      by (rewrite Ef; by left).
    apply filter_In in Hin as [Hin [H1 H2]%andb_true_iff].
    exists t. rewrite list_elem_of_In.
    by apply String.eqb_eq in H1, H2.
  - intros (t & Ht & <- & <-). apply list_elem_of_In in Ht.
    assert (Hin : In t (List.filter (λ t0, String.eqb (name_of t0) (name_of t)
                     && String.eqb (category t0) (category t)) (hist trans))).
    { apply filter_In. split; [done|]. by rewrite !String.eqb_refl. }
    destruct (List.filter _ (hist trans)); [done|]. simpl. lia.
Qed.

(** X15.  The category learned for an item is one its tagged transactions
    really have, by majority: when the history maps an item name to a
    category, some transaction that counts (not pending, a debit, its
    description starting with a tagged prefix, its category not the default,
    its merchant not a non-item one) has that item name and that category,
    and no other category has more such transactions for the item.  Item
    names without such a transaction are not in the history, and with
    do_not_predict_categories there is no history at all. *)
Theorem category_history_is_majority (trans : list Transaction)
    (item cat : string) :
  get_mint_category_history_for_items DEFAULT_MINT_CATEGORY
    non_item_merchant rm_leading_qty args true trans = None ∧
  ∃ m,
    get_mint_category_history_for_items DEFAULT_MINT_CATEGORY
      non_item_merchant rm_leading_qty args false trans = Some m ∧
    (m !! item = Some cat →
       (∃ t, t ∈ hist trans ∧ name_of t = item ∧ category t = cat ∧
             is_pending t = false ∧ is_debit t = true ∧
             category t ≠ DEFAULT_MINT_CATEGORY ∧
             non_item_merchant (merchant t) = false) ∧
       ∀ cat', votes' trans item cat' ≤ votes' trans item cat) ∧
    (is_Some (m !! item) ↔ ∃ t, t ∈ hist trans ∧ name_of t = item).
Proof.
  split; [done|]. eexists. split; [reflexivity|].
  change (cats trans) with (tally_all' (hist trans)).
  destruct (tally_all_NoDup (hist trans)) as [Hnd Hnd2].
  assert (Hvotes : ∀ k, counter_get (cats_get (tally_all' (hist trans)) item) k
                        = votes' trans item k)
    by (intros k; apply tally_all_counts).
  rewrite !fold_record_lookup by done.
  specialize (Hnd2 item). unfold cats_get in Hvotes, Hnd2.
  destruct (cats_find (tally_all' (hist trans)) item) as [c|] eqn:Ef;
    simpl in Hvotes, Hnd2.
  - destruct (tally_all_counted _ _ _ (cats_find_some _ _ _ Ef))
      as [Hne Hpos].
    split.
    + destruct (most_common_first c) as [cat0|] eqn:Em;
        [|by rewrite lookup_empty].
      intros [= ->].
      apply most_common_first_max in Em as (n & Hin & Hmax).
      pose proof (counter_get_of_elem _ _ _ Hnd2 Hin) as Hn.
      rewrite Hvotes in Hn. pose proof (Hpos _ _ Hin) as Hn0. split.
      * destruct (proj1 (votes_pos trans item cat)) as (t & Ht & Hit & Hct);
          [lia|].
        exists t. split; [done|]. split; [done|]. split; [done|].
        by apply (history_trans_qualify trans).
      * intros cat'. rewrite Hn, <- Hvotes.
        destruct (decide (cat' ∈ c.*1)) as [Hk|Hk].
        -- apply list_elem_of_fmap in Hk as ([k1 n1] & -> & Hin1). simpl.
           rewrite (counter_get_of_elem _ _ _ Hnd2 Hin1). eauto.
        -- rewrite (counter_get_missing _ _ Hk). lia.
    + destruct c as [|[k n] c]; [done|]. split.
      * intros _.
        assert (Hin : (k, n) ∈ (k, n) :: c) by by left.
        pose proof (counter_get_of_elem _ _ _ Hnd2 Hin) as Hn.
        rewrite Hvotes in Hn. pose proof (Hpos _ _ Hin) as Hn0.
        destruct (proj1 (votes_pos trans item k)) as (t & Ht & Hit & _);
          [lia|].
        by exists t.
      * intros _. simpl. by eexists.
  - rewrite lookup_empty. split; [done|]. split; [by intros [? ?]|].
    intros (t & Ht & Hit). exfalso.
    assert (Hp : 0 < votes' trans item (category t))
      by (apply votes_pos; by exists t).
    rewrite <- Hvotes in Hp. unfold counter_get in Hp. simpl in Hp. lia.
Qed.

End CategoryHistoryFacts.

(** ** s_to_time *)

Lemma datetime_time_some h m s r :
  datetime_time h m s = Some r ↔
  r = (h, m, s) ∧ 0 ≤ h < 24 ∧ 0 ≤ m < 60 ∧ 0 ≤ s < 60.
Proof.
  unfold datetime_time.
  destruct (0 <=? h) eqn:E1, (h <? 24) eqn:E2, (0 <=? m) eqn:E3,
    (m <? 60) eqn:E4, (0 <=? s) eqn:E5, (s <? 60) eqn:E6; simpl;
    rewrite ?Z.leb_le, ?Z.ltb_lt, ?Z.leb_gt, ?Z.ltb_ge in *;
    (split; [intros [= <-] | intros (-> & ? & ? & ?)]); try done;
    try lia; repeat split; lia.
Qed.

(** X16.  A duration is turned into a time of day only below one day: for
    an integer number of seconds s, s_to_time returns a time exactly when
    0 <= s < 86400 (otherwise datetime.time raises), and the time it returns
    is s written as hours, minutes and seconds:
    hour * 3600 + minute * 60 + second = s, with minute and second below
    60. *)
Theorem s_to_time_only_within_a_day (s : Z) :
  (is_Some (s_to_time s) ↔ 0 ≤ s < 86400) ∧
  ∀ h m sec, s_to_time s = Some (h, m, sec) →
    h * 3600 + m * 60 + sec = s ∧ 0 ≤ h < 24 ∧ 0 ≤ m < 60 ∧ 0 ≤ sec < 60.
Proof.
  unfold s_to_time. cbv zeta. split.
  - split.
    + intros [r Hr]. apply datetime_time_some in Hr as (_ & Hh & _).
      Z.to_euclidean_division_equations. lia.
    + intros Hs. exists (s / 60 / 60, Z.quot s 60 mod 60, s mod 60).
      apply datetime_time_some. split; [done|].
      Z.to_euclidean_division_equations. lia.
  - intros h m sec Hr.
    apply datetime_time_some in Hr as ([= -> -> ->] & Hh & Hm & Hs).
    split; [|done].
    assert (0 ≤ s) by (Z.to_euclidean_division_equations; lia).
    rewrite Z.quot_div_nonneg by lia.
    Z.to_euclidean_division_equations. lia.
Qed.
